(** * Key-Value-Store: a shallow embedding of the storage core

    The development follows the C++ sources:

    - [AVLTree]        include/data_structures/avl_tree.h
    - [SortedSet]      src/data_structures/sorted_set.cpp
    - [TTLHeap]        src/data_structures/heap.cpp
    - [HashTable]      src/data_structures/hash_table.cpp
    - [StorageEngine]  src/storage_engine.cpp
    - [CommandHandler] src/commands/command_handler.cpp

    Conventions of the embedding:

    - a method is a function from the object to its result and the new
      object; every method holds the mutex of its object from entry to
      exit, so a run of the program is a sequence of whole operations;
    - scores are IEEE binary64 values ([PrimFloat.float]), compared with
      the primitive comparisons, NaN included;
    - a time point is an integer tick count of the steady clock, and each
      reading of the clock is an argument of the operation that reads it;
    - [size_t] counters wrap modulo [2^64]; the [int] height of a tree
      node is an integer (it stays far below [2^31]);
    - the loops [while (...)] of the heap run on a number of rounds that
      is proved to be enough. *)

From Stdlib Require Import ZArith Lia List Floats.
From stdpp Require Import gmap strings list pretty sorting.

Local Open Scope Z_scope.

(** [size_t] arithmetic. *)
Definition size_max : Z := 2 ^ 64.
Definition size_incr (n : Z) : Z := (n + 1) mod size_max.
Definition size_decr (n : Z) : Z := (n - 1) mod size_max.

(** * AVLTree<K, V> *)
Module AVLTree.
Section AVLTree.
Context {K V : Type}.
(** [operator<] of the key type; [a > b] is read as [b < a], which is what
    it is for [double]. *)
Variable ltb : K -> K -> bool.

(** A [std::unique_ptr<Node>]: either [nullptr] or an owned node. *)
Inductive Node : Type :=
| null
| node (key : K) (value : V) (height_ : Z) (left right : Node).

Definition height (n : Node) : Z :=
  match n with
  | null => 0
  | node _ _ h _ _ => h
  end.

Definition balance_factor (n : Node) : Z :=
  match n with
  | null => 0
  | node _ _ _ l r => height l - height r
  end.

Definition update_height (n : Node) : Node :=
  match n with
  | null => null
  | node k v _ l r => node k v (1 + Z.max (height l) (height r)) l r
  end.

(** [rotate_right] dereferences [y->left]; it is only called on a node
    whose left child exists, other inputs are returned as they are. *)
Definition rotate_right (y : Node) : Node :=
  match y with
  | node yk yv yh (node xk xv xh xl xr) yr =>
      let y' := update_height (node yk yv yh xr yr) in
      update_height (node xk xv xh xl y')
  | _ => y
  end.

Definition rotate_left (x : Node) : Node :=
  match x with
  | node xk xv xh xl (node yk yv yh yl yr) =>
      let x' := update_height (node xk xv xh xl yl) in
      update_height (node yk yv yh x' yr)
  | _ => x
  end.

Definition balance (n : Node) : Node :=
  match update_height n with
  | null => null
  | node k v h l r =>
      let bf := balance_factor (node k v h l r) in
      if 1 <? bf then
        let l' := if balance_factor l <? 0 then rotate_left l else l in
        rotate_right (node k v h l' r)
      else if bf <? -1 then
        let r' := if 0 <? balance_factor r then rotate_right r else r in
        rotate_left (node k v h l r')
      else node k v h l r
  end.

(** [insert_node] threads the tree's [size_] counter. *)
Fixpoint insert_node (n : Node) (key : K) (value : V) (size_ : Z) : Node * Z :=
  match n with
  | null => (node key value 1 null null, size_incr size_)
  | node k v h l r =>
      if ltb key k then
        let '(l', s) := insert_node l key value size_ in
        (balance (node k v h l' r), s)
      else if ltb k key then
        let '(r', s) := insert_node r key value size_ in
        (balance (node k v h l r'), s)
      else (node k value h l r, size_)
  end.

(** [find_min] is called on a non-null node only. *)
Fixpoint find_min (n : Node) : option (K * V) :=
  match n with
  | null => None
  | node k v _ null _ => Some (k, v)
  | node _ _ _ l _ => find_min l
  end.

Fixpoint remove_node (n : Node) (key : K) (size_ : Z) : Node * Z :=
  match n with
  | null => (null, size_)
  | node k v h l r =>
      if ltb key k then
        let '(l', s) := remove_node l key size_ in
        (balance (node k v h l' r), s)
      else if ltb k key then
        let '(r', s) := remove_node r key size_ in
        (balance (node k v h l r'), s)
      else
        match l, r with
        | null, null => (null, size_decr size_)
        | null, _ => (r, size_decr size_)
        | _, null => (l, size_decr size_)
        | _, _ =>
            match find_min r with
            | Some (sk, sv) =>
                let '(r', s) := remove_node r sk size_ in
                (balance (node sk sv h l r'), s)
            | None => (n, size_)
            end
        end
  end.

Fixpoint find_node (n : Node) (key : K) : option (K * V) :=
  match n with
  | null => None
  | node k v _ l r =>
      if ltb key k then find_node l key
      else if ltb k key then find_node r key
      else Some (k, v)
  end.

Fixpoint inorder_traversal (n : Node) : list (K * V) :=
  match n with
  | null => []
  | node k v _ l r => inorder_traversal l ++ (k, v) :: inorder_traversal r
  end.

(** [>=] and [<=] on keys: for [double] they are not the negations of [<]
    and [>], so they are taken as a separate operator. *)
Variable leb : K -> K -> bool.

Fixpoint range_query (n : Node) (min_key max_key : K) : list (K * V) :=
  match n with
  | null => []
  | node k v _ l r =>
      (if ltb min_key k then range_query l min_key max_key else [])
      ++ (if leb min_key k && leb k max_key then [(k, v)] else [])
      ++ (if ltb k max_key then range_query r min_key max_key else [])
  end.

(** The tree object: [root_] and [size_]. *)
Record t : Type := mk { root_ : Node; size_ : Z }.

Definition empty_tree : t := {| root_ := null; size_ := 0 |}.

Definition insert (tr : t) (key : K) (value : V) : t :=
  let '(r, s) := insert_node (root_ tr) key value (size_ tr) in
  {| root_ := r; size_ := s |}.

Definition remove (tr : t) (key : K) : bool * t :=
  let old_size := size_ tr in
  let '(r, s) := remove_node (root_ tr) key (size_ tr) in
  (s <? old_size, {| root_ := r; size_ := s |}).

Definition find (tr : t) (key : K) : option V :=
  snd <$> find_node (root_ tr) key.

Definition size (tr : t) : Z := size_ tr.
Definition empty (tr : t) : bool := size_ tr =? 0.
Definition clear (tr : t) : t := empty_tree.
Definition range (tr : t) (min_key max_key : K) : list (K * V) :=
  range_query (root_ tr) min_key max_key.
Definition get_all (tr : t) : list (K * V) := inorder_traversal (root_ tr).

End AVLTree.
Arguments Node : clear implicits.
Arguments t : clear implicits.
End AVLTree.

(** * double *)
(** The comparisons of [double] the sources use. [!=] is the negation of
    IEEE equality, so [NaN != NaN] holds. *)
Definition double_lt (a b : float) : bool := PrimFloat.ltb a b.
Definition double_le (a b : float) : bool := PrimFloat.leb a b.
Definition double_eq (a b : float) : bool := PrimFloat.eqb a b.
Definition double_ne (a b : float) : bool := negb (PrimFloat.eqb a b).

(** * SortedSet *)
Module SortedSet.

(** [score_tree_] is an [AVLTree<double, std::string>] keyed by the score
    alone; [member_scores_] is the [unordered_map] from member to score. *)
Record t : Type := mk {
  score_tree_ : AVLTree.t float string;
  member_scores_ : gmap string float
}.

Definition new : t :=
  {| score_tree_ := AVLTree.empty_tree; member_scores_ := ∅ |}.

Definition add (s : t) (member : string) (score : float) : bool * t :=
  match member_scores_ s !! member with
  | Some old =>
      if double_ne old score then
        let tr1 := snd (AVLTree.remove double_lt (score_tree_ s) old) in
        let ms := <[member := score]> (member_scores_ s) in
        let tr2 := AVLTree.insert double_lt tr1 score member in
        (true, {| score_tree_ := tr2; member_scores_ := ms |})
      else (false, s)
  | None =>
      let ms := <[member := score]> (member_scores_ s) in
      let tr := AVLTree.insert double_lt (score_tree_ s) score member in
      (true, {| score_tree_ := tr; member_scores_ := ms |})
  end.

Definition remove (s : t) (member : string) : bool * t :=
  match member_scores_ s !! member with
  | Some old =>
      let tr := snd (AVLTree.remove double_lt (score_tree_ s) old) in
      (true, {| score_tree_ := tr; member_scores_ := delete member (member_scores_ s) |})
  | None => (false, s)
  end.

Definition get_score (s : t) (member : string) : option float :=
  member_scores_ s !! member.

Definition size (s : t) : Z := Z.of_nat (map_size (member_scores_ s)).

Definition clear (s : t) : t := new.

(** The linear scan of [rank] over [get_all()]. *)
Fixpoint rank_scan (all : list (float * string)) (score : float) (member : string)
    (i : nat) : option nat :=
  match all with
  | [] => None
  | (sc, m) :: rest =>
      if double_eq sc score && bool_decide (m = member) then Some i
      else rank_scan rest score member (S i)
  end.

Definition rank (s : t) (member : string) : option nat :=
  match member_scores_ s !! member with
  | None => None
  | Some score => rank_scan (AVLTree.get_all (score_tree_ s)) score member 0
  end.

Definition get_all (s : t) : list (string * float) :=
  (fun p : float * string => (p.2, p.1)) <$> AVLTree.get_all (score_tree_ s).

Definition range_by_score (s : t) (min_score max_score : float) : list (string * float) :=
  (fun p : float * string => (p.2, p.1))
    <$> AVLTree.range double_lt double_le (score_tree_ s) min_score max_score.

Definition get_by_rank (s : t) (rank : nat) : option string :=
  snd <$> AVLTree.get_all (score_tree_ s) !! rank.

(** [start] and [stop] are [size_t]. [result.reserve(stop - start + 1)]
    computes its argument modulo [2^64] and throws [std::length_error]
    above the [max_size()] of the vector: the result is [None] then. *)
Definition range_by_rank (max_size : Z) (s : t) (start stop : Z)
    : option (list (string * float)) :=
  let all := AVLTree.get_all (score_tree_ s) in
  let n := Z.of_nat (length all) in
  if n <=? start then Some []
  else
    let stop := Z.min stop (n - 1) in
    if max_size <? (stop - start + 1) mod size_max then None
    else
      Some ((fun p : float * string => (p.2, p.1))
              <$> take (Z.to_nat (stop + 1 - start)) (drop (Z.to_nat start) all)).

End SortedSet.

(** * TTLHeap *)
Module TTLHeap.

(** A [TimePoint] is a tick count of the steady clock. *)
Record TTLEntry : Type := mkEntry { key : string; expiry : Z }.

(** [TTLEntry::operator<]. *)
Definition entry_lt (a b : TTLEntry) : bool := expiry a <? expiry b.

Record t : Type := mk {
  heap_ : list TTLEntry;
  key_to_index_ : gmap string nat
}.

Definition new : t := {| heap_ := []; key_to_index_ := ∅ |}.

(** [std::swap(heap_[i], heap_[j])] followed by the two index updates.
    Indexing out of range is undefined in the source; the callers never do
    it and the model leaves the heap as it is there. *)
Definition swap_entries (h : t) (i j : nat) : t :=
  match heap_ h !! i, heap_ h !! j with
  | Some a, Some b =>
      let arr := <[j := a]> (<[i := b]> (heap_ h)) in
      {| heap_ := arr;
         key_to_index_ := <[key a := j]> (<[key b := i]> (key_to_index_ h)) |}
  | _, _ => h
  end.

(** The loop of [heapify_up]; each round moves to the parent, so [index]
    rounds are enough. *)
Fixpoint heapify_up_loop (fuel : nat) (h : t) (index : nat) : t :=
  match fuel with
  | O => h
  | S fuel' =>
      if bool_decide (0 < index)%nat then
        let parent := ((index - 1) / 2)%nat in
        match heap_ h !! index, heap_ h !! parent with
        | Some e, Some p =>
            if entry_lt e p then heapify_up_loop fuel' (swap_entries h index parent) parent
            else h
        | _, _ => h
        end
      else h
  end.

Definition heapify_up (h : t) (index : nat) : t := heapify_up_loop index h index.

(** One round of [heapify_down]: the index of the smallest among [index]
    and its children. *)
Definition smallest_of (arr : list TTLEntry) (index : nat) : nat :=
  let size := length arr in
  let left_child := (2 * index + 1)%nat in
  let right_child := (2 * index + 2)%nat in
  let smallest := index in
  let smallest :=
    match arr !! left_child, arr !! smallest with
    | Some l, Some s => if bool_decide (left_child < size)%nat && entry_lt l s then left_child else smallest
    | _, _ => smallest
    end in
  let smallest :=
    match arr !! right_child, arr !! smallest with
    | Some r, Some s => if bool_decide (right_child < size)%nat && entry_lt r s then right_child else smallest
    | _, _ => smallest
    end in
  smallest.

(** The loop of [heapify_down]; each round moves to a child, so
    [heap_.size()] rounds are enough. *)
Fixpoint heapify_down_loop (fuel : nat) (h : t) (index : nat) : t :=
  match fuel with
  | O => h
  | S fuel' =>
      let smallest := smallest_of (heap_ h) index in
      if bool_decide (smallest ≠ index) then
        heapify_down_loop fuel' (swap_entries h index smallest) smallest
      else h
  end.

Definition heapify_down (h : t) (index : nat) : t :=
  heapify_down_loop (length (heap_ h)) h index.

Definition pop_back (arr : list TTLEntry) : list TTLEntry :=
  take (length arr - 1) arr.

Definition add (h : t) (k : string) (exp : Z) : t :=
  match key_to_index_ h !! k with
  | Some index =>
      let arr := match heap_ h !! index with
                 | Some e => <[index := mkEntry (key e) exp]> (heap_ h)
                 | None => heap_ h
                 end in
      let h1 := {| heap_ := arr; key_to_index_ := key_to_index_ h |} in
      (* heapify_down is called with the same [index] as heapify_up *)
      heapify_down (heapify_up h1 index) index
  | None =>
      let arr := heap_ h ++ [mkEntry k exp] in
      let index := (length arr - 1)%nat in
      heapify_up {| heap_ := arr; key_to_index_ := <[k := index]> (key_to_index_ h) |} index
  end.

(** [update] of a key that is not in the heap calls [add] while it still
    holds [mutex_], a plain [std::mutex]: the call does not return, which
    is the result [None]. *)
Definition update (h : t) (k : string) (exp : Z) : option t :=
  match key_to_index_ h !! k with
  | Some index =>
      match heap_ h !! index with
      | Some e =>
          let old_expiry := expiry e in
          let h1 := {| heap_ := <[index := mkEntry (key e) exp]> (heap_ h);
                       key_to_index_ := key_to_index_ h |} in
          Some (if exp <? old_expiry then heapify_up h1 index else heapify_down h1 index)
      | None => Some h
      end
  | None => None
  end.

Definition remove (h : t) (k : string) : t :=
  match key_to_index_ h !! k with
  | None => h
  | Some index =>
      let last_index := (length (heap_ h) - 1)%nat in
      if bool_decide (index ≠ last_index) then
        let h1 := swap_entries h index last_index in
        let h2 := {| heap_ := pop_back (heap_ h1);
                     key_to_index_ := delete k (key_to_index_ h1) |} in
        match heap_ h2 with
        | [] => h2
        | _ => heapify_down h2 index
        end
      else
        {| heap_ := pop_back (heap_ h);
           key_to_index_ := delete k (key_to_index_ h) |}
  end.

(** One round of the loop of [get_expired_keys]: the root is popped. *)
Definition pop_root (h : t) (k : string) : t :=
  let last_index := (length (heap_ h) - 1)%nat in
  let h1 := swap_entries h 0 last_index in
  let h2 := {| heap_ := pop_back (heap_ h1);
               key_to_index_ := delete k (key_to_index_ h1) |} in
  match heap_ h2 with
  | [] => h2
  | _ => heapify_down h2 0
  end.

(** The loop of [get_expired_keys]; [now] is read once before it. Every
    round pops one entry, so [heap_.size()] rounds are enough. *)
Fixpoint get_expired_keys_loop (fuel : nat) (now : Z) (h : t)
    (expired_keys : list string) : list string * t :=
  match fuel with
  | O => (expired_keys, h)
  | S fuel' =>
      match heap_ h !! 0%nat with
      | Some e =>
          if expiry e <=? now then
            get_expired_keys_loop fuel' now (pop_root h (key e)) (expired_keys ++ [key e])
          else (expired_keys, h)
      | None => (expired_keys, h)
      end
  end.

Definition get_expired_keys (now : Z) (h : t) : list string * t :=
  get_expired_keys_loop (length (heap_ h)) now h [].

Definition size (h : t) : nat := length (heap_ h).
Definition empty (h : t) : bool := bool_decide (heap_ h = []).
Definition clear (h : t) : t := new.
Definition next_expiry (h : t) : option Z := expiry <$> heap_ h !! 0%nat.

End TTLHeap.

(** * Value and Entry (hash_table.h) *)
Inductive Type_ : Type := STRING | INTEGER | SORTED_SET | NONE.

#[global] Instance Type__eq_dec : EqDecision Type_.
Proof. solve_decision. Defined.

(** A [SortedSet*] is the address of a sorted set allocated by
    [new SortedSet()]; [None] is [nullptr]. *)
Record Value : Type := mkValue {
  type_ : Type_;
  string_value_ : string;
  int_value_ : Z;
  sorted_set_ptr_ : option nat
}.

Definition Value_default : Value := mkValue NONE "" 0 None.
Definition Value_of_string (str : string) : Value := mkValue STRING str 0 None.
Definition Value_of_int (num : Z) : Value := mkValue INTEGER "" num None.

Definition is_string (v : Value) : bool := bool_decide (type_ v = STRING).
Definition is_int (v : Value) : bool := bool_decide (type_ v = INTEGER).
Definition is_sorted_set (v : Value) : bool := bool_decide (type_ v = SORTED_SET).
Definition get_sorted_set_ptr (v : Value) : option nat := sorted_set_ptr_ v.
Definition set_sorted_set_ptr (v : Value) (ptr : nat) : Value :=
  mkValue SORTED_SET (string_value_ v) (int_value_ v) (Some ptr).

Definition as_string (v : Value) : string :=
  match type_ v with
  | STRING => string_value_ v
  | INTEGER => pretty (int_value_ v)
  | SORTED_SET => "[SORTED_SET]"
  | NONE => "[NONE]"
  end.

Record Entry : Type := mkEntry {
  key : string;
  value : Value;
  expiry : option Z
}.

(** [Entry::is_expired], with the clock reading as an argument. *)
Definition is_expired (now : Z) (e : Entry) : bool :=
  match expiry e with
  | None => false
  | Some t => t <? now
  end.

(** [std::chrono::seconds] added to a time point of the steady clock. *)
Definition ticks_per_second : Z := 1000000000.
Definition after (now ttl : Z) : Z := now + ttl * ticks_per_second.

(** * HashTable (src/data_structures/hash_table.cpp) *)
Module HashTable.
Section HashTable.
(** [std::hash<std::string>]. *)
Variable hash : string -> nat.

Record t : Type := mk {
  bucket_count_ : nat;
  buckets_ : list (list Entry);
  size_ : Z
}.

Definition new (initial_size : nat) : t :=
  {| bucket_count_ := initial_size; buckets_ := replicate initial_size []; size_ := 0 |}.

Definition hash_function (tb : t) (k : string) : nat :=
  (hash k mod bucket_count_ tb)%nat.

Definition bucket (tb : t) (bucket_idx : nat) : list Entry :=
  default [] (buckets_ tb !! bucket_idx).

(** [std::find_if] over the bucket: the position and the entry found. *)
Definition find_entry (tb : t) (k : string) (bucket_idx : nat) : option (nat * Entry) :=
  list_find (fun e => key e = k) (bucket tb bucket_idx).

Definition resize (tb : t) (new_size : nat) : t :=
  let new_buckets :=
    foldl (fun nb e => alter (fun b => b ++ [e]) (hash (key e) mod new_size)%nat nb)
          (replicate new_size []) (mjoin (buckets_ tb)) in
  {| bucket_count_ := new_size; buckets_ := new_buckets; size_ := size_ tb |}.

(** [size_ > bucket_count_ * 0.75], both sides exact in [double]. *)
Definition resize_if_needed (tb : t) : t :=
  if 3 * Z.of_nat (bucket_count_ tb) <? 4 * size_ tb
  then resize tb (bucket_count_ tb * 2)
  else tb.

Definition set_bucket (tb : t) (bucket_idx : nat) (b : list Entry) : t :=
  {| bucket_count_ := bucket_count_ tb;
     buckets_ := <[bucket_idx := b]> (buckets_ tb);
     size_ := size_ tb |}.

Definition with_size (tb : t) (n : Z) : t :=
  {| bucket_count_ := bucket_count_ tb; buckets_ := buckets_ tb; size_ := n |}.

(** [set] and [set_with_expiry] differ in the expiry they store. *)
Definition store (tb : t) (k : string) (v : Value) (exp : option Z) : bool * t :=
  let bucket_idx := hash_function tb k in
  match find_entry tb k bucket_idx with
  | Some (i, e) =>
      (true, set_bucket tb bucket_idx (<[i := mkEntry (key e) v exp]> (bucket tb bucket_idx)))
  | None =>
      let tb1 := set_bucket tb bucket_idx (bucket tb bucket_idx ++ [mkEntry k v exp]) in
      (true, resize_if_needed (with_size tb1 (size_incr (size_ tb1))))
  end.

Definition set (tb : t) (k : string) (v : Value) : bool * t :=
  store tb k v None.

Definition set_with_expiry (tb : t) (k : string) (v : Value) (ttl now : Z) : bool * t :=
  store tb k v (Some (after now ttl)).

Definition get (tb : t) (k : string) : option Value :=
  match find_entry tb k (hash_function tb k) with
  | Some (_, e) => Some (value e)
  | None => None
  end.

Definition del (tb : t) (k : string) : bool * t :=
  let bucket_idx := hash_function tb k in
  match find_entry tb k bucket_idx with
  | Some (i, _) =>
      let tb1 := set_bucket tb bucket_idx (delete i (bucket tb bucket_idx)) in
      (true, with_size tb1 (size_decr (size_ tb1)))
  | None => (false, tb)
  end.

Definition exists_ (tb : t) (k : string) : bool :=
  match find_entry tb k (hash_function tb k) with
  | Some _ => true
  | None => false
  end.

Definition expire (tb : t) (k : string) (ttl now : Z) : bool * t :=
  let bucket_idx := hash_function tb k in
  match find_entry tb k bucket_idx with
  | Some (i, e) =>
      (true, set_bucket tb bucket_idx
               (<[i := mkEntry (key e) (value e) (Some (after now ttl))]> (bucket tb bucket_idx)))
  | None => (false, tb)
  end.

Definition size (tb : t) : Z := size_ tb.

Definition clear (tb : t) : t :=
  {| bucket_count_ := bucket_count_ tb;
     buckets_ := (fun _ => []) <$> buckets_ tb;
     size_ := 0 |}.

(** ** The second hash_table.cpp of the repository

    The repository holds a second version of the file, whose [get] and
    [exists] test [is_expired] and erase an expired entry on the way. *)
Definition get_expiring (tb : t) (k : string) (now : Z) : option Value * t :=
  let bucket_idx := hash_function tb k in
  match find_entry tb k bucket_idx with
  | Some (i, e) =>
      if is_expired now e then
        let tb1 := set_bucket tb bucket_idx (delete i (bucket tb bucket_idx)) in
        (None, with_size tb1 (size_decr (size_ tb1)))
      else (Some (value e), tb)
  | None => (None, tb)
  end.

Definition exists_expiring (tb : t) (k : string) (now : Z) : bool * t :=
  let bucket_idx := hash_function tb k in
  match find_entry tb k bucket_idx with
  | Some (i, e) =>
      if is_expired now e then
        let tb1 := set_bucket tb bucket_idx (delete i (bucket tb bucket_idx)) in
        (false, with_size tb1 (size_decr (size_ tb1)))
      else (true, tb)
  | None => (false, tb)
  end.

End HashTable.
End HashTable.

(** * StorageEngine (src/storage_engine.cpp) *)
Module StorageEngine.
Section StorageEngine.
Variable hash : string -> nat.

(** [sorted_sets_] is the free store holding the sets created by
    [new SortedSet()]; the engine never frees one, so the number of sets
    allocated so far is a fresh address. A pass of the expiry thread is
    [process_expired_keys]; the methods below are the code of each method
    run with no call of the other thread in between. *)
Record t : Type := mk {
  hash_table_ : HashTable.t;
  ttl_heap_ : TTLHeap.t;
  sorted_sets_ : gmap nat SortedSet.t
}.

Definition new : t :=
  {| hash_table_ := HashTable.new 1024; ttl_heap_ := TTLHeap.new; sorted_sets_ := ∅ |}.

Definition with_table (st : t) (tb : HashTable.t) : t :=
  {| hash_table_ := tb; ttl_heap_ := ttl_heap_ st; sorted_sets_ := sorted_sets_ st |}.

Definition with_heap (st : t) (h : TTLHeap.t) : t :=
  {| hash_table_ := hash_table_ st; ttl_heap_ := h; sorted_sets_ := sorted_sets_ st |}.

Definition set (st : t) (k v : string) : bool * t :=
  let '(r, tb) := HashTable.set hash (hash_table_ st) k (Value_of_string v) in
  (r, with_table st tb).

Definition set_nx (st : t) (k v : string) : bool * t :=
  if HashTable.exists_ hash (hash_table_ st) k then (false, st)
  else set st k v.

(** [now1] is the clock as the hash table reads it, [now2] as the engine
    reads it afterwards for the heap. *)
Definition set_ex (st : t) (k v : string) (ttl now1 now2 : Z) : bool * t :=
  let '(result, tb) :=
    HashTable.set_with_expiry hash (hash_table_ st) k (Value_of_string v) ttl now1 in
  let st1 := with_table st tb in
  if result then (result, with_heap st1 (TTLHeap.add (ttl_heap_ st1) k (after now2 ttl)))
  else (result, st1).

Definition get (st : t) (k : string) : option string :=
  match HashTable.get hash (hash_table_ st) k with
  | Some v => if is_string v then Some (as_string v) else None
  | None => None
  end.

Definition del (st : t) (k : string) : bool * t :=
  let '(result, tb) := HashTable.del hash (hash_table_ st) k in
  let st1 := with_table st tb in
  if result then (result, with_heap st1 (TTLHeap.remove (ttl_heap_ st1) k))
  else (result, st1).

Definition exists_ (st : t) (k : string) : bool :=
  HashTable.exists_ hash (hash_table_ st) k.

Definition expire (st : t) (k : string) (ttl now1 now2 : Z) : bool * t :=
  if negb (HashTable.exists_ hash (hash_table_ st) k) then (false, st)
  else
    let '(result, tb) := HashTable.expire hash (hash_table_ st) k ttl now1 in
    let st1 := with_table st tb in
    if result then (result, with_heap st1 (TTLHeap.add (ttl_heap_ st1) k (after now2 ttl)))
    else (result, st1).

(** The result is a number of seconds. *)
Definition ttl (st : t) (k : string) : option Z :=
  if negb (HashTable.exists_ hash (hash_table_ st) k) then None
  else Some 0.

Definition get_sorted_set (st : t) (k : string) (create_if_missing : bool)
    : option nat * t :=
  match HashTable.get hash (hash_table_ st) k with
  | Some v =>
      if is_sorted_set v then (get_sorted_set_ptr v, st)
      else (None, st)
  | None =>
      if create_if_missing then
        let zset := map_size (sorted_sets_ st) in
        let v := set_sorted_set_ptr Value_default zset in
        let '(_, tb) := HashTable.set hash (hash_table_ st) k v in
        (Some zset,
         {| hash_table_ := tb; ttl_heap_ := ttl_heap_ st;
            sorted_sets_ := <[zset := SortedSet.new]> (sorted_sets_ st) |})
      else (None, st)
  end.

Definition with_zset (st : t) (ptr : nat) (zs : SortedSet.t) : t :=
  {| hash_table_ := hash_table_ st; ttl_heap_ := ttl_heap_ st;
     sorted_sets_ := <[ptr := zs]> (sorted_sets_ st) |}.

Definition zadd (st : t) (k member : string) (score : float) : bool * t :=
  match get_sorted_set st k true with
  | (Some ptr, st1) =>
      match sorted_sets_ st1 !! ptr with
      | Some zs =>
          let '(r, zs') := SortedSet.add zs member score in
          (r, with_zset st1 ptr zs')
      | None => (false, st1)
      end
  | (None, st1) => (false, st1)
  end.

Definition zrem (st : t) (k member : string) : bool * t :=
  match get_sorted_set st k false with
  | (Some ptr, st1) =>
      match sorted_sets_ st1 !! ptr with
      | Some zs =>
          let '(r, zs') := SortedSet.remove zs member in
          (r, with_zset st1 ptr zs')
      | None => (false, st1)
      end
  | (None, st1) => (false, st1)
  end.

(** The read-only commands look the set up and leave the engine as it is. *)
Definition find_zset (st : t) (k : string) : option SortedSet.t :=
  match get_sorted_set st k false with
  | (Some ptr, _) => sorted_sets_ st !! ptr
  | (None, _) => None
  end.

Definition zscore (st : t) (k member : string) : option float :=
  zs ← find_zset st k; SortedSet.get_score zs member.

Definition zrank (st : t) (k member : string) : option nat :=
  zs ← find_zset st k; SortedSet.rank zs member.

Definition zcard (st : t) (k : string) : Z :=
  match find_zset st k with
  | Some zs => SortedSet.size zs
  | None => 0
  end.

Definition zrangebyscore (st : t) (k : string) (min max : float) : list (string * float) :=
  match find_zset st k with
  | Some zs => SortedSet.range_by_score zs min max
  | None => []
  end.

Definition dbsize (st : t) : Z := HashTable.size (hash_table_ st).

Definition flushdb (st : t) : t :=
  {| hash_table_ := HashTable.clear (hash_table_ st);
     ttl_heap_ := TTLHeap.clear (ttl_heap_ st);
     sorted_sets_ := sorted_sets_ st |}.

(** Milliseconds until the earliest deadline. *)
Definition next_expiry_ms (st : t) (now : Z) : option Z :=
  match TTLHeap.next_expiry (ttl_heap_ st) with
  | None => None
  | Some next => if next <=? now then Some 0 else Some ((next - now) `quot` 1000000)
  end.

Definition process_expired_keys (st : t) (now : Z) : t :=
  let '(expired_keys, h) := TTLHeap.get_expired_keys now (ttl_heap_ st) in
  let tb := foldl (fun tb k => (HashTable.del hash tb k).2) (hash_table_ st) expired_keys in
  {| hash_table_ := tb; ttl_heap_ := h; sorted_sets_ := sorted_sets_ st |}.

(** [get] over the second hash_table.cpp, whose [get] reads the clock. *)
Definition get_expiring (st : t) (k : string) (now : Z) : option string * t :=
  let '(value_opt, tb) := HashTable.get_expiring hash (hash_table_ st) k now in
  (match value_opt with
   | Some v => if is_string v then Some (as_string v) else None
   | None => None
   end, with_table st tb).

End StorageEngine.
End StorageEngine.

(** * CommandHandler (src/commands/command_handler.cpp) *)
Module CommandHandler.

(** A response is built by one of the five [create_] functions, which
    set its type and the field that goes with it. *)
#[local] Set Warnings "-register-all".
Inductive CommandResponse : Type :=
| create_string (val : string)
| create_integer (val : Z)
| create_array (val : list CommandResponse)
| create_error (val : string)
| create_nil.

Definition CRLF : string :=
  String (Ascii.ascii_of_nat 13) (String (Ascii.ascii_of_nat 10) "").

Fixpoint serialize (r : CommandResponse) : string :=
  match r with
  | create_string s => "+" +:+ s +:+ CRLF
  | create_integer n => ":" +:+ pretty n +:+ CRLF
  | create_error s => "-" +:+ s +:+ CRLF
  | create_nil => "$-1" +:+ CRLF
  | create_array l =>
      "*" +:+ pretty (length l) +:+ CRLF
      +:+ (fix items (l : list CommandResponse) : string :=
             match l with
             | [] => ""
             | x :: rest => serialize x +:+ items rest
             end) l
  end.

(** ** parse_command

    [iss >> arg] skips the white space in front, then reads the characters
    up to the next white-space character; it fails when no character is
    left. White space is what [std::isspace] says in the classic locale:
    the space and the characters 9 to 13. *)
Definition isspace (c : Ascii.ascii) : bool :=
  let n := Ascii.nat_of_ascii c in
  bool_decide (n = 32%nat) || bool_decide (9 ≤ n ≤ 13)%nat.

Fixpoint skip_space (s : string) : string :=
  match s with
  | String c rest => if isspace c then skip_space rest else s
  | EmptyString => EmptyString
  end.

Fixpoint read_word (s : string) : string * string :=
  match s with
  | String c rest =>
      if isspace c then (EmptyString, s)
      else let '(w, r) := read_word rest in (String c w, r)
  | EmptyString => (EmptyString, EmptyString)
  end.

Definition extract (s : string) : option (string * string) :=
  match skip_space s with
  | EmptyString => None
  | s1 => Some (read_word s1)
  end.

(** The loop [while (iss >> arg) args.push_back(arg)]: every round takes
    at least one character, so the length of the string is enough rounds. *)
Fixpoint parse_loop (fuel : nat) (s : string) (args : list string) : list string :=
  match fuel with
  | O => args
  | S fuel' =>
      match extract s with
      | Some (arg, rest) => parse_loop fuel' rest (args ++ [arg])
      | None => args
      end
  end.

Definition parse_command (command_str : string) : list string :=
  parse_loop (String.length command_str) command_str [].

Section CommandHandler.
Variable hash : string -> nat.
(** [std::stod]; [None] when it throws. *)
Variable stod : string -> option float.

Definition arg (args : list string) (i : nat) : string := default "" (args !! i).

Definition cmd_get (args : list string) (st : StorageEngine.t) : CommandResponse :=
  if bool_decide (length args ≠ 2%nat) then
    create_error "ERR wrong number of arguments for 'get' command"
  else
    match StorageEngine.get hash st (arg args 1) with
    | Some v => create_string v
    | None => create_nil
    end.

Definition cmd_ttl (args : list string) (st : StorageEngine.t) : CommandResponse :=
  if bool_decide (length args ≠ 2%nat) then
    create_error "ERR wrong number of arguments for 'ttl' command"
  else
    let k := arg args 1 in
    if negb (StorageEngine.exists_ hash st k) then create_integer (-2)
    else
      match StorageEngine.ttl hash st k with
      | None => create_integer (-1)
      | Some secs => create_integer secs
      end.

(** The loop of [cmd_zadd] over the (score, member) pairs. A score that
    [stod] refuses ends the command at once; the pairs before it stay
    added. *)
Fixpoint cmd_zadd_loop (pairs : list string) (k : string) (added : Z)
    (st : StorageEngine.t) : CommandResponse * StorageEngine.t :=
  match pairs with
  | score_arg :: member :: rest =>
      match stod score_arg with
      | Some score =>
          let '(r, st') := StorageEngine.zadd hash st k member score in
          cmd_zadd_loop rest k (if r then added + 1 else added) st'
      | None => (create_error "ERR value is not a valid float", st)
      end
  | _ => (create_integer added, st)
  end.

Definition cmd_zadd (args : list string) (st : StorageEngine.t)
    : CommandResponse * StorageEngine.t :=
  if bool_decide (length args < 4)%nat || negb (Nat.even (length args)) then
    (create_error "ERR wrong number of arguments for 'zadd' command", st)
  else cmd_zadd_loop (drop 2 args) (arg args 1) 0 st.

Definition cmd_zcard (args : list string) (st : StorageEngine.t) : CommandResponse :=
  if bool_decide (length args ≠ 2%nat) then
    create_error "ERR wrong number of arguments for 'zcard' command"
  else create_integer (StorageEngine.zcard hash st (arg args 1)).

(** The loop of [cmd_del] over the keys. The counter is an [int] that
    counts at most the keys: it is the number here as long as there are
    less than [2^31] keys. *)
Fixpoint cmd_del_loop (keys : list string) (deleted : Z) (st : StorageEngine.t)
    : Z * StorageEngine.t :=
  match keys with
  | [] => (deleted, st)
  | k :: rest =>
      let '(r, st') := StorageEngine.del hash st k in
      cmd_del_loop rest (if r then deleted + 1 else deleted) st'
  end.

Definition cmd_del (args : list string) (st : StorageEngine.t)
    : CommandResponse * StorageEngine.t :=
  if bool_decide (length args < 2)%nat then
    (create_error "ERR wrong number of arguments for 'del' command", st)
  else
    let '(deleted, st') := cmd_del_loop (drop 1 args) 0 st in
    (create_integer deleted, st').

End CommandHandler.
End CommandHandler.

(** * Instances for concrete runs *)

(** A hash function to run the table with: the length of the key. Keys of
    equal length share a bucket, so chains are exercised. *)
Definition hash_length (k : string) : nat := String.length k.

(** The fragment of [std::stod] the runs use: an optional sign, then
    [nan], [inf] (in any case) or decimal digits with an optional
    fraction; anything else throws. The quotient is the correctly rounded
    value for literals of at most 15 digits. *)
Module Stod.

Definition lower (c : Ascii.ascii) : Ascii.ascii :=
  let n := Ascii.nat_of_ascii c in
  if bool_decide (65 ≤ n ≤ 90)%nat then Ascii.ascii_of_nat (n + 32) else c.

Definition digit (c : Ascii.ascii) : option Z :=
  let n := Ascii.nat_of_ascii c in
  if bool_decide (48 ≤ n ≤ 57)%nat then Some (Z.of_nat (n - 48)) else None.

Fixpoint digits (l : list Ascii.ascii) (acc : Z) (count : nat)
    : Z * nat * list Ascii.ascii :=
  match l with
  | c :: rest =>
      match digit c with
      | Some d => digits rest (10 * acc + d) (S count)
      | None => (acc, count, l)
      end
  | [] => (acc, count, l)
  end.

Definition of_Z (n : Z) : float := PrimFloat.of_uint63 (Uint63.of_Z n).

Definition is_char (c : Ascii.ascii) (code : nat) : bool :=
  bool_decide (Ascii.nat_of_ascii c = code).

Definition magnitude (l : list Ascii.ascii) : option float :=
  let low := lower <$> take 3 l in
  if bool_decide (low = String.list_ascii_of_string "nan") then Some nan
  else if bool_decide (low = String.list_ascii_of_string "inf") then Some infinity
  else
    let '(ip, n1, rest) := digits l 0 0 in
    let '(num, n2, _) :=
      match rest with
      | c :: frac => if is_char c 46 then digits frac ip 0 else (ip, 0%nat, rest)
      | [] => (ip, 0%nat, rest)
      end in
    if bool_decide (n1 + n2 = 0)%nat then None
    else Some (of_Z num / of_Z (10 ^ Z.of_nat n2))%float.

Definition stod (s : string) : option float :=
  match String.list_ascii_of_string s with
  | c :: l =>
      if is_char c 45 then PrimFloat.opp <$> magnitude l
      else if is_char c 43 then magnitude l
      else magnitude (c :: l)
  | [] => None
  end.

End Stod.

(** * Invariants of the AVL tree *)
Module AVLInv.
Import AVLTree.
Section AVLInv.
Context {K V : Type}.
Variable ltb : K -> K -> bool.

Definition keys (n : Node K V) : list K := (inorder_traversal n).*1.

(** Number of nodes. *)
Fixpoint count (n : Node K V) : nat :=
  match n with
  | null => 0
  | node _ _ _ l r => S (count l + count r)
  end.

(** Binary-search-tree ordering at every node. *)
Fixpoint bst (n : Node K V) : Prop :=
  match n with
  | null => True
  | node k _ _ l r =>
      bst l /\ bst r
      /\ Forall (fun x => ltb x k = true) (keys l)
      /\ Forall (fun x => ltb k x = true) (keys r)
  end.

(** Recorded heights are right and every balance factor is -1, 0 or 1. *)
Fixpoint avl (n : Node K V) : Prop :=
  match n with
  | null => True
  | node _ _ h l r =>
      avl l /\ avl r
      /\ h = 1 + Z.max (height l) (height r)
      /\ -1 <= balance_factor n <= 1
  end.

Definition invariant (tr : AVLTree.t K V) : Prop :=
  bst (root_ tr) /\ avl (root_ tr)
  /\ size tr = Z.of_nat (count (root_ tr)) mod size_max.

End AVLInv.
End AVLInv.


(** Sequences of operations on the score tree of a sorted set, an
    [AVLTree<double, std::string>]. *)
Module ScoreTree.

Inductive op : Type :=
| Insert (key : float) (value : string)
| Remove (key : float).

Definition apply_op (tr : AVLTree.t float string) (o : op) : AVLTree.t float string :=
  match o with
  | Insert k v => AVLTree.insert double_lt tr k v
  | Remove k => (AVLTree.remove double_lt tr k).2
  end.

Definition run (ops : list op) : AVLTree.t float string :=
  foldl apply_op AVLTree.empty_tree ops.

End ScoreTree.

(** * Invariants of the TTL heap *)
Module HeapInv.
Import TTLHeap.

Definition parent (i : nat) : nat := (i - 1) / 2.

(** Heap order: [heap[(i-1)/2].expiry <= heap[i].expiry] for every [i > 0]. *)
Definition heap_order (arr : list TTLEntry) : Prop :=
  forall i e p, (0 < i)%nat ->
    arr !! i = Some e -> arr !! parent i = Some p -> expiry p <= expiry e.

(** [key_to_index_] maps exactly the keys stored in the heap, each to the
    index it is stored at. *)
Definition pos_bijection (h : t) : Prop :=
  forall k i, key_to_index_ h !! k = Some i
    <-> exists e, heap_ h !! i = Some e /\ key e = k.

Definition invariant (h : t) : Prop :=
  heap_order (heap_ h) /\ pos_bijection h.

(** [c] is a child slot of [i]. *)
Definition is_child (i c : nat) : Prop := c = (2 * i + 1)%nat \/ c = (2 * i + 2)%nat.

(** Heap order, read from the parent to its children. *)
Definition ordered (arr : list TTLEntry) : Prop :=
  forall i c e ec, is_child i c ->
    arr !! i = Some e -> arr !! c = Some ec -> expiry e <= expiry ec.

(** What [heapify_down] needs at [i]: order everywhere except between
    [i] and its children, and the parent of [i] below the children of [i]. *)
Definition down_ok (arr : list TTLEntry) (i : nat) : Prop :=
  (forall p c ep ec, is_child p c -> p <> i ->
     arr !! p = Some ep -> arr !! c = Some ec -> expiry ep <= expiry ec)
  /\ (forall g c eg ec, is_child g i -> is_child i c ->
        arr !! g = Some eg -> arr !! c = Some ec -> expiry eg <= expiry ec).

(** Executable checks of the two parts, for concrete heaps. *)
Definition heap_order_check (arr : list TTLEntry) : bool :=
  forallb (fun i =>
    match arr !! i, arr !! parent i with
    | Some e, Some p => expiry p <=? expiry e
    | _, _ => true
    end) (seq 1 (length arr - 1)).

Definition pos_bijection_check (h : t) : bool :=
  bool_decide (key_to_index_ h = list_to_map (imap (fun i e => (key e, i)) (heap_ h)))
  && bool_decide (NoDup (key <$> heap_ h)).

End HeapInv.

(** * The sorted-set invariant R1 *)
(** [member_scores_] holds [m] with score [s] exactly when the tree holds
    the entry with score [s] and member [m]. *)
Definition R1 (zs : SortedSet.t) : Prop :=
  forall m s, SortedSet.member_scores_ zs !! m = Some s
    <-> (s, m) ∈ AVLTree.get_all (SortedSet.score_tree_ zs).

(** * Concrete runs *)
Module Runs.

(** Two members added with the same score. *)
Definition tied : SortedSet.t :=
  (SortedSet.add (SortedSet.add SortedSet.new "a" 1%float).2 "b" 1%float).2.

(** Seven keys scheduled one after the other. *)
Definition seven : TTLHeap.t :=
  foldl (fun h p => TTLHeap.add h p.1 p.2) TTLHeap.new
    [("a", 1); ("b", 10); ("c", 2); ("d", 11); ("e", 12); ("f", 3); ("g", 4)].

Definition engine : Type := StorageEngine.t.
Definition fresh : engine := StorageEngine.new.

(** [SET k v]. *)
Definition with_string : engine := (StorageEngine.set hash_length fresh "k" "v").2.

(** [SET k v EX 1] at instant 0, then [SET k w]. *)
Definition set_after_setex : engine :=
  (StorageEngine.set hash_length
     (StorageEngine.set_ex hash_length fresh "k" "v" 1 0 0).2 "k" "w").2.

(** [SET k v EX 1] at instant 0. *)
Definition with_expiry : engine :=
  (StorageEngine.set_ex hash_length fresh "k" "v" 1 0 0).2.

(** [ZADD s 1 a 2 b 3 c]. *)
Definition with_zset : engine :=
  (CommandHandler.cmd_zadd hash_length Stod.stod
     ["zadd"; "s"; "1"; "a"; "2"; "b"; "3"; "c"] fresh).2.

(** The sorted set behind the key [s] of [with_zset]. *)
Definition zset_s : SortedSet.t :=
  default SortedSet.new (StorageEngine.sorted_sets_ with_zset !! 0%nat).

End Runs.

(** * Invariants of the hash table *)
Module HashInv.
Import HashTable.
Section HashInv.
Variable hash : string -> nat.

(** All entries of the table, bucket after bucket. *)
Definition entries (tb : t) : list Entry := mjoin (buckets_ tb).

(** Every entry sits in the bucket of its hash, no key is stored twice,
    and [size_] counts the entries. *)
Definition wf (tb : t) : Prop :=
  length (buckets_ tb) = bucket_count_ tb
  /\ (0 < bucket_count_ tb)%nat
  /\ (forall i b e, buckets_ tb !! i = Some b -> e ∈ b ->
        (hash (key e) mod bucket_count_ tb)%nat = i)
  /\ NoDup (key <$> entries tb)
  /\ size_ tb = Z.of_nat (length (entries tb)) mod size_max.

(** The same, as a check to run on a concrete table. *)
Definition wf_check (tb : t) : bool :=
  bool_decide (length (buckets_ tb) = bucket_count_ tb)
  && bool_decide (0 < bucket_count_ tb)%nat
  && forallb (fun ib : nat * list Entry =>
       forallb (fun e => bool_decide ((hash (key e) mod bucket_count_ tb)%nat = ib.1)) ib.2)
       (imap pair (buckets_ tb))
  && bool_decide (NoDup (key <$> entries tb))
  && bool_decide (size_ tb = Z.of_nat (length (entries tb)) mod size_max).

End HashInv.
End HashInv.

(** * Engine states reachable by commands *)
Module Trace.

(** The writes of the engine, and a pass of the expiry thread, each run
    as a whole, one after another. The clock readings of a command are part
    of it. *)
Inductive command : Type :=
| Set_ (k v : string)
| SetNx (k v : string)
| SetEx (k v : string) (ttl now1 now2 : Z)
| Del (k : string)
| Expire (k : string) (ttl now1 now2 : Z)
| Zadd (k member : string) (score : float)
| Zrem (k member : string)
| Flushdb
| ExpiryPass (now : Z).

Definition step (hash : string -> nat) (st : StorageEngine.t) (c : command)
    : StorageEngine.t :=
  match c with
  | Set_ k v => (StorageEngine.set hash st k v).2
  | SetNx k v => (StorageEngine.set_nx hash st k v).2
  | SetEx k v ttl now1 now2 => (StorageEngine.set_ex hash st k v ttl now1 now2).2
  | Del k => (StorageEngine.del hash st k).2
  | Expire k ttl now1 now2 => (StorageEngine.expire hash st k ttl now1 now2).2
  | Zadd k m score => (StorageEngine.zadd hash st k m score).2
  | Zrem k m => (StorageEngine.zrem hash st k m).2
  | Flushdb => StorageEngine.flushdb st
  | ExpiryPass now => StorageEngine.process_expired_keys hash st now
  end.

Definition run (hash : string -> nat) (cmds : list command) : StorageEngine.t :=
  foldl (step hash) StorageEngine.new cmds.

End Trace.

(** * Keys and scores in the order of the tree *)
Module AVLOrder.
Section AVLOrder.
Context {K : Type}.
Variable ltb : K -> K -> bool.

(** Two keys the tree cannot tell apart: neither is below the other. *)
Definition eqv (a b : K) : Prop := ltb a b = false /\ ltb b a = false.

(** [key] sits in the order like the keys it is equivalent to. *)
Definition compat (key : K) : Prop :=
  (forall x y, ltb x y = true -> eqv y key -> ltb x key = true)
  /\ (forall x y, ltb y x = true -> eqv y key -> ltb key x = true).

End AVLOrder.
End AVLOrder.

(** A [double] that is not NaN: it is equal to itself. *)
Definition not_nan (x : float) : Prop := double_eq x x = true.

(** * The invariant of a sorted set *)
Module SortedSetInv.

(** R1, the invariant of the tree, and no NaN among the scores. *)
Definition invariant (zs : SortedSet.t) : Prop :=
  R1 zs
  /\ AVLInv.invariant double_lt (SortedSet.score_tree_ zs)
  /\ map_Forall (fun _ s => not_nan s) (SortedSet.member_scores_ zs).

(** [score] is a number that no other member of [zs] has. *)
Definition fresh_score (zs : SortedSet.t) (member : string) (score : float) : Prop :=
  not_nan score
  /\ map_Forall (fun m s => m <> member -> double_eq s score = false)
       (SortedSet.member_scores_ zs).

End SortedSetInv.

(** * The TTL heap around one slot *)
Module HeapShape.
Import TTLHeap HeapInv.

(** What [heapify_up] needs at [i]: order everywhere except between [i]
    and its parent, and the parent of [i] below the children of [i]. *)
Definition up_ok (arr : list TTLEntry) (i : nat) : Prop :=
  (forall p c ep ec, is_child p c -> c <> i ->
     arr !! p = Some ep -> arr !! c = Some ec -> expiry ep <= expiry ec)
  /\ (forall g c eg ec, is_child g i -> is_child i c ->
        arr !! g = Some eg -> arr !! c = Some ec -> expiry eg <= expiry ec).

(** The heap after the expiry of slot [i] was overwritten: order between
    the other slots, and the parent of [i] below the children of [i]. *)
Definition hole (arr : list TTLEntry) (i : nat) : Prop :=
  (forall p c ep ec, is_child p c -> p <> i -> c <> i ->
     arr !! p = Some ep -> arr !! c = Some ec -> expiry ep <= expiry ec)
  /\ (forall g c eg ec, is_child g i -> is_child i c ->
        arr !! g = Some eg -> arr !! c = Some ec -> expiry eg <= expiry ec).

End HeapShape.

(** * Invariants of the engine *)
Module EngineInv.
Section EngineInv.
Variable hash : string -> nat.

(** Every sorted-set value of the table points to a set of the store. *)
Definition ptr_valid (st : StorageEngine.t) : Prop :=
  forall e, e ∈ HashInv.entries (StorageEngine.hash_table_ st) ->
    is_sorted_set (value e) = true ->
    exists p, sorted_set_ptr_ (value e) = Some p
      /\ is_Some (StorageEngine.sorted_sets_ st !! p).

(** Every key scheduled in the heap is a key of the table. *)
Definition scheduled_exist (st : StorageEngine.t) : Prop :=
  forall k, is_Some (TTLHeap.key_to_index_ (StorageEngine.ttl_heap_ st) !! k) ->
    is_Some (HashTable.get hash (StorageEngine.hash_table_ st) k).

(** The table is well formed, the index of the heap is in step with the
    heap, the pointers of the table are valid, and the scheduled keys
    exist. *)
Definition invariant (st : StorageEngine.t) : Prop :=
  HashInv.wf hash (StorageEngine.hash_table_ st)
  /\ HeapInv.pos_bijection (StorageEngine.ttl_heap_ st)
  /\ ptr_valid st
  /\ scheduled_exist st.

(** What holds of the shared objects whatever the two threads do: the
    table is well formed, the index of the heap is in step with the heap,
    and the pointers of the table are valid. *)
Definition consistent (st : StorageEngine.t) : Prop :=
  HashInv.wf hash (StorageEngine.hash_table_ st)
  /\ HeapInv.pos_bijection (StorageEngine.ttl_heap_ st)
  /\ ptr_valid st.

End EngineInv.
End EngineInv.

(** * The calls of the two threads *)
Module Calls.

(** The event thread serves the commands one after another and the expiry
    thread runs beside it. The engine has no lock of its own: what is
    atomic is one call to the hash table or to the heap, under the mutex of
    that object; the sorted sets are reached from the event thread only. A
    run of the engine is a sequence of such calls, those of the commands in
    their order and those of the expiry passes anywhere in between. These
    are the calls that write; [get], [exists], [size] and [next_expiry]
    leave the objects as they are. *)
Inductive call : Type :=
| HashSet (k v : string)
| HashSetWithExpiry (k v : string) (ttl now : Z)
| HashDel (k : string)
| HashExpire (k : string) (ttl now : Z)
| HashClear
| HeapAdd (k : string) (expiry : Z)
| HeapRemove (k : string)
| HeapClear
| HeapGetExpiredKeys (now : Z)
| NewSortedSet (k : string)
| ZsetAdd (ptr : nat) (member : string) (score : float)
| ZsetRemove (ptr : nat) (member : string).

Section Calls.
Variable hash : string -> nat.

Definition step (st : StorageEngine.t) (c : call) : StorageEngine.t :=
  match c with
  | HashSet k v =>
      StorageEngine.with_table st
        (HashTable.set hash (StorageEngine.hash_table_ st) k (Value_of_string v)).2
  | HashSetWithExpiry k v ttl now =>
      StorageEngine.with_table st
        (HashTable.set_with_expiry hash (StorageEngine.hash_table_ st) k
           (Value_of_string v) ttl now).2
  | HashDel k =>
      StorageEngine.with_table st (HashTable.del hash (StorageEngine.hash_table_ st) k).2
  | HashExpire k ttl now =>
      StorageEngine.with_table st
        (HashTable.expire hash (StorageEngine.hash_table_ st) k ttl now).2
  | HashClear =>
      StorageEngine.with_table st (HashTable.clear (StorageEngine.hash_table_ st))
  | HeapAdd k expiry =>
      StorageEngine.with_heap st (TTLHeap.add (StorageEngine.ttl_heap_ st) k expiry)
  | HeapRemove k =>
      StorageEngine.with_heap st (TTLHeap.remove (StorageEngine.ttl_heap_ st) k)
  | HeapClear =>
      StorageEngine.with_heap st (TTLHeap.clear (StorageEngine.ttl_heap_ st))
  | HeapGetExpiredKeys now =>
      StorageEngine.with_heap st
        (TTLHeap.get_expired_keys now (StorageEngine.ttl_heap_ st)).2
  | NewSortedSet k =>
      (* [new SortedSet()], [value.set_sorted_set_ptr(zset)],
         [hash_table_.set(key, value)] in [get_sorted_set] *)
      let zset := map_size (StorageEngine.sorted_sets_ st) in
      let v := set_sorted_set_ptr Value_default zset in
      {| StorageEngine.hash_table_ :=
           (HashTable.set hash (StorageEngine.hash_table_ st) k v).2;
         StorageEngine.ttl_heap_ := StorageEngine.ttl_heap_ st;
         StorageEngine.sorted_sets_ :=
           <[zset := SortedSet.new]> (StorageEngine.sorted_sets_ st) |}
  | ZsetAdd ptr member score =>
      match StorageEngine.sorted_sets_ st !! ptr with
      | Some zs => StorageEngine.with_zset st ptr (SortedSet.add zs member score).2
      | None => st
      end
  | ZsetRemove ptr member =>
      match StorageEngine.sorted_sets_ st !! ptr with
      | Some zs => StorageEngine.with_zset st ptr (SortedSet.remove zs member).2
      | None => st
      end
  end.

Definition exec (st : StorageEngine.t) (calls : list call) : StorageEngine.t :=
  foldl step st calls.

(** The states the engine reaches: any sequence of calls from the start. *)
Definition run (calls : list call) : StorageEngine.t := exec StorageEngine.new calls.

(** The writing calls a sorted-set command makes once [get_sorted_set] has
    looked the key up. *)
Definition zset_calls (st : StorageEngine.t) (k : string) (create_if_missing : bool)
    (op : nat -> call) : list call :=
  match HashTable.get hash (StorageEngine.hash_table_ st) k with
  | Some v =>
      if is_sorted_set v then
        match get_sorted_set_ptr v with
        | Some ptr => [op ptr]
        | None => []
        end
      else []
  | None =>
      if create_if_missing then
        [NewSortedSet k; op (map_size (StorageEngine.sorted_sets_ st))]
      else []
  end.

(** The writing calls of a command of the engine, or of an expiry pass,
    when it runs from [st] with no call of the other thread in between. *)
Definition of_command (st : StorageEngine.t) (c : Trace.command) : list call :=
  match c with
  | Trace.Set_ k v => [HashSet k v]
  | Trace.SetNx k v =>
      if HashTable.exists_ hash (StorageEngine.hash_table_ st) k then []
      else [HashSet k v]
  | Trace.SetEx k v ttl now1 now2 =>
      HashSetWithExpiry k v ttl now1
      :: (if (HashTable.set_with_expiry hash (StorageEngine.hash_table_ st) k
                (Value_of_string v) ttl now1).1
          then [HeapAdd k (after now2 ttl)] else [])
  | Trace.Del k =>
      HashDel k
      :: (if (HashTable.del hash (StorageEngine.hash_table_ st) k).1
          then [HeapRemove k] else [])
  | Trace.Expire k ttl now1 now2 =>
      if negb (HashTable.exists_ hash (StorageEngine.hash_table_ st) k) then []
      else
        HashExpire k ttl now1
        :: (if (HashTable.expire hash (StorageEngine.hash_table_ st) k ttl now1).1
            then [HeapAdd k (after now2 ttl)] else [])
  | Trace.Zadd k member score =>
      zset_calls st k true (fun ptr => ZsetAdd ptr member score)
  | Trace.Zrem k member =>
      zset_calls st k false (fun ptr => ZsetRemove ptr member)
  | Trace.Flushdb => [HashClear; HeapClear]
  | Trace.ExpiryPass now =>
      HeapGetExpiredKeys now
      :: (HashDel <$> (TTLHeap.get_expired_keys now (StorageEngine.ttl_heap_ st)).1)
  end.

End Calls.
End Calls.

(** * Deadlines in the range of the clock *)

(** A time point of the steady clock is a signed 64-bit count of
    nanoseconds: [now + ttl] is computed by taking the seconds of [ttl] to
    nanoseconds and adding them to [now], and both results have to fit. *)
Definition int64_range (z : Z) : Prop := - 2 ^ 63 <= z < 2 ^ 63.

Definition deadline_fits (now ttl : Z) : Prop :=
  int64_range now
  /\ int64_range (ttl * ticks_per_second)
  /\ int64_range (after now ttl).

(** * The load of the table *)
Module LoadInv.



End LoadInv.

(** * Words of a command line *)
Module Words.

Fixpoint no_space (s : string) : bool :=
  match s with
  | String c rest => negb (CommandHandler.isspace c) && no_space rest
  | EmptyString => true
  end.

(** A word: not empty, and without white space. *)
Definition is_word (w : string) : Prop := w <> EmptyString /\ no_space w = true.

End Words.

(** * Samples *)
Module Samples.

(** Three insertions into the score tree. *)
Definition tree_ops : list ScoreTree.op :=
  [ScoreTree.Insert 2%float "b"; ScoreTree.Insert 1%float "a"; ScoreTree.Insert 3%float "c"].

(** The sorted set with [a], [b] and [c] under the scores 1, 2 and 3. *)
Definition abc : SortedSet.t :=
  (SortedSet.add
     (SortedSet.add (SortedSet.add SortedSet.new "a" 1%float).2 "b" 2%float).2
     "c" 3%float).2.

(** A table of two buckets after two insertions: the second one made it
    grow to four buckets. *)
Definition small_table : HashTable.t :=
  (HashTable.set hash_length
     (HashTable.set hash_length (HashTable.new 2) "a" (Value_of_string "1")).2
     "bb" (Value_of_string "2")).2.

End Samples.

(** * The order of [double] *)
(** IEEE [<] is irreflexive and transitive on all values, NaN included. *)
Lemma SFltb_irrefl (x : spec_float) : SFltb x x = false.
Proof.
  unfold SFltb, SFcompare.
  destruct x as [[]|[]| |[] m e]; try reflexivity.
  all: rewrite Z.compare_refl; change (Pos.compare_cont Eq m m) with (Pos.compare m m);
    rewrite Pos.compare_refl; reflexivity.
Qed.

Lemma SFltb_trans (x y z : spec_float) :
  SFltb x y = true -> SFltb y z = true -> SFltb x z = true.
Proof.
  unfold SFltb, SFcompare.
  destruct x as [[]|[]| |[] m1 e1], y as [[]|[]| |[] m2 e2], z as [[]|[]| |[] m3 e3];
    try reflexivity; try discriminate.
  all: change (Pos.compare_cont Eq) with Pos.compare.
  all: destruct (Z.compare_spec e1 e2), (Z.compare_spec e2 e3); try discriminate;
       destruct (Z.compare_spec e1 e3); try lia; try reflexivity; subst.
  all: destruct (Pos.compare_spec m1 m2), (Pos.compare_spec m2 m3); try discriminate;
       destruct (Pos.compare_spec m1 m3); try lia; try reflexivity; subst.
Qed.

Lemma double_lt_irrefl (x : float) : double_lt x x = false.
Proof. unfold double_lt. rewrite ltb_spec. apply SFltb_irrefl. Qed.

Lemma double_lt_trans (x y z : float) :
  double_lt x y = true -> double_lt y z = true -> double_lt x z = true.
Proof. unfold double_lt. rewrite !ltb_spec. apply SFltb_trans. Qed.

(** * The AVL tree keeps its invariants *)
Module AVLProofs.
Import AVLTree AVLInv.
Section AVLProofs.
Context {K V : Type}.
Variable ltb : K -> K -> bool.
Hypothesis ltb_irrefl : forall x, ltb x x = false.
Hypothesis ltb_trans : forall x y z, ltb x y = true -> ltb y z = true -> ltb x z = true.

Abbreviation Node := (AVLTree.Node K V).
Implicit Types n l r : Node.

Lemma avl_height_nonneg n : avl n -> 0 <= height n.
Proof.
  induction n as [|k v h l IHl r IHr]; simpl; [lia|].
  intros (Hl & Hr & -> & _). specialize (IHl Hl). lia.
Qed.

Lemma avl_node_height k v h l r : avl (node k v h l r) -> 1 <= h.
Proof.
  simpl. intros (Hl & Hr & -> & _).
  pose proof (avl_height_nonneg _ Hl). lia.
Qed.

Ltac ltb_cases :=
  repeat match goal with
  | |- context [ ?a <? ?b ] => destruct (Z.ltb_spec a b)
  end.

Lemma balance_unfold k v h l r :
  balance (node k v h l r) =
    let h' := 1 + Z.max (height l) (height r) in
    if 1 <? height l - height r then
      rotate_right (node k v h' (if balance_factor l <? 0 then rotate_left l else l) r)
    else if height l - height r <? -1 then
      rotate_left (node k v h' l (if 0 <? balance_factor r then rotate_right r else r))
    else node k v h' l r.
Proof. reflexivity. Qed.

Lemma balance_inorder n : inorder_traversal (balance n) = inorder_traversal n.
Proof.
  destruct n as [|k v h l r]; [done|].
  rewrite balance_unfold. cbv zeta.
  destruct (1 <? height l - height r).
  - destruct (balance_factor l <? 0).
    + destruct l as [|lk lv lh ll [|lrk lrv lrh lrl lrr]]; simpl; try done;
      repeat (rewrite <- ?app_assoc; simpl); done.
    + destruct l as [|lk lv lh ll lr]; simpl; try done.
      repeat (rewrite <- ?app_assoc; simpl); done.
  - destruct (height l - height r <? -1); [|done].
    destruct (0 <? balance_factor r).
    + destruct r as [|rk rv rh [|rlk rlv rlh rll rlr] rr]; simpl; try done;
      repeat (rewrite <- ?app_assoc; simpl); done.
    + destruct r as [|rk rv rh rl rr]; simpl; try done.
      repeat (rewrite <- ?app_assoc; simpl); done.
Qed.

Lemma balance_avl k v h l r :
  avl l -> avl r -> -2 <= height l - height r <= 2 ->
  avl (balance (node k v h l r))
  /\ (height (balance (node k v h l r)) = 1 + Z.max (height l) (height r)
      \/ ((height l - height r = 2 \/ height l - height r = -2)
          /\ height (balance (node k v h l r)) = Z.max (height l) (height r))).
Proof.
  intros Hl Hr Hd.
  pose proof (avl_height_nonneg _ Hl) as Hl0. pose proof (avl_height_nonneg _ Hr) as Hr0.
  rewrite balance_unfold. cbv zeta.
  destruct (Z.ltb_spec 1 (height l - height r)).
  - destruct l as [|lk lv lh ll lr]; [simpl in *; lia|].
    simpl in Hl. destruct Hl as (Hll & Hlr & Hlh & Hlb). simpl in Hlb.
    pose proof (avl_height_nonneg _ Hll). pose proof (avl_height_nonneg _ Hlr).
    simpl in Hd, H. simpl balance_factor.
    destruct (Z.ltb_spec (height ll - height lr) 0).
    + destruct lr as [|lrk lrv lrh lrl lrr]; [simpl in *; lia|].
      simpl in Hlr. destruct Hlr as (Hlrl & Hlrr & Hlrh & Hlrb). simpl in Hlrb.
      pose proof (avl_height_nonneg _ Hlrl). pose proof (avl_height_nonneg _ Hlrr).
      simpl in *. repeat split; try done; lia.
    + simpl in *. repeat split; try done; lia.
  - destruct (Z.ltb_spec (height l - height r) (-1)).
    + destruct r as [|rk rv rh rl rr]; [simpl in *; lia|].
      simpl in Hr. destruct Hr as (Hrl & Hrr & Hrh & Hrb). simpl in Hrb.
      pose proof (avl_height_nonneg _ Hrl). pose proof (avl_height_nonneg _ Hrr).
      simpl in Hd, H0. simpl balance_factor.
      destruct (Z.ltb_spec 0 (height rl - height rr)).
      * destruct rl as [|rlk rlv rlh rll rlr]; [simpl in *; lia|].
        simpl in Hrl. destruct Hrl as (Hrll & Hrlr & Hrlh & Hrlb). simpl in Hrlb.
        pose proof (avl_height_nonneg _ Hrll). pose proof (avl_height_nonneg _ Hrlr).
        simpl in *. repeat split; try done; lia.
      * simpl in *. repeat split; try done; lia.
    + simpl. repeat split; try done; lia.
Qed.

Lemma insert_node_avl n key value s :
  avl n ->
  avl (insert_node ltb n key value s).1
  /\ (height (insert_node ltb n key value s).1 = height n
      \/ height (insert_node ltb n key value s).1 = height n + 1).
Proof.
  induction n as [|k v h l IHl r IHr]; intros Hn.
  - simpl. split; [repeat split; lia | lia].
  - pose proof Hn as (Hl & Hr & Hh & Hb). simpl in Hb.
    simpl. destruct (ltb key k).
    + destruct (insert_node ltb l key value s) as [l' s'] eqn:E.
      specialize (IHl Hl). simpl in IHl |- *. destruct IHl as [Hl' Hhl'].
      destruct (balance_avl k v h l' r Hl' Hr) as [? ?]; [lia|].
      split; [done|]. lia.
    + destruct (ltb k key).
      * destruct (insert_node ltb r key value s) as [r' s'] eqn:E.
        specialize (IHr Hr). simpl in IHr |- *. destruct IHr as [Hr' Hhr'].
        destruct (balance_avl k v h l r' Hl Hr') as [? ?]; [lia|].
        split; [done|]. lia.
      * simpl. split; [done | lia].
Qed.

Lemma remove_node_avl n key s :
  avl n ->
  avl (remove_node ltb n key s).1
  /\ (height (remove_node ltb n key s).1 = height n
      \/ height (remove_node ltb n key s).1 = height n - 1).
Proof.
  revert key. induction n as [|k v h l IHl r IHr]; intros key Hn.
  - simpl. split; [done | lia].
  - pose proof Hn as (Hl & Hr & Hh & Hb). simpl in Hb.
    pose proof (avl_height_nonneg _ Hl) as Hl0. pose proof (avl_height_nonneg _ Hr) as Hr0.
    simpl. destruct (ltb key k).
    + destruct (remove_node ltb l key s) as [l' s'] eqn:E.
      specialize (IHl key Hl). rewrite E in IHl. simpl in IHl |- *. destruct IHl as [Hl' Hhl'].
      destruct (balance_avl k v h l' r Hl' Hr) as [? ?]; [lia|].
      split; [done|]. lia.
    + destruct (ltb k key).
      * destruct (remove_node ltb r key s) as [r' s'] eqn:E.
        specialize (IHr key Hr). rewrite E in IHr. simpl in IHr |- *. destruct IHr as [Hr' Hhr'].
        destruct (balance_avl k v h l r' Hl Hr') as [? ?]; [lia|].
        split; [done|]. lia.
      * destruct l as [|lk lv lh ll lr], r as [|rk rv rh rl rr].
        -- simpl in *. split; [done | lia].
        -- simpl fst. split; [done|]. simpl in *. lia.
        -- simpl fst. split; [done|]. simpl in *. lia.
        -- destruct (find_min (node rk rv rh rl rr)) as [[sk sv]|] eqn:Em.
           ++ destruct (remove_node ltb (node rk rv rh rl rr) sk s) as [r' s'] eqn:E.
              specialize (IHr sk Hr). rewrite E in IHr. simpl fst in IHr |- *.
              destruct IHr as [Hr' Hhr'].
              destruct (balance_avl sk sv h _ r' Hl Hr') as [? ?];
                [cbn [height] in *; lia|].
              split; [done|]. cbn [height] in *. lia.
           ++ simpl fst. split; [done | by left].
Qed.

(** Keys: the in-order list and the ordering. *)
Lemma keys_node k v h l r : keys (node k v h l r) = keys l ++ k :: keys r.
Proof. unfold keys. simpl. by rewrite fmap_app. Qed.

Lemma balance_keys n : keys (balance n) = keys n.
Proof. unfold keys. by rewrite balance_inorder. Qed.

Lemma bst_sorted n :
  bst ltb n <-> StronglySorted (fun a b => ltb a b = true) (keys n).
Proof.
  induction n as [|k v h l IHl r IHr].
  - simpl. split; [constructor | done].
  - rewrite keys_node. simpl.
    rewrite StronglySorted_app, StronglySorted_cons, IHl, IHr, !Forall_forall.
    split.
    + intros (Hl & Hr & Hlk & Hkr). repeat split; try done.
      intros x1 x2 H1 [->|H2]%elem_of_cons; [by apply Hlk|].
      eapply ltb_trans; [by apply Hlk | by apply Hkr].
    + intros (Hx & Hl & Hkr & Hr). repeat split; try done.
      intros x Hxl. apply Hx; [done | by left].
Qed.

Lemma bst_balance n : bst ltb n -> bst ltb (balance n).
Proof. rewrite !bst_sorted, balance_keys. done. Qed.

Lemma insert_node_keys n key value s x :
  x ∈ keys (insert_node ltb n key value s).1 -> x = key \/ x ∈ keys n.
Proof.
  induction n as [|k v h l IHl r IHr]; simpl.
  - unfold keys. simpl. intros ->%list_elem_of_singleton. by left.
  - destruct (ltb key k).
    + destruct (insert_node ltb l key value s) as [l' s'] eqn:E. simpl in *.
      rewrite balance_keys, !keys_node, !elem_of_app, !elem_of_cons. intuition (subst; auto).
    + destruct (ltb k key).
      * destruct (insert_node ltb r key value s) as [r' s'] eqn:E. simpl in *.
        rewrite balance_keys, !keys_node, !elem_of_app, !elem_of_cons. intuition (subst; auto).
      * simpl. rewrite !keys_node. intuition (subst; auto).
Qed.

Lemma insert_node_bst n key value s :
  bst ltb n -> bst ltb (insert_node ltb n key value s).1.
Proof.
  induction n as [|k v h l IHl r IHr]; intros Hn.
  - simpl. repeat split; constructor.
  - destruct Hn as (Hl & Hr & Hlk & Hkr). simpl.
    destruct (ltb key k) eqn:E1.
    + pose proof (insert_node_keys l key value s) as Hk.
      destruct (insert_node ltb l key value s) as [l' s'] eqn:E. simpl in *.
      apply bst_balance. simpl. repeat split; auto.
      rewrite Forall_forall in *. intros x [->|Hx]%Hk; auto.
    + destruct (ltb k key) eqn:E2.
      * pose proof (insert_node_keys r key value s) as Hk.
        destruct (insert_node ltb r key value s) as [r' s'] eqn:E. simpl in *.
        apply bst_balance. simpl. repeat split; auto.
        rewrite Forall_forall in *. intros x [->|Hx]%Hk; auto.
      * simpl. done.
Qed.

Lemma inorder_nonempty k v h l r : inorder_traversal (node k v h l r) <> [].
Proof. simpl. by destruct (inorder_traversal l). Qed.

Lemma find_min_inorder n : find_min n = head (inorder_traversal n).
Proof.
  induction n as [|k v h l IHl r IHr]; [done|].
  destruct l as [|lk lv lh ll lr]; [done|].
  change (find_min (node k v h (node lk lv lh ll lr) r)) with (find_min (node lk lv lh ll lr)).
  rewrite IHl.
  pose proof (inorder_nonempty lk lv lh ll lr) as Hne.
  change (inorder_traversal (node k v h (node lk lv lh ll lr) r))
    with (inorder_traversal (node lk lv lh ll lr) ++ (k, v) :: inorder_traversal r).
  by destruct (inorder_traversal (node lk lv lh ll lr)).
Qed.

Lemma find_min_key n sk sv : find_min n = Some (sk, sv) -> sk ∈ keys n.
Proof.
  rewrite find_min_inorder. unfold keys.
  destruct (inorder_traversal n) as [|[k v] rest]; [done|].
  intros [= -> ->]. simpl. by left.
Qed.

Lemma find_min_node k v h l r :
  l <> null -> find_min (node k v h l r) = find_min l.
Proof. by destruct l. Qed.

Lemma inorder_nonnull n : n <> null -> inorder_traversal n <> [].
Proof. destruct n; [done|]. intros _. apply inorder_nonempty. Qed.

Lemma remove_min_inorder n sk sv s :
  bst ltb n -> find_min n = Some (sk, sv) ->
  inorder_traversal (remove_node ltb n sk s).1 = tail (inorder_traversal n).
Proof.
  induction n as [|k v h l IHl r IHr]; [done|].
  intros (Hl & Hr & Hlk & Hkr) Hm.
  assert (l = null \/ l <> null) as [->|Hnn] by (destruct l; [by left | by right]).
  - simpl in Hm. injection Hm as -> ->.
    simpl. rewrite ltb_irrefl. by destruct r.
  - rewrite find_min_node in Hm by done.
    assert (ltb sk k = true) as Hlt.
    { rewrite Forall_forall in Hlk. apply Hlk. by eapply find_min_key. }
    specialize (IHl Hl Hm).
    simpl. rewrite Hlt.
    destruct (remove_node ltb l sk s) as [l' s'] eqn:E. simpl in *.
    rewrite balance_inorder. simpl. rewrite IHl.
    pose proof (inorder_nonnull l Hnn).
    by destruct (inorder_traversal l).
Qed.

Lemma remove_node_keys n key s x :
  x ∈ keys (remove_node ltb n key s).1 -> x ∈ keys n.
Proof.
  revert key. induction n as [|k v h l IHl r IHr]; intros key; [done|].
  simpl. destruct (ltb key k).
  - specialize (IHl key).
    destruct (remove_node ltb l key s) as [l' s'] eqn:E. simpl in *.
    rewrite balance_keys, !keys_node, !elem_of_app, !elem_of_cons. intuition (subst; auto).
  - destruct (ltb k key).
    + specialize (IHr key).
      destruct (remove_node ltb r key s) as [r' s'] eqn:E. simpl in *.
      rewrite balance_keys, !keys_node, !elem_of_app, !elem_of_cons. intuition (subst; auto).
    + destruct l as [|lk lv lh ll lr] eqn:El, r as [|rk rv rh rl rr] eqn:Er.
      * by intros ?%elem_of_nil.
      * simpl fst. rewrite (keys_node k). rewrite elem_of_app, elem_of_cons. intuition (subst; auto).
      * simpl fst. rewrite (keys_node k). rewrite elem_of_app. intuition (subst; auto).
      * rewrite <- El, <- Er in *. clear El Er.
        destruct (find_min r) as [[sk sv]|] eqn:Em; [|by simpl].
        specialize (IHr sk). apply find_min_key in Em.
        destruct (remove_node ltb r sk s) as [r' s'] eqn:E. simpl in *.
        rewrite balance_keys, !keys_node, !elem_of_app, !elem_of_cons. intuition (subst; auto).
Qed.

Lemma remove_node_bst n key s :
  bst ltb n -> bst ltb (remove_node ltb n key s).1.
Proof.
  revert key. induction n as [|k v h l IHl r IHr]; intros key Hn; [done|].
  destruct Hn as (Hl & Hr & Hlk & Hkr). simpl.
  destruct (ltb key k).
  - pose proof (remove_node_keys l key s) as Hk. specialize (IHl key Hl).
    destruct (remove_node ltb l key s) as [l' s'] eqn:E. simpl in *.
    apply bst_balance. simpl. repeat split; auto.
    rewrite Forall_forall in *. auto.
  - destruct (ltb k key).
    + pose proof (remove_node_keys r key s) as Hk. specialize (IHr key Hr).
      destruct (remove_node ltb r key s) as [r' s'] eqn:E. simpl in *.
      apply bst_balance. simpl. repeat split; auto.
      rewrite Forall_forall in *. auto.
    + destruct l as [|lk lv lh ll lr] eqn:El, r as [|rk rv rh rl rr] eqn:Er;
        [done | done | done |].
      rewrite <- El, <- Er in *. clear El Er.
      destruct (find_min r) as [[sk sv]|] eqn:Em; [|simpl; done].
      pose proof (remove_min_inorder r sk sv s Hr Em) as Hin.
      specialize (IHr sk Hr). pose proof (find_min_key _ _ _ Em) as Hsk.
      rewrite find_min_inorder in Em.
      apply bst_sorted in Hr as Hs.
      destruct (remove_node ltb r sk s) as [r' s'] eqn:E. simpl in *.
      apply bst_balance. simpl. repeat split; auto.
      * rewrite Forall_forall in *. intros x Hx.
        eapply ltb_trans; [by apply Hlk | by apply Hkr].
      * unfold keys in *. rewrite Hin.
        destruct (inorder_traversal r) as [|[k0 v0] rest]; [done|].
        simpl in Em. injection Em as -> ->. simpl in *.
        by apply StronglySorted_cons in Hs as [? _].
Qed.

(** An insertion leaves the value in the tree, under a key that compares
    neither below nor above the inserted one. *)
Lemma insert_node_holds_value n key value s :
  exists k', ltb key k' = false /\ ltb k' key = false
    /\ (k', value) ∈ inorder_traversal (insert_node ltb n key value s).1.
Proof.
  induction n as [|k v h l IHl r IHr]; simpl.
  - exists key. rewrite ltb_irrefl. repeat split. by left.
  - destruct (ltb key k) eqn:E1.
    + destruct IHl as (k' & ? & ? & Hin).
      destruct (insert_node ltb l key value s) as [l' s']. simpl in *.
      exists k'. rewrite balance_inorder. simpl. repeat split; try done.
      rewrite elem_of_app. by left.
    + destruct (ltb k key) eqn:E2.
      * destruct IHr as (k' & ? & ? & Hin).
        destruct (insert_node ltb r key value s) as [r' s']. simpl in *.
        exists k'. rewrite balance_inorder. simpl. repeat split; try done.
        rewrite elem_of_app, elem_of_cons. auto.
      * exists k. simpl. repeat split; try done.
        rewrite elem_of_app, elem_of_cons. auto.
Qed.

(** The [size_] counter follows the number of nodes. *)
Lemma count_inorder n : count n = length (inorder_traversal n).
Proof.
  induction n as [|k v h l IHl r IHr]; [done|].
  simpl. rewrite length_app. simpl. lia.
Qed.

Lemma balance_count n : count (balance n) = count n.
Proof. by rewrite !count_inorder, balance_inorder. Qed.

Lemma insert_node_count n key value s :
  (count (insert_node ltb n key value s).1 = count n
   /\ (insert_node ltb n key value s).2 = s)
  \/ (count (insert_node ltb n key value s).1 = S (count n)
      /\ (insert_node ltb n key value s).2 = size_incr s).
Proof.
  induction n as [|k v h l IHl r IHr]; simpl.
  - by right.
  - destruct (ltb key k).
    + destruct (insert_node ltb l key value s) as [l' s'] eqn:E. simpl in *.
      rewrite balance_count. simpl. lia.
    + destruct (ltb k key).
      * destruct (insert_node ltb r key value s) as [r' s'] eqn:E. simpl in *.
        rewrite balance_count. simpl. lia.
      * simpl. by left.
Qed.

Lemma remove_node_count n key s :
  (count (remove_node ltb n key s).1 = count n
   /\ (remove_node ltb n key s).2 = s)
  \/ (S (count (remove_node ltb n key s).1) = count n
      /\ (remove_node ltb n key s).2 = size_decr s).
Proof.
  revert key. induction n as [|k v h l IHl r IHr]; intros key; simpl.
  - by left.
  - destruct (ltb key k).
    + specialize (IHl key).
      destruct (remove_node ltb l key s) as [l' s'] eqn:E. simpl in *.
      rewrite balance_count. simpl. lia.
    + destruct (ltb k key).
      * specialize (IHr key).
        destruct (remove_node ltb r key s) as [r' s'] eqn:E. simpl in *.
        rewrite balance_count. simpl. lia.
      * destruct l as [|lk lv lh ll lr] eqn:El, r as [|rk rv rh rl rr] eqn:Er.
        -- right. done.
        -- right. simpl. done.
        -- right. simpl. split; [lia | done].
        -- rewrite <- El, <- Er in *. clear El Er.
           destruct (find_min r) as [[sk sv]|] eqn:Em; [|by left].
           specialize (IHr sk).
           destruct (remove_node ltb r sk s) as [r' s'] eqn:E. simpl in *.
           rewrite balance_count. simpl. lia.
Qed.

Lemma size_incr_count c : size_incr (Z.of_nat c mod size_max) = Z.of_nat (S c) mod size_max.
Proof.
  unfold size_incr. rewrite Zplus_mod_idemp_l. f_equal. lia.
Qed.

Lemma size_decr_count c : size_decr (Z.of_nat (S c) mod size_max) = Z.of_nat c mod size_max.
Proof.
  unfold size_decr. rewrite Zminus_mod_idemp_l. f_equal. lia.
Qed.

Lemma insert_invariant (tr : AVLTree.t K V) key value :
  invariant ltb tr -> invariant ltb (insert ltb tr key value).
Proof.
  intros (Hb & Ha & Hs). unfold insert, invariant, size in *.
  pose proof (insert_node_bst (root_ tr) key value (size_ tr) Hb).
  pose proof (insert_node_avl (root_ tr) key value (size_ tr) Ha) as [? _].
  pose proof (insert_node_count (root_ tr) key value (size_ tr)) as Hc.
  destruct (insert_node ltb (root_ tr) key value (size_ tr)) as [n' s'].
  simpl in *. repeat split; try done.
  destruct Hc as [[-> ->]|[-> ->]]; [done|].
  rewrite Hs. apply size_incr_count.
Qed.

Lemma remove_invariant (tr : AVLTree.t K V) key :
  invariant ltb tr -> invariant ltb (remove ltb tr key).2.
Proof.
  intros (Hb & Ha & Hs). unfold remove, invariant, size in *.
  pose proof (remove_node_bst (root_ tr) key (size_ tr) Hb).
  pose proof (remove_node_avl (root_ tr) key (size_ tr) Ha) as [? _].
  pose proof (remove_node_count (root_ tr) key (size_ tr)) as Hc.
  destruct (remove_node ltb (root_ tr) key (size_ tr)) as [n' s'].
  simpl in *. repeat split; try done.
  destruct Hc as [[-> ->]|[Hc ->]]; [done|].
  rewrite Hs, <- Hc. apply size_decr_count.
Qed.

End AVLProofs.
End AVLProofs.

(** C10: after any sequence of insert and remove operations on the score
    tree, every node satisfies the binary-search-tree ordering, every
    recorded height is one more than the larger of the children's heights,
    every balance factor is -1, 0 or 1, and [size()] is the number of nodes
    (as a [size_t]: modulo [2^64], hence equal to it below [2^64]). *)
Theorem score_tree_invariant (ops : list ScoreTree.op) :
  AVLInv.bst double_lt (AVLTree.root_ (ScoreTree.run ops))
  /\ AVLInv.avl (AVLTree.root_ (ScoreTree.run ops))
  /\ AVLTree.size (ScoreTree.run ops)
     = Z.of_nat (AVLInv.count (AVLTree.root_ (ScoreTree.run ops))) mod size_max
  /\ (Z.of_nat (AVLInv.count (AVLTree.root_ (ScoreTree.run ops))) < size_max ->
      AVLTree.size (ScoreTree.run ops)
      = Z.of_nat (AVLInv.count (AVLTree.root_ (ScoreTree.run ops)))).
Proof.
  assert (AVLInv.invariant double_lt (ScoreTree.run ops)) as (Hb & Ha & Hs).
  { unfold ScoreTree.run.
    induction ops as [|o ops IH] using rev_ind.
    - repeat split; simpl; try done.
    - rewrite foldl_app. simpl. destruct o as [k v|k]; simpl.
      + apply AVLProofs.insert_invariant;
          first [apply double_lt_irrefl | apply double_lt_trans | done].
      + apply AVLProofs.remove_invariant;
          first [apply double_lt_irrefl | apply double_lt_trans | done]. }
  repeat split; try done.
  intros Hlt. rewrite Hs. apply Z.mod_small. lia.
Qed.

(** * The TTL heap: draining expired keys *)
Module HeapProofs.
Import TTLHeap HeapInv.

Lemma heap_order_check_correct arr :
  heap_order_check arr = true -> heap_order arr.
Proof.
  unfold heap_order_check, heap_order. rewrite forallb_forall.
  intros H i e p Hi He Hp.
  specialize (H i). rewrite He, Hp in H.
  apply Z.leb_le, H, in_seq.
  apply lookup_lt_Some in He. lia.
Qed.

Lemma pos_bijection_check_correct h :
  pos_bijection_check h = true -> pos_bijection h.
Proof.
  unfold pos_bijection_check, pos_bijection.
  intros [Hm Hnd]%andb_true_iff k i.
  apply bool_decide_eq_true in Hm, Hnd. rewrite Hm.
  rewrite <- elem_of_list_to_map.
  - rewrite elem_of_lookup_imap. split.
    + intros (j & e & [= -> ->] & He). eauto.
    + intros (e & He & <-). eauto.
  - rewrite fmap_imap.
    by rewrite (imap_ext _ (const key) (heap_ h)), imap_const.
Qed.

Implicit Types arr : list TTLEntry.

Lemma parent_is_child c : (0 < c)%nat -> is_child (parent c) c.
Proof.
  intros Hc. unfold is_child, parent.
  pose proof (Nat.div_mod_eq (c - 1) 2).
  pose proof (Nat.mod_upper_bound (c - 1) 2). lia.
Qed.

Lemma child_parent i c : is_child i c -> parent c = i /\ (i < c)%nat.
Proof.
  unfold is_child, parent. intros Hc.
  pose proof (Nat.div_mod_eq (c - 1) 2).
  pose proof (Nat.mod_upper_bound (c - 1) 2). lia.
Qed.

Lemma heap_order_ordered arr : heap_order arr <-> ordered arr.
Proof.
  split.
  - intros H i c e ec Hc He Hec.
    apply child_parent in Hc as [<- Hlt].
    apply (H c); [lia | done | done].
  - intros H i e p Hi He Hp.
    apply (H (parent i) i); [by apply parent_is_child | done | done].
Qed.

Lemma ordered_root_min arr r :
  ordered arr -> arr !! 0%nat = Some r ->
  forall i e, arr !! i = Some e -> expiry r <= expiry e.
Proof.
  intros Ho Hr i. induction i as [i IH] using lt_wf_ind. intros e He.
  destruct (decide (i = 0%nat)) as [->|Hne].
  - rewrite Hr in He. injection He as ->. lia.
  - pose proof (parent_is_child i ltac:(lia)) as Hc.
    pose proof (child_parent _ _ Hc) as [_ Hlt].
    destruct (lookup_lt_is_Some_2 arr (parent i)) as [p Hp].
    { apply lookup_lt_Some in He. lia. }
    specialize (IH (parent i) Hlt p Hp).
    specialize (Ho _ _ _ _ Hc Hp He). lia.
Qed.

(** Swapping two slots. *)
Lemma swap_lookup arr i j a b k :
  arr !! i = Some a -> arr !! j = Some b ->
  <[j := a]> (<[i := b]> arr) !! k
  = if decide (k = j) then Some a else if decide (k = i) then Some b else arr !! k.
Proof.
  intros Ha Hb. apply lookup_lt_Some in Ha as Hi. apply lookup_lt_Some in Hb as Hj.
  destruct (decide (k = j)) as [->|].
  - rewrite list_lookup_insert_eq; [done | by rewrite length_insert].
  - rewrite list_lookup_insert_ne by done.
    destruct (decide (k = i)) as [->|].
    + by rewrite list_lookup_insert_eq.
    + by rewrite list_lookup_insert_ne.
Qed.

Lemma insert_head_perm {A} (l : list A) j x b :
  l !! j = Some b -> b :: <[j := x]> l ≡ₚ x :: l.
Proof.
  revert j. induction l as [|y l IH]; intros [|j] Hj; simplify_eq/=.
  - apply perm_swap.
  - rewrite perm_swap. rewrite (IH j Hj). apply perm_swap.
Qed.

Lemma swap_perm_lt {A} (l : list A) i j a b :
  (i < j)%nat -> l !! i = Some a -> l !! j = Some b ->
  <[j := a]> (<[i := b]> l) ≡ₚ l.
Proof.
  revert i j. induction l as [|y l IH]; intros i j Hij Ha Hb; [done|].
  destruct j as [|j]; [lia|]. destruct i as [|i]; simplify_eq/=.
  - by apply insert_head_perm.
  - f_equiv. apply IH; [lia | done | done].
Qed.

Lemma swap_perm {A} (l : list A) i j a b :
  l !! i = Some a -> l !! j = Some b ->
  <[j := a]> (<[i := b]> l) ≡ₚ l.
Proof.
  intros Ha Hb.
  destruct (Nat.lt_trichotomy i j) as [Hlt|[->|Hgt]].
  - by apply swap_perm_lt.
  - simplify_eq. rewrite list_insert_insert_eq. by rewrite list_insert_id.
  - rewrite list_insert_insert_ne by lia. by apply swap_perm_lt.
Qed.

Lemma swap_entries_heap h i j a b :
  heap_ h !! i = Some a -> heap_ h !! j = Some b ->
  heap_ (swap_entries h i j) = <[j := a]> (<[i := b]> (heap_ h)).
Proof. intros Ha Hb. unfold swap_entries. by rewrite Ha, Hb. Qed.

(** The smallest among a slot and its children. *)
Lemma smallest_of_spec arr i e :
  arr !! i = Some e ->
  exists es, arr !! smallest_of arr i = Some es
    /\ (smallest_of arr i = i
        \/ (is_child i (smallest_of arr i) /\ expiry es < expiry e))
    /\ (forall c ec, is_child i c -> arr !! c = Some ec -> expiry es <= expiry ec).
Proof.
  intros He. unfold smallest_of, is_child, entry_lt. rewrite He.
  set (lc := (2 * i + 1)%nat). set (rc := (2 * i + 2)%nat).
  destruct (arr !! lc) as [el|] eqn:El; destruct (arr !! rc) as [er|] eqn:Er.
  all: repeat match goal with
       | H : ?l !! ?k = Some _ |- context [bool_decide (?k < length ?l)%nat] =>
           rewrite (bool_decide_eq_true_2 (k < length l)%nat)
             by (by eapply lookup_lt_Some)
       end; simpl.
  all: repeat match goal with
       | |- context [ ?a <? ?b ] => destruct (Z.ltb_spec a b); simpl
       | H : ?l !! ?k = _ |- context [ ?l !! ?k ] => rewrite H
       end.
  all: eexists; split; [reflexivity|]; split;
    [first [by left | right; split; [auto|lia]] |].
  all: intros c ec [->| ->] Hc; simplify_eq; lia.
Qed.

Lemma heapify_down_loop_spec fuel h i :
  (i < length (heap_ h))%nat -> (length (heap_ h) - i <= fuel)%nat ->
  down_ok (heap_ h) i ->
  ordered (heap_ (heapify_down_loop fuel h i))
  /\ heap_ (heapify_down_loop fuel h i) ≡ₚ heap_ h.
Proof.
  revert h i. induction fuel as [|fuel IH]; intros h i Hi Hfuel [Hd1 Hd2]; [lia|].
  destruct (lookup_lt_is_Some_2 _ _ Hi) as [e He].
  destruct (smallest_of_spec _ _ _ He) as (es & Hs & Hcase & Hmin).
  simpl. remember (smallest_of (heap_ h) i) as s eqn:Es.
  case_bool_decide as Hne.
  - destruct Hcase as [?|[Hc Hlt]]; [done|].
    pose proof (child_parent _ _ Hc) as [Hpar Hgt].
    pose proof (swap_entries_heap h i s e es He Hs) as Hsw.
    pose proof (fun k => swap_lookup (heap_ h) i s e es k He Hs) as Hlk.
    specialize (IH (swap_entries h i s) s).
    rewrite Hsw in IH. rewrite !length_insert in IH.
    destruct IH as [IHo IHp].
    + by eapply lookup_lt_Some.
    + lia.
    + split.
      * intros p c ep ec Hpc Hp. rewrite !Hlk.
        pose proof (child_parent _ _ Hpc) as [Hpar' Hgt'].
        repeat case_decide; subst; intros; simplify_eq; try lia.
        -- apply (Hmin c ec); done.
        -- eapply (Hd2 (parent i) (smallest_of (heap_ h) i)); eauto.
        -- eapply Hd1; eauto.
      * intros g c eg ec Hg Hc'. rewrite !Hlk.
        pose proof (child_parent _ _ Hg) as [Hpar' Hgt'].
        pose proof (child_parent _ _ Hc') as [Hpar'' Hgt''].
        repeat case_decide; subst; intros; simplify_eq; try lia.
        eapply (Hd1 (smallest_of (heap_ h) i) c); eauto.
    + split; [done|]. rewrite IHp. by apply swap_perm.
  - rewrite Hne, He in Hs. injection Hs as <-.
    split; [|done].
    intros p c ep ec Hpc Hp Hc.
    destruct (decide (p = i)) as [->|]; [|by eapply Hd1].
    rewrite He in Hp. injection Hp as <-. by eapply Hmin.
Qed.

Lemma heapify_down_spec h i :
  (i < length (heap_ h))%nat -> down_ok (heap_ h) i ->
  ordered (heap_ (heapify_down h i)) /\ heap_ (heapify_down h i) ≡ₚ heap_ h.
Proof. intros. apply heapify_down_loop_spec; [done | lia | done]. Qed.

(** Popping the root: the rest stays a heap and loses exactly the root. *)
Lemma pop_root_spec h r :
  ordered (heap_ h) -> heap_ h !! 0%nat = Some r ->
  ordered (heap_ (pop_root h (key r)))
  /\ heap_ h ≡ₚ r :: heap_ (pop_root h (key r)).
Proof.
  intros Ho Hr. unfold pop_root.
  set (last := (length (heap_ h) - 1)%nat).
  assert (last < length (heap_ h))%nat as Hlast.
  { apply lookup_lt_Some in Hr. lia. }
  destruct (lookup_lt_is_Some_2 _ _ Hlast) as [lst Hlst].
  rewrite (swap_entries_heap h 0 last r lst Hr Hlst). simpl.
  set (arr1 := <[last := r]> (<[0%nat := lst]> (heap_ h))).
  assert (arr1 ≡ₚ heap_ h) as Hperm by (by apply swap_perm).
  assert (length arr1 = length (heap_ h)) as Hlen by (unfold arr1; by rewrite !length_insert).
  assert (arr1 = pop_back arr1 ++ [r]) as Hsplit.
  { unfold pop_back. rewrite Hlen. fold last.
    rewrite <- (take_drop last arr1) at 1. f_equal.
    assert (arr1 !! last = Some r) as Hl1.
    { unfold arr1. rewrite list_lookup_insert_eq; [done | by rewrite length_insert]. }
    rewrite (drop_S _ _ _ Hl1), drop_ge by lia. done. }
  assert (heap_ h ≡ₚ r :: pop_back arr1) as Hp2.
  { rewrite <- Hperm. rewrite Hsplit at 1. by rewrite Permutation_app_comm. }
  assert (forall k e, (0 < k)%nat -> pop_back arr1 !! k = Some e -> heap_ h !! k = Some e) as Hold.
  { intros k e Hk. unfold pop_back. rewrite Hlen. fold last.
    intros [Hk1 Hk2]%lookup_take_Some. unfold arr1 in Hk1.
    rewrite !list_lookup_insert_ne in Hk1 by lia. done. }
  destruct (pop_back arr1) as [|x rest] eqn:Epop; [split; [by intros ? ? ? ? ? ?|done]|].
  rewrite <- Epop in *.
  match goal with |- context [heapify_down ?x _] => set (h2 := x) end.
  destruct (heapify_down_spec h2 0) as [Ho' Hp'].
  - simpl. rewrite Epop. simpl. lia.
  - split.
    + intros p c ep ec Hpc Hp Hep Hec. simpl in Hep, Hec.
      pose proof (child_parent _ _ Hpc) as [_ Hgt].
      apply Hold in Hep; [|lia]. apply Hold in Hec; [|lia].
      by eapply Ho.
    + intros g c eg ec Hg. unfold is_child in Hg. lia.
  - split; [done|]. rewrite Hp'. done.
Qed.

Lemma filter_all {A} (P : A -> Prop) `{forall x, Decision (P x)} (l : list A) :
  Forall P l -> filter P l = l.
Proof.
  induction 1 as [|x l Hx Hl IH]; [done|].
  by rewrite filter_cons_True, IH.
Qed.

Lemma filter_none {A} (P : A -> Prop) `{forall x, Decision (P x)} (l : list A) :
  Forall (fun x => ~ P x) l -> filter P l = [].
Proof.
  induction 1 as [|x l Hx Hl IH]; [done|].
  by rewrite filter_cons_False, IH.
Qed.

Lemma get_expired_keys_loop_spec fuel now h acc :
  ordered (heap_ h) -> (length (heap_ h) <= fuel)%nat ->
  exists es,
    (get_expired_keys_loop fuel now h acc).1 = acc ++ (key <$> es)
    /\ heap_ h ≡ₚ es ++ heap_ (get_expired_keys_loop fuel now h acc).2
    /\ Forall (fun e => expiry e <= now) es
    /\ StronglySorted (fun a b => expiry a <= expiry b) es
    /\ ordered (heap_ (get_expired_keys_loop fuel now h acc).2)
    /\ Forall (fun e => now < expiry e) (heap_ (get_expired_keys_loop fuel now h acc).2).
Proof.
  revert h acc. induction fuel as [|fuel IH]; intros h acc Ho Hfuel.
  - exists []. simpl. rewrite app_nil_r.
    destruct (heap_ h) eqn:E; [|simpl in Hfuel; lia].
    repeat split; try done; constructor.
  - simpl. destruct (heap_ h !! 0%nat) as [r|] eqn:Hr.
    + pose proof (ordered_root_min _ _ Ho Hr) as Hmin.
      destruct (Z.leb_spec (expiry r) now) as [Hle|Hgt].
      * destruct (pop_root_spec h r Ho Hr) as [Ho1 Hp1].
        destruct (IH (pop_root h (key r)) (acc ++ [key r]) Ho1) as (es & Hk & Hp & Hall & Hs & Ho' & Hrest).
        { apply Permutation_length in Hp1. simpl in Hp1. lia. }
        exists (r :: es). rewrite Hk. repeat split; try done.
        -- by rewrite <- app_assoc.
        -- rewrite Hp1. simpl. by rewrite <- Hp.
        -- by constructor.
        -- constructor; [done|].
           rewrite Forall_forall. intros e He.
           assert (e ∈ heap_ h) as [i Hi]%list_elem_of_lookup.
           { rewrite Hp1, Hp. set_solver. }
           by eapply Hmin.
      * exists []. simpl. rewrite app_nil_r. repeat split; try done; try constructor.
        rewrite Forall_forall. intros e [i Hi]%list_elem_of_lookup.
        specialize (Hmin i e Hi). lia.
    + exists []. simpl. rewrite app_nil_r.
      destruct (heap_ h) eqn:E; [|done].
      repeat split; try done; constructor.
Qed.

(** The rounds given to the loops are enough: more rounds change nothing. *)
Lemma heapify_up_loop_S fuel h index :
  heapify_up_loop (S fuel) h index
  = if bool_decide (0 < index)%nat then
      match heap_ h !! index, heap_ h !! parent index with
      | Some e, Some p =>
          if entry_lt e p
          then heapify_up_loop fuel (swap_entries h index (parent index)) (parent index)
          else h
      | _, _ => h
      end
    else h.
Proof. reflexivity. Qed.

Lemma heapify_up_loop_enough fuel h index :
  (index <= fuel)%nat ->
  heapify_up_loop (S fuel) h index = heapify_up_loop fuel h index.
Proof.
  revert h index. induction fuel as [|fuel IH]; intros h index Hle.
  - assert (index = 0%nat) as -> by lia. done.
  - rewrite (heapify_up_loop_S fuel), (heapify_up_loop_S (S fuel)).
    case_bool_decide as Hpos; [|done].
    destruct (heap_ h !! index) as [e|]; [|done].
    destruct (heap_ h !! parent index) as [p|]; [|done].
    destruct (entry_lt e p); [|done].
    apply IH.
    pose proof (child_parent _ _ (parent_is_child index Hpos)) as [_ Hlt]. lia.
Qed.

Lemma smallest_of_range arr index :
  smallest_of arr index = index
  \/ ((index < smallest_of arr index)%nat /\ (smallest_of arr index < length arr)%nat).
Proof.
  destruct (arr !! index) as [e|] eqn:He.
  - destruct (smallest_of_spec arr index e He) as (es & Hs & [?|[Hc _]] & _); [by left|].
    right. split; [by apply child_parent in Hc as [_ ?] | by eapply lookup_lt_Some].
  - left. unfold smallest_of. rewrite He.
    destruct (arr !! (2 * index + 1)%nat); cbv zeta; rewrite ?He;
      destruct (arr !! (2 * index + 2)%nat); done.
Qed.

Lemma swap_entries_length h i j :
  length (heap_ (swap_entries h i j)) = length (heap_ h).
Proof.
  unfold swap_entries. destruct (heap_ h !! i), (heap_ h !! j); simpl; try done.
  by rewrite !length_insert.
Qed.

Lemma heapify_down_loop_S fuel h index :
  heapify_down_loop (S fuel) h index
  = if bool_decide (smallest_of (heap_ h) index ≠ index)
    then heapify_down_loop fuel (swap_entries h index (smallest_of (heap_ h) index))
           (smallest_of (heap_ h) index)
    else h.
Proof. reflexivity. Qed.

Lemma heapify_down_loop_enough fuel h index :
  (length (heap_ h) - index <= fuel)%nat ->
  heapify_down_loop (S fuel) h index = heapify_down_loop fuel h index.
Proof.
  revert h index. induction fuel as [|fuel IH]; intros h index Hle.
  - simpl. destruct (smallest_of_range (heap_ h) index) as [->|[? ?]]; [|lia].
    by rewrite bool_decide_eq_false_2 by (intros H; by apply H).
  - rewrite (heapify_down_loop_S fuel), (heapify_down_loop_S (S fuel)).
    case_bool_decide as Hne; [|done].
    apply IH. rewrite swap_entries_length.
    destruct (smallest_of_range (heap_ h) index) as [?|[? ?]]; [done | lia].
Qed.

End HeapProofs.

(** C7: on a heap in heap order, [get_expired_keys] returns exactly the
    keys of the entries whose expiry is at most [now], in non-decreasing
    order of expiry; what remains is the rest of the heap, again in heap
    order, and its earliest expiry (if any) is strictly after [now]. *)
Theorem get_expired_keys_drains (h : TTLHeap.t) (now : Z) :
  HeapInv.heap_order (TTLHeap.heap_ h) ->
  exists es,
    (TTLHeap.get_expired_keys now h).1 = TTLHeap.key <$> es
    /\ es ≡ₚ filter (fun e => TTLHeap.expiry e <= now) (TTLHeap.heap_ h)
    /\ StronglySorted (fun a b => TTLHeap.expiry a <= TTLHeap.expiry b) es
    /\ TTLHeap.heap_ (TTLHeap.get_expired_keys now h).2
         ≡ₚ filter (fun e => now < TTLHeap.expiry e) (TTLHeap.heap_ h)
    /\ HeapInv.heap_order (TTLHeap.heap_ (TTLHeap.get_expired_keys now h).2)
    /\ (forall t, TTLHeap.next_expiry (TTLHeap.get_expired_keys now h).2 = Some t ->
          now < t
          /\ forall e, e ∈ TTLHeap.heap_ (TTLHeap.get_expired_keys now h).2 ->
                t <= TTLHeap.expiry e).
Proof.
  intros Ho%HeapProofs.heap_order_ordered.
  unfold TTLHeap.get_expired_keys.
  destruct (HeapProofs.get_expired_keys_loop_spec (length (TTLHeap.heap_ h)) now h [] Ho)
    as (es & Hk & Hp & Hall & Hs & Ho' & Hrest); [done|].
  set (h' := (TTLHeap.get_expired_keys_loop (length (TTLHeap.heap_ h)) now h []).2) in *.
  exists es. repeat split; try done.
  - rewrite Hp, filter_app.
    rewrite (HeapProofs.filter_all _ es) by done.
    rewrite (HeapProofs.filter_none _ (TTLHeap.heap_ h')); [by rewrite app_nil_r|].
    eapply Forall_impl; [exact Hrest|]. simpl. lia.
  - rewrite Hp, filter_app.
    rewrite (HeapProofs.filter_all _ (TTLHeap.heap_ h')) by done.
    rewrite (HeapProofs.filter_none _ es); [done|].
    eapply Forall_impl; [exact Hall|]. simpl. lia.
  - by apply HeapProofs.heap_order_ordered.
  - unfold TTLHeap.next_expiry in H.
    destruct (TTLHeap.heap_ h' !! 0%nat) as [r|] eqn:Hr; simplify_eq/=.
    rewrite Forall_forall in Hrest. apply Hrest. by eapply list_elem_of_lookup_2.
  - unfold TTLHeap.next_expiry in H.
    destruct (TTLHeap.heap_ h' !! 0%nat) as [r|] eqn:Hr; simplify_eq/=.
    intros e [i Hi]%list_elem_of_lookup.
    by eapply HeapProofs.ordered_root_min.
Qed.

(** * The hash table: lookups *)
Module HashProofs.
Import HashTable HashInv.
Section HashProofs.
Variable hash : string -> nat.
Implicit Types tb : HashTable.t.

Lemma wf_check_correct tb : wf_check hash tb = true -> wf hash tb.
Proof.
  unfold wf_check, wf.
  rewrite !andb_true_iff, !bool_decide_eq_true, forallb_forall.
  intros ((((? & ?) & Hp) & ?) & ?). repeat split; try done.
  intros i b e Hb He.
  specialize (Hp (i, b)). rewrite forallb_forall in Hp.
  eapply bool_decide_eq_true, Hp.
  - apply list_elem_of_In, elem_of_lookup_imap. eauto.
  - by apply list_elem_of_In.
Qed.

Lemma elem_of_entries tb e :
  e ∈ entries tb <-> exists i b, buckets_ tb !! i = Some b /\ e ∈ b.
Proof.
  unfold entries. rewrite list_elem_of_join. split.
  - intros (b & He & [i Hi]%list_elem_of_lookup). eauto.
  - intros (i & b & Hi & He). exists b. split; [done|].
    by eapply list_elem_of_lookup_2.
Qed.

Lemma key_unique (l : list Entry) e1 e2 :
  NoDup (key <$> l) -> e1 ∈ l -> e2 ∈ l -> key e1 = key e2 -> e1 = e2.
Proof.
  induction l as [|x l IH]; simpl; [by intros _ ?%elem_of_nil|].
  rewrite NoDup_cons, !elem_of_cons. intros [Hx Hnd] [->|H1] [->|H2] Hk; auto.
  - destruct Hx. rewrite Hk. by apply list_elem_of_fmap_2.
  - destruct Hx. rewrite <- Hk. by apply list_elem_of_fmap_2.
Qed.

Lemma bucket_lookup tb k :
  wf hash tb ->
  buckets_ tb !! hash_function hash tb k = Some (bucket tb (hash_function hash tb k)).
Proof.
  intros (Hlen & Hpos & _). unfold bucket, hash_function.
  destruct (lookup_lt_is_Some_2 (buckets_ tb) (hash k mod bucket_count_ tb)%nat) as [b Hb].
  { rewrite Hlen. apply Nat.mod_upper_bound. lia. }
  by rewrite Hb.
Qed.

Lemma find_entry_Some tb k i e :
  wf hash tb ->
  find_entry tb k (hash_function hash tb k) = Some (i, e) ->
  e ∈ entries tb /\ key e = k /\ bucket tb (hash_function hash tb k) !! i = Some e.
Proof.
  intros Hwf. unfold find_entry. intros (Hi & Hk & _)%list_find_Some.
  repeat split; try done.
  apply elem_of_entries. eexists _, _. split; [by apply bucket_lookup|].
  by eapply list_elem_of_lookup_2.
Qed.

Lemma find_entry_complete tb k e :
  wf hash tb -> e ∈ entries tb -> key e = k ->
  exists i, find_entry tb k (hash_function hash tb k) = Some (i, e).
Proof.
  intros Hwf He Hk. pose proof Hwf as (Hlen & Hpos & Hplace & Hnd & _).
  apply elem_of_entries in He as Hin. destruct Hin as (j & b & Hb & Heb).
  pose proof (Hplace _ _ _ Hb Heb) as Hj. rewrite Hk in Hj.
  pose proof (bucket_lookup tb k Hwf) as Hbk. unfold hash_function in Hbk at 1.
  rewrite Hj, Hb in Hbk. injection Hbk as Hbk.
  destruct (list_find_elem_of (fun e => key e = k) b e Heb Hk) as [[i e'] Hf].
  exists i. unfold find_entry. rewrite <- Hbk, Hf.
  pose proof (find_entry_Some tb k i e' Hwf) as (He' & Hk' & _).
  { unfold find_entry. by rewrite <- Hbk. }
  do 3 f_equal. eapply key_unique; [exact Hnd | done | done | congruence].
Qed.

Lemma find_entry_None tb k :
  wf hash tb ->
  find_entry tb k (hash_function hash tb k) = None ->
  forall e, e ∈ entries tb -> key e <> k.
Proof.
  intros Hwf Hf e He Hk.
  destruct (find_entry_complete tb k e Hwf He Hk) as [i Hi]. congruence.
Qed.

Lemma bucket_NoDup tb i b :
  wf hash tb -> buckets_ tb !! i = Some b -> NoDup b.
Proof.
  intros (_ & _ & _ & Hnd & _) Hb.
  unfold entries in Hnd. rewrite <- (take_drop_middle _ _ _ Hb) in Hnd.
  rewrite join_app in Hnd. simpl in Hnd. rewrite !fmap_app in Hnd.
  apply NoDup_app in Hnd as (_ & _ & Hnd).
  apply NoDup_app in Hnd as (Hnd & _ & _).
  by eapply NoDup_fmap_1.
Qed.

Lemma elem_of_join_insert {A} (bs : list (list A)) idx b' x :
  (idx < length bs)%nat ->
  x ∈ mjoin (<[idx := b']> bs)
  <-> x ∈ b' \/ exists j b, j <> idx /\ bs !! j = Some b /\ x ∈ b.
Proof.
  intros Hidx. rewrite list_elem_of_join. split.
  - intros (l & Hx & [j Hj]%list_elem_of_lookup).
    apply list_lookup_insert_Some in Hj as [(-> & -> & _)|[Hne Hj]]; [by left|].
    right. eauto.
  - intros [Hx|(j & b & Hne & Hj & Hx)].
    + exists b'. split; [done|]. apply list_elem_of_lookup. exists idx.
      by apply list_lookup_insert_eq.
    + exists b. split; [done|]. apply list_elem_of_lookup. exists j.
      by rewrite list_lookup_insert_ne.
Qed.

Lemma elem_of_delete_NoDup {A} (l : list A) i x y :
  NoDup l -> l !! i = Some x -> y ∈ delete i l <-> y ∈ l /\ y <> x.
Proof.
  intros Hnd Hi. rewrite delete_take_drop.
  pose proof (take_drop_middle _ _ _ Hi) as Hl.
  set (a := take i l) in *. set (b := drop (S i) l) in *.
  rewrite <- Hl in Hnd |- *. clear Hl.
  apply NoDup_app in Hnd as (_ & Hd & [Hx _]%NoDup_cons).
  rewrite !elem_of_app, elem_of_cons. split.
  - intros [Hy|Hy]; split; auto.
    + intros ->. apply (Hd x Hy). by left.
    + by intros ->.
  - intros [[Hy|[->|Hy]] Hne]; auto. done.
Qed.

(** ** The operations keep the table well formed *)
Lemma join_insert {A} (bs : list (list A)) idx b b' :
  bs !! idx = Some b ->
  mjoin bs = mjoin (take idx bs) ++ b ++ mjoin (drop (S idx) bs)
  /\ mjoin (<[idx := b']> bs) = mjoin (take idx bs) ++ b' ++ mjoin (drop (S idx) bs).
Proof.
  intros Hb. split.
  - rewrite <- (take_drop_middle _ _ _ Hb) at 1. by rewrite join_app.
  - rewrite insert_take_drop by (by eapply lookup_lt_Some). by rewrite join_app.
Qed.

Lemma set_bucket_wf tb idx b' n l :
  wf hash tb -> (idx < bucket_count_ tb)%nat ->
  Forall (fun e => (hash (key e) mod bucket_count_ tb)%nat = idx) b' ->
  entries (set_bucket tb idx b') ≡ₚ l -> NoDup (key <$> l) ->
  n = Z.of_nat (length l) mod size_max ->
  wf hash (with_size (set_bucket tb idx b') n).
Proof.
  intros (Hlen & Hpos & Hplace & Hnd & Hsize) Hidx Hb' Hl Hndl ->.
  unfold wf, entries in *. simpl in *. rewrite length_insert.
  repeat split; try done.
  - intros i b e Hb He.
    apply list_lookup_insert_Some in Hb as [(-> & -> & _)|[Hne Hb]].
    + rewrite Forall_forall in Hb'. by apply Hb'.
    + by eapply Hplace.
  - by rewrite Hl.
  - by rewrite Hl.
Qed.

Lemma hash_function_lt tb k :
  wf hash tb -> (hash_function hash tb k < bucket_count_ tb)%nat.
Proof. intros (_ & Hpos & _). apply Nat.mod_upper_bound. lia. Qed.

Lemma bucket_placed tb k :
  wf hash tb ->
  Forall (fun e => (hash (key e) mod bucket_count_ tb)%nat = hash_function hash tb k)
    (bucket tb (hash_function hash tb k)).
Proof.
  intros Hwf. pose proof (bucket_lookup tb k Hwf) as Hb.
  destruct Hwf as (_ & _ & Hplace & _).
  rewrite Forall_forall. intros e He. by eapply Hplace.
Qed.

(** Replacing an entry by one with the same key. *)
Lemma replace_entry_wf tb k i e e' :
  wf hash tb ->
  find_entry tb k (hash_function hash tb k) = Some (i, e) ->
  key e' = key e ->
  wf hash (set_bucket tb (hash_function hash tb k)
             (<[i := e']> (bucket tb (hash_function hash tb k)))).
Proof.
  intros Hwf Hf Hk.
  destruct (find_entry_Some _ _ _ _ Hwf Hf) as (He & Hke & Hbi).
  pose proof (bucket_lookup tb k Hwf) as Hb.
  pose proof (bucket_placed tb k Hwf) as Hpl.
  pose proof Hwf as (Hlen & Hpos & Hplace & Hnd & Hsize).
  set (idx := hash_function hash tb k) in *. set (b := bucket tb idx) in *.
  destruct (join_insert (buckets_ tb) idx b (<[i := e']> b) Hb) as [E1 E2].
  assert (key <$> <[i := e']> b = key <$> b) as Hkeys.
  { rewrite list_fmap_insert, Hk. apply list_insert_id. by rewrite list_lookup_fmap, Hbi. }
  replace (set_bucket tb idx (<[i:=e']> b))
    with (with_size (set_bucket tb idx (<[i:=e']> b)) (size_ tb)) by done.
  eapply set_bucket_wf; try done.
  - by apply hash_function_lt.
  - rewrite Forall_forall in Hpl |- *. intros x Hx.
    apply list_elem_of_lookup in Hx as [j Hj].
    apply list_lookup_insert_Some in Hj as [(-> & <- & _)|[Hne Hj]].
    + rewrite Hk. apply Hpl. by eapply list_elem_of_lookup_2.
    + apply Hpl. by eapply list_elem_of_lookup_2.
  - unfold entries. simpl. rewrite E2, !fmap_app, Hkeys, <- !fmap_app, <- E1. done.
  - unfold entries. simpl. rewrite Hsize. unfold entries. f_equal. f_equal.
    rewrite E1, E2, !length_app, length_insert. done.
Qed.

(** Erasing the entry found. *)
Lemma erase_entry_wf tb k i e :
  wf hash tb ->
  find_entry tb k (hash_function hash tb k) = Some (i, e) ->
  wf hash (with_size
             (set_bucket tb (hash_function hash tb k)
                (delete i (bucket tb (hash_function hash tb k))))
             (size_decr (size_ tb))).
Proof.
  intros Hwf Hf.
  destruct (find_entry_Some _ _ _ _ Hwf Hf) as (He & Hke & Hbi).
  pose proof (bucket_lookup tb k Hwf) as Hb.
  pose proof (bucket_placed tb k Hwf) as Hpl.
  pose proof Hwf as (Hlen & Hpos & Hplace & Hnd & Hsize).
  set (idx := hash_function hash tb k) in *. set (b := bucket tb idx) in *.
  destruct (join_insert (buckets_ tb) idx b (delete i b) Hb) as [E1 E2].
  assert (entries tb ≡ₚ e :: entries (set_bucket tb idx (delete i b))) as Hperm.
  { unfold entries. simpl. rewrite E1, E2.
    rewrite (delete_Permutation b i e Hbi) at 1.
    simpl. symmetry. apply Permutation_middle. }
  rewrite Hperm in Hnd. simpl in Hnd. apply NoDup_cons in Hnd as [_ Hnd].
  eapply set_bucket_wf; try done.
  - by apply hash_function_lt.
  - rewrite Forall_forall in Hpl |- *. intros x Hx. apply Hpl.
    by eapply list_elem_of_delete_inv.
  - rewrite Hsize. apply Permutation_length in Hperm. rewrite Hperm. simpl length.
    unfold size_decr. rewrite Zminus_mod_idemp_l. f_equal. lia.
Qed.

Lemma join_replicate_nil {A} n : mjoin (replicate n ([] : list A)) = [].
Proof. induction n as [|n IH]; [done|]. simpl. done. Qed.

Lemma alter_insert {A} (f : A -> A) (l : list A) i x :
  l !! i = Some x -> alter f i l = <[i := f x]> l.
Proof.
  revert i. induction l as [|y l IH]; intros [|i] Hi; simplify_eq/=; [done|].
  f_equal. by apply IH.
Qed.

(** The loop of [resize]. *)
Lemma rehash_spec n (l : list Entry) (nb : list (list Entry)) :
  (0 < n)%nat -> length nb = n ->
  (forall i b e, nb !! i = Some b -> e ∈ b -> (hash (key e) mod n)%nat = i) ->
  let nb' := foldl (fun nb e => alter (fun b => b ++ [e]) (hash (key e) mod n)%nat nb) nb l in
  length nb' = n
  /\ (forall i b e, nb' !! i = Some b -> e ∈ b -> (hash (key e) mod n)%nat = i)
  /\ mjoin nb' ≡ₚ mjoin nb ++ l.
Proof.
  intros Hn. revert nb. induction l as [|x l IH]; intros nb Hlen Hplace; simpl.
  - by rewrite app_nil_r.
  - remember (hash (key x) mod n)%nat as j eqn:Ej.
    assert (j < length nb)%nat as Hj by (rewrite Hlen, Ej; apply Nat.mod_upper_bound; lia).
    destruct (lookup_lt_is_Some_2 _ _ Hj) as [b Hb].
    rewrite (alter_insert _ _ _ _ Hb).
    destruct (IH (<[j := b ++ [x]]> nb)) as (IH1 & IH2 & IH3).
    + by rewrite length_insert.
    + intros i b0 e Hb0 He.
      apply list_lookup_insert_Some in Hb0 as [(-> & <- & _)|[Hne Hb0]].
      * apply elem_of_app in He as [He|He]; [by eapply Hplace|].
        apply list_elem_of_singleton in He. by subst e.
      * by eapply Hplace.
    + repeat split; try done.
      rewrite IH3. destruct (join_insert nb j b (b ++ [x]) Hb) as [-> ->].
      rewrite <- !app_assoc. do 2 f_equiv. simpl. apply Permutation_middle.
Qed.

Lemma resize_wf tb new_size :
  wf hash tb -> (0 < new_size)%nat -> wf hash (resize hash tb new_size).
Proof.
  intros (Hlen & Hpos & Hplace & Hnd & Hsize) Hn.
  destruct (rehash_spec new_size (entries tb) (replicate new_size []) Hn)
    as (H1 & H2 & H3).
  { apply length_replicate. }
  { intros i b e [-> _]%lookup_replicate_1 He. by apply elem_of_nil in He. }
  rewrite join_replicate_nil in H3. simpl in H3.
  unfold wf, resize, entries in *. simpl. repeat split; try done.
  - by rewrite H3.
  - by rewrite H3.
Qed.

Lemma resize_if_needed_wf tb : wf hash tb -> wf hash (resize_if_needed hash tb).
Proof.
  intros Hwf. unfold resize_if_needed. case_match; [|done].
  apply resize_wf; [done|]. destruct Hwf as (_ & ? & _). lia.
Qed.

Lemma new_wf n : (0 < n)%nat -> wf hash (new n).
Proof.
  intros Hn. unfold wf, new, entries. simpl.
  rewrite join_replicate_nil, length_replicate. repeat split; try done.
  - intros i b e [-> _]%lookup_replicate_1 He. by apply elem_of_nil in He.
  - constructor.
Qed.

Lemma store_wf tb k v exp : wf hash tb -> wf hash (store hash tb k v exp).2.
Proof.
  intros Hwf. unfold store.
  destruct (find_entry tb k (hash_function hash tb k)) as [[i e]|] eqn:Hf; simpl.
  - by eapply replace_entry_wf.
  - apply resize_if_needed_wf.
    pose proof (bucket_lookup tb k Hwf) as Hb.
    pose proof (bucket_placed tb k Hwf) as Hpl.
    pose proof (find_entry_None tb k Hwf Hf) as Hfresh.
    pose proof Hwf as (Hlen & Hpos & Hplace & Hnd & Hsize).
    set (idx := hash_function hash tb k) in *. set (b := bucket tb idx) in *.
    destruct (join_insert (buckets_ tb) idx b (b ++ [mkEntry k v exp]) Hb) as [E1 E2].
    assert (entries (set_bucket tb idx (b ++ [mkEntry k v exp]))
            ≡ₚ mkEntry k v exp :: entries tb) as Hperm.
    { unfold entries. simpl. rewrite E1, E2.
      rewrite <- !app_assoc. simpl. by rewrite <- !Permutation_middle. }
    eapply set_bucket_wf; try done.
    + by apply hash_function_lt.
    + apply Forall_app. split; [done|]. by constructor.
    + simpl. apply NoDup_cons. split; [|done].
      intros (e & Hk & He)%list_elem_of_fmap. by apply (Hfresh e He).
    + simpl size_. rewrite Hsize. simpl length. unfold size_incr.
      rewrite Zplus_mod_idemp_l. f_equal. lia.
Qed.

Lemma del_wf tb k : wf hash tb -> wf hash (del hash tb k).2.
Proof.
  intros Hwf. unfold del.
  destruct (find_entry tb k (hash_function hash tb k)) as [[i e]|] eqn:Hf; simpl; [|done].
  by eapply erase_entry_wf.
Qed.

Lemma expire_wf tb k ttl now : wf hash tb -> wf hash (expire hash tb k ttl now).2.
Proof.
  intros Hwf. unfold expire.
  destruct (find_entry tb k (hash_function hash tb k)) as [[i e]|] eqn:Hf; simpl; [|done].
  by eapply replace_entry_wf.
Qed.

Lemma get_expiring_wf tb k now : wf hash tb -> wf hash (get_expiring hash tb k now).2.
Proof.
  intros Hwf. unfold get_expiring.
  destruct (find_entry tb k (hash_function hash tb k)) as [[i e]|] eqn:Hf; simpl; [|done].
  destruct (is_expired now e); simpl; [|done].
  by eapply erase_entry_wf.
Qed.

Lemma clear_wf tb : wf hash tb -> wf hash (clear tb).
Proof.
  intros (Hlen & Hpos & _). unfold wf, clear, entries. simpl.
  rewrite length_fmap.
  assert (forall bs : list (list Entry), mjoin ((fun _ => []) <$> bs) = ([] : list Entry)) as E.
  { induction bs as [|b bs IH]; [done|]. simpl. done. }
  rewrite E. repeat split; try done.
  - intros i b e Hb He. rewrite list_lookup_fmap in Hb.
    destruct (buckets_ tb !! i); simplify_eq/=. by apply elem_of_nil in He.
  - constructor.
Qed.

End HashProofs.
End HashProofs.

(** C2, amended: [get] returns the stored string exactly when the key has
    an entry that holds a string, for every entry that is not expired, in
    both versions of the hash table; a key holding a sorted set yields
    nothing. In the version whose [get] tests the expiry, an expired entry
    found by [get] yields nothing and is erased, and [dbsize] counts one
    entry less. *)
Theorem get_returns_live_string (hash : string -> nat) (st : StorageEngine.t)
    (k : string) (now : Z) :
  HashInv.wf hash (StorageEngine.hash_table_ st) ->
  ((forall e, e ∈ HashInv.entries (StorageEngine.hash_table_ st) ->
      key e = k -> is_expired now e = false) ->
   StorageEngine.get_expiring hash st k now = (StorageEngine.get hash st k, st)
   /\ forall s, StorageEngine.get hash st k = Some s
        <-> exists e, e ∈ HashInv.entries (StorageEngine.hash_table_ st)
             /\ key e = k /\ type_ (value e) = STRING /\ string_value_ (value e) = s)
  /\ (forall e, e ∈ HashInv.entries (StorageEngine.hash_table_ st) ->
       key e = k -> is_expired now e = true ->
       (StorageEngine.get_expiring hash st k now).1 = None
       /\ (forall e', e' ∈ HashInv.entries
                         (StorageEngine.hash_table_ (StorageEngine.get_expiring hash st k now).2)
             <-> e' ∈ HashInv.entries (StorageEngine.hash_table_ st) /\ e' <> e)
       /\ StorageEngine.dbsize (StorageEngine.get_expiring hash st k now).2
          = (Z.of_nat (length (HashInv.entries (StorageEngine.hash_table_ st))) - 1)
              mod size_max).
Proof.
  intros Hwf. split.
  - intros Hlive.
    unfold StorageEngine.get_expiring, StorageEngine.get, HashTable.get_expiring, HashTable.get.
    destruct (HashTable.find_entry (StorageEngine.hash_table_ st) k _) as [[i e]|] eqn:Hf.
    + destruct (HashProofs.find_entry_Some hash _ _ _ _ Hwf Hf) as (He & Hk & _).
      rewrite (Hlive e He Hk). split; [by destruct st|].
      intros s. unfold is_string, as_string. case_bool_decide as Ht.
      * rewrite Ht. split; [intros [= <-]; eauto|].
        intros (e0 & He0 & Hk0 & Ht0 & <-).
        destruct (HashProofs.find_entry_complete hash _ _ _ Hwf He0 Hk0) as [i0 Hi0].
        congruence.
      * split; [done|]. intros (e0 & He0 & Hk0 & Ht0 & _).
        destruct (HashProofs.find_entry_complete hash _ _ _ Hwf He0 Hk0) as [i0 Hi0].
        congruence.
    + split; [by destruct st|]. intros s. split; [done|].
      intros (e0 & He0 & Hk0 & _).
      by destruct (HashProofs.find_entry_None hash _ _ Hwf Hf e0 He0).
  - intros e He Hk Hexp.
    destruct (HashProofs.find_entry_complete hash _ _ _ Hwf He Hk) as [i Hi].
    destruct (HashProofs.find_entry_Some hash _ _ _ _ Hwf Hi) as (_ & _ & Hbi).
    pose proof (HashProofs.bucket_lookup hash _ k Hwf) as Hb.
    pose proof (HashProofs.bucket_NoDup hash _ _ _ Hwf Hb) as Hnd.
    pose proof Hwf as (Hlen & Hpos & Hplace & Hndk & Hsize).
    unfold StorageEngine.get_expiring, HashTable.get_expiring.
    rewrite Hi, Hexp. simpl. split; [done|]. split.
    + intros e'. unfold HashInv.entries at 1. simpl.
      rewrite HashProofs.elem_of_join_insert by (by eapply lookup_lt_Some).
      rewrite (HashProofs.elem_of_delete_NoDup _ _ e) by done.
      rewrite (HashProofs.elem_of_entries (StorageEngine.hash_table_ st) e'). split.
      * intros [[He' Hne]|(j & b & Hj & Hbj & He')]; [by eauto|].
        split; [by eauto|]. intros ->.
        apply Hj. rewrite <- (Hplace _ _ _ Hbj He'). by rewrite Hk.
      * intros [(j & b & Hbj & He') Hne].
        destruct (decide (j = HashTable.hash_function hash (StorageEngine.hash_table_ st) k))
          as [->|Hj].
        -- left. rewrite Hb in Hbj. by injection Hbj as <-.
        -- right. eauto.
    + unfold StorageEngine.dbsize, HashTable.size. simpl.
      rewrite Hsize. unfold size_decr. by rewrite Zminus_mod_idemp_l.
Qed.

(** Every engine state reachable by commands has a well-formed table. *)
Lemma reachable_table_wf (hash : string -> nat) (cmds : list Trace.command) :
  HashInv.wf hash (StorageEngine.hash_table_ (Trace.run hash cmds)).
Proof.
  unfold Trace.run. induction cmds as [|c cmds IH] using rev_ind.
  - simpl. apply HashProofs.new_wf. lia.
  - rewrite foldl_app. simpl.
    set (st := foldl (Trace.step hash) StorageEngine.new cmds) in *.
    destruct c; simpl.
    + unfold StorageEngine.set.
      pose proof (HashProofs.store_wf hash _ k (Value_of_string v) None IH) as Hw.
      unfold HashTable.set. by destruct (HashTable.store _ _ _ _ _).
    + unfold StorageEngine.set_nx. destruct (HashTable.exists_ _ _ _); [done|].
      unfold StorageEngine.set.
      pose proof (HashProofs.store_wf hash _ k (Value_of_string v) None IH) as Hw.
      unfold HashTable.set. by destruct (HashTable.store _ _ _ _ _).
    + unfold StorageEngine.set_ex, HashTable.set_with_expiry.
      pose proof (HashProofs.store_wf hash _ k (Value_of_string v) (Some (after now1 ttl)) IH) as Hw.
      destruct (HashTable.store _ _ _ _ _) as [[] tb]; done.
    + unfold StorageEngine.del.
      pose proof (HashProofs.del_wf hash _ k IH) as Hw.
      destruct (HashTable.del _ _ _) as [[] tb]; done.
    + unfold StorageEngine.expire. destruct (negb _); [done|].
      pose proof (HashProofs.expire_wf hash _ k ttl now1 IH) as Hw.
      destruct (HashTable.expire _ _ _ _ _) as [[] tb]; done.
    + unfold StorageEngine.zadd, StorageEngine.get_sorted_set.
      destruct (HashTable.get hash (StorageEngine.hash_table_ st) k) as [v|].
      * destruct (is_sorted_set v); [|done].
        destruct (get_sorted_set_ptr v) as [ptr|]; [|done].
        destruct (StorageEngine.sorted_sets_ st !! ptr); [|done].
        by destruct (SortedSet.add _ _ _).
      * pose proof (HashProofs.store_wf hash _ k
                      (set_sorted_set_ptr Value_default (map_size (StorageEngine.sorted_sets_ st)))
                      None IH) as Hw.
        unfold HashTable.set. destruct (HashTable.store _ _ _ _ _) as [r tb]. simpl.
        rewrite lookup_insert_eq. by destruct (SortedSet.add _ _ _).
    + unfold StorageEngine.zrem, StorageEngine.get_sorted_set.
      destruct (HashTable.get hash (StorageEngine.hash_table_ st) k) as [v|]; [|done].
      destruct (is_sorted_set v); [|done].
      destruct (get_sorted_set_ptr v) as [ptr|]; [|done].
      destruct (StorageEngine.sorted_sets_ st !! ptr); [|done].
      by destruct (SortedSet.remove _ _).
    + by apply HashProofs.clear_wf.
    + unfold StorageEngine.process_expired_keys.
      destruct (TTLHeap.get_expired_keys now (StorageEngine.ttl_heap_ st)) as [ks h]. simpl.
      clearbody st. revert IH. generalize (StorageEngine.hash_table_ st).
      induction ks as [|k0 ks IHk]; intros tb Htb; [done|].
      simpl. apply IHk. by apply HashProofs.del_wf.
Qed.
(** * Commands on a key of the other type *)
Section Commands.
Variable hash : string -> nat.
Variable stod : string -> option float.

Lemma zadd_on_other_type st k v member score :
  HashTable.get hash (StorageEngine.hash_table_ st) k = Some v ->
  is_sorted_set v = false ->
  StorageEngine.zadd hash st k member score = (false, st).
Proof.
  intros Hg Hs. unfold StorageEngine.zadd, StorageEngine.get_sorted_set.
  by rewrite Hg, Hs.
Qed.

Lemma cmd_zadd_loop_other_type st k v ps added :
  HashTable.get hash (StorageEngine.hash_table_ st) k = Some v ->
  is_sorted_set v = false ->
  Forall (fun p : string * string => is_Some (stod p.1)) ps ->
  CommandHandler.cmd_zadd_loop hash stod (flat_map (fun p => [p.1; p.2]) ps) k added st
  = (CommandHandler.create_integer added, st).
Proof.
  intros Hg Hs. induction 1 as [|[sc m] ps [score Hsc] _ IH]; [done|].
  simpl in *. rewrite Hsc.
  by rewrite (zadd_on_other_type st k v m score Hg Hs).
Qed.

Lemma flat_map_pairs_length (ps : list (string * string)) :
  length (flat_map (fun p => [p.1; p.2]) ps) = (2 * length ps)%nat.
Proof. induction ps as [|p ps IH]; simpl; lia. Qed.

End Commands.

(** C5, amended: there is no wrong-type error. [ZADD] on a key that holds
    a string adds nothing, answers the integer 0 and leaves the engine as
    it was; [GET] on a key that holds a sorted set answers nil. *)
Theorem wrong_type_is_silent (hash : string -> nat) (stod : string -> option float)
    (st : StorageEngine.t) (k : string) (v : Value) :
  HashTable.get hash (StorageEngine.hash_table_ st) k = Some v ->
  (type_ v = STRING ->
   forall p ps, Forall (fun p : string * string => is_Some (stod p.1)) (p :: ps) ->
     CommandHandler.cmd_zadd hash stod
       ("zadd" :: k :: flat_map (fun p => [p.1; p.2]) (p :: ps)) st
     = (CommandHandler.create_integer 0, st))
  /\ (type_ v = SORTED_SET ->
      CommandHandler.cmd_get hash ["get"; k] st = CommandHandler.create_nil).
Proof.
  intros Hg. split.
  - intros Ht p ps Hps. unfold CommandHandler.cmd_zadd.
    assert (is_sorted_set v = false) as Hs.
    { unfold is_sorted_set. rewrite Ht. done. }
    pose proof (flat_map_pairs_length (p :: ps)) as Hlen.
    cbn [length] in *. rewrite Hlen.
    rewrite bool_decide_eq_false_2 by lia.
    replace (S (S (2 * S (length ps)))) with (2 * (2 + length ps))%nat by lia.
    rewrite Nat.even_mul. cbn [Nat.even orb negb drop].
    unfold CommandHandler.arg. cbn [lookup list_lookup default].
    by eapply cmd_zadd_loop_other_type.
  - intros Ht. unfold CommandHandler.cmd_get, StorageEngine.get, CommandHandler.arg.
    simpl. rewrite Hg. unfold is_string. rewrite Ht. done.
Qed.

(** * Runs *)

(** C1: after [add(a, 1)] and [add(b, 1)] the tree has lost the entry of
    [a]: the invariant R1 fails, [rank(a)] finds nothing, and the tree
    holds one entry for two members. *)
Theorem tied_scores_break_R1 :
  ~ R1 Runs.tied
  /\ SortedSet.get_score Runs.tied "a" = Some 1%float
  /\ AVLTree.get_all (SortedSet.score_tree_ Runs.tied) = [(1%float, "b")]
  /\ SortedSet.rank Runs.tied "a" = None
  /\ SortedSet.size Runs.tied = 2
  /\ AVLTree.size (SortedSet.score_tree_ Runs.tied) = 1.
Proof.
  split.
  - intros H. specialize (H "a" 1%float). destruct H as [H _].
    assert ((1%float, "a") ∈ AVLTree.get_all (SortedSet.score_tree_ Runs.tied)) as Hin.
    { apply H. vm_compute. reflexivity. }
    vm_compute in Hin. apply list_elem_of_singleton in Hin. discriminate.
  - repeat split; vm_compute; reflexivity.
Qed.

(** C6: [remove] of an interior key sifts down only. Removing [d] from the
    heap of seven keys moves [g] (expiry 4) under [b] (expiry 10). *)
Theorem remove_breaks_heap_order :
  HeapInv.invariant Runs.seven
  /\ TTLHeap.heap_ (TTLHeap.remove Runs.seven "d") !! 1%nat = Some (TTLHeap.mkEntry "b" 10)
  /\ TTLHeap.heap_ (TTLHeap.remove Runs.seven "d") !! 3%nat = Some (TTLHeap.mkEntry "g" 4)
  /\ ~ HeapInv.heap_order (TTLHeap.heap_ (TTLHeap.remove Runs.seven "d")).
Proof.
  split; [split|].
  - apply HeapProofs.heap_order_check_correct. vm_compute. reflexivity.
  - apply HeapProofs.pos_bijection_check_correct. vm_compute. reflexivity.
  - split; [vm_compute; reflexivity|]. split; [vm_compute; reflexivity|].
    intros H.
    specialize (H 3%nat (TTLHeap.mkEntry "g" 4) (TTLHeap.mkEntry "b" 10)).
    assert (10 <= 4) as Hbad; [|lia].
    apply H; [lia | vm_compute; reflexivity | vm_compute; reflexivity].
Qed.

(** C3: [set] clears the expiry of the entry and leaves the key in the
    heap, in every state; after [SET k v EX 1] and [SET k w] the next pass
    of the expiry thread deletes the key. *)
Theorem set_leaves_key_scheduled :
  (forall hash st k v,
     StorageEngine.ttl_heap_ (StorageEngine.set hash st k v).2 = StorageEngine.ttl_heap_ st)
  /\ StorageEngine.get hash_length Runs.set_after_setex "k" = Some "w"
  /\ TTLHeap.next_expiry (StorageEngine.ttl_heap_ Runs.set_after_setex)
     = Some (1 * ticks_per_second)
  /\ StorageEngine.get hash_length
       (StorageEngine.process_expired_keys hash_length Runs.set_after_setex
          (2 * ticks_per_second)) "k" = None
  /\ StorageEngine.dbsize
       (StorageEngine.process_expired_keys hash_length Runs.set_after_setex
          (2 * ticks_per_second)) = 0.
Proof.
  split.
  - intros hash st k v. unfold StorageEngine.set.
    by destruct (HashTable.set hash (StorageEngine.hash_table_ st) k (Value_of_string v)).
  - repeat split; vm_compute; reflexivity.
Qed.

(** C4: [TTL] of a key set without expiry answers 0, and no state makes it
    answer -1; a key given ten seconds also answers 0. *)
Theorem ttl_is_a_stub :
  CommandHandler.cmd_ttl hash_length ["ttl"; "k"] Runs.with_string
    = CommandHandler.create_integer 0
  /\ CommandHandler.cmd_ttl hash_length ["ttl"; "k"]
       (StorageEngine.set_ex hash_length Runs.fresh "k" "v" 10 0 0).2
     = CommandHandler.create_integer 0
  /\ forall hash st k,
       CommandHandler.cmd_ttl hash ["ttl"; k] st = CommandHandler.create_integer (-2)
       \/ CommandHandler.cmd_ttl hash ["ttl"; k] st = CommandHandler.create_integer 0.
Proof.
  split; [vm_compute; reflexivity|]. split; [vm_compute; reflexivity|].
  intros hash st k. unfold CommandHandler.cmd_ttl, StorageEngine.ttl, StorageEngine.exists_.
  cbn [length bool_decide decide_rel]. rewrite bool_decide_eq_false_2 by (intros H; by apply H).
  unfold CommandHandler.arg. simpl.
  destruct (HashTable.exists_ hash (StorageEngine.hash_table_ st) k); simpl; auto.
Qed.

(** [NaN != x] holds for every [x], so [add] with a NaN score always
    reports a change. *)
Lemma double_ne_nan (x : float) : double_ne x nan = true.
Proof.
  unfold double_ne. rewrite FloatAxioms.eqb_spec.
  change (Prim2SF nan) with S754_nan.
  unfold SFeqb, SFcompare. by destruct (Prim2SF x).
Qed.

(** C8: [ZADD s nan x] is answered with the integer 1. The member map
    gains [x] and the tree node of [b] now carries [x]. No sorted set
    refuses a NaN score. *)
Theorem zadd_nan_is_accepted :
  (forall zs member, (SortedSet.add zs member nan).1 = true)
  /\ (CommandHandler.cmd_zadd hash_length Stod.stod ["zadd"; "s"; "nan"; "x"] Runs.with_zset).1
    = CommandHandler.create_integer 1
  /\ StorageEngine.zcard hash_length Runs.with_zset "s" = 3
  /\ StorageEngine.zcard hash_length
       (CommandHandler.cmd_zadd hash_length Stod.stod ["zadd"; "s"; "nan"; "x"] Runs.with_zset).2
       "s" = 4
  /\ StorageEngine.zrangebyscore hash_length Runs.with_zset "s" neg_infinity infinity
     = [("a", 1%float); ("b", 2%float); ("c", 3%float)]
  /\ StorageEngine.zrangebyscore hash_length
       (CommandHandler.cmd_zadd hash_length Stod.stod ["zadd"; "s"; "nan"; "x"] Runs.with_zset).2
       "s" neg_infinity infinity
     = [("a", 1%float); ("x", 2%float); ("c", 3%float)].
Proof.
  split.
  - intros zs member. unfold SortedSet.add.
    destruct (SortedSet.member_scores_ zs !! member) as [old|]; [|done].
    by rewrite double_ne_nan.
  - repeat split; vm_compute; reflexivity.
Qed.

(** Counterexample to C5: [ZADD] on a key holding a string answers the
    integer 0 and [GET] on a key holding a sorted set answers nil. *)
Lemma wrong_type_is_not_an_error :
  (CommandHandler.cmd_zadd hash_length Stod.stod ["zadd"; "k"; "5"; "a"] Runs.with_string).1
    = CommandHandler.create_integer 0
  /\ CommandHandler.cmd_get hash_length ["get"; "s"] Runs.with_zset
     = CommandHandler.create_nil.
Proof. split; vm_compute; reflexivity. Qed.

(** Counterexample to C9: [ZADD s 5 a] on a set that holds [a] with score 1
    answers the integer 1. *)
Lemma zadd_update_answers_one :
  StorageEngine.zscore hash_length Runs.with_zset "s" "a" = Some 1%float
  /\ (CommandHandler.cmd_zadd hash_length Stod.stod ["zadd"; "s"; "5"; "a"] Runs.with_zset).1
     = CommandHandler.create_integer 1
  /\ CommandHandler.serialize
       (CommandHandler.cmd_zadd hash_length Stod.stod ["zadd"; "s"; "5"; "a"] Runs.with_zset).1
     = ":1" +:+ CommandHandler.CRLF.
Proof. repeat split; vm_compute; reflexivity. Qed.
(** * Instances of the general theorems *)

Lemma get_expired_keys_drains_witness :
  exists es,
    (TTLHeap.get_expired_keys 5 Runs.seven).1 = TTLHeap.key <$> es
    /\ es ≡ₚ filter (fun e => TTLHeap.expiry e <= 5) (TTLHeap.heap_ Runs.seven)
    /\ StronglySorted (fun a b => TTLHeap.expiry a <= TTLHeap.expiry b) es
    /\ TTLHeap.heap_ (TTLHeap.get_expired_keys 5 Runs.seven).2
         ≡ₚ filter (fun e => 5 < TTLHeap.expiry e) (TTLHeap.heap_ Runs.seven)
    /\ HeapInv.heap_order (TTLHeap.heap_ (TTLHeap.get_expired_keys 5 Runs.seven).2)
    /\ (forall t, TTLHeap.next_expiry (TTLHeap.get_expired_keys 5 Runs.seven).2 = Some t ->
          5 < t
          /\ forall e, e ∈ TTLHeap.heap_ (TTLHeap.get_expired_keys 5 Runs.seven).2 ->
                t <= TTLHeap.expiry e).
Proof.
  apply (get_expired_keys_drains Runs.seven 5).
  apply HeapProofs.heap_order_check_correct. vm_compute. reflexivity.
Defined.

Lemma get_returns_live_string_witness :
  (StorageEngine.get_expiring hash_length Runs.with_expiry "k" (2 * ticks_per_second)).1 = None
  /\ StorageEngine.dbsize
       (StorageEngine.get_expiring hash_length Runs.with_expiry "k" (2 * ticks_per_second)).2
     = 0
  /\ StorageEngine.get hash_length Runs.with_string "k" = Some "v".
Proof.
  split; [|split].
  - destruct (get_returns_live_string hash_length Runs.with_expiry "k" (2 * ticks_per_second))
      as [_ H].
    + apply HashProofs.wf_check_correct. vm_compute. reflexivity.
    + apply (H (mkEntry "k" (Value_of_string "v") (Some (1 * ticks_per_second)))).
      * replace (HashInv.entries (StorageEngine.hash_table_ Runs.with_expiry))
          with [mkEntry "k" (Value_of_string "v") (Some (1 * ticks_per_second))]
          by (vm_compute; reflexivity).
        by left.
      * reflexivity.
      * reflexivity.
  - vm_compute. reflexivity.
  - destruct (get_returns_live_string hash_length Runs.with_string "k" 0) as [H _].
    + apply HashProofs.wf_check_correct. vm_compute. reflexivity.
    + apply H.
      * intros e He _.
        replace (HashInv.entries (StorageEngine.hash_table_ Runs.with_string))
          with [mkEntry "k" (Value_of_string "v") None] in He
          by (vm_compute; reflexivity).
        apply list_elem_of_singleton in He. by subst e.
      * exists (mkEntry "k" (Value_of_string "v") None). repeat split.
        replace (HashInv.entries (StorageEngine.hash_table_ Runs.with_string))
          with [mkEntry "k" (Value_of_string "v") None]
          by (vm_compute; reflexivity).
        by left.
Defined.

Lemma wrong_type_is_silent_witness :
  CommandHandler.cmd_zadd hash_length Stod.stod ["zadd"; "k"; "5"; "a"] Runs.with_string
  = (CommandHandler.create_integer 0, Runs.with_string)
  /\ CommandHandler.cmd_get hash_length ["get"; "s"] Runs.with_zset
     = CommandHandler.create_nil.
Proof.
  split.
  - destruct (wrong_type_is_silent hash_length Stod.stod Runs.with_string "k"
                (Value_of_string "v")) as [H _].
    + vm_compute. reflexivity.
    + apply (H eq_refl ("5", "a") []).
      constructor; [|constructor]. exists 5%float. vm_compute. reflexivity.
  - destruct (wrong_type_is_silent hash_length Stod.stod Runs.with_zset "s"
                (set_sorted_set_ptr Value_default 0)) as [_ H].
    + vm_compute. reflexivity.
    + apply H. reflexivity.
Defined.

(** The hash_table.cpp of the build: [get] does not look at the expiry, an
    entry that is past its expiry is returned until the thread deletes it. *)
Lemma built_get_ignores_expiry :
  Forall (fun e => is_expired (2 * ticks_per_second) e = true)
    (HashInv.entries (StorageEngine.hash_table_ Runs.with_expiry))
  /\ StorageEngine.get hash_length Runs.with_expiry "k" = Some "v".
Proof.
  split; [|vm_compute; reflexivity].
  replace (HashInv.entries (StorageEngine.hash_table_ Runs.with_expiry))
    with [mkEntry "k" (Value_of_string "v") (Some (1 * ticks_per_second))]
    by (vm_compute; reflexivity).
  by constructor.
Qed.

(** Counterexample to C2: the key [s] has an entry, which never expires,
    and [get] returns nothing for it, in both versions. *)
Lemma get_of_sorted_set_key_is_nothing :
  Exists (fun e => key e = "s" /\ expiry e = None)
    (HashInv.entries (StorageEngine.hash_table_ Runs.with_zset))
  /\ StorageEngine.get hash_length Runs.with_zset "s" = None
  /\ (StorageEngine.get_expiring hash_length Runs.with_zset "s" 0).1 = None.
Proof.
  split; [|split; vm_compute; reflexivity].
  replace (HashInv.entries (StorageEngine.hash_table_ Runs.with_zset))
    with [mkEntry "s" (set_sorted_set_ptr Value_default 0) None]
    by (vm_compute; reflexivity).
  by left.
Qed.

(** * The order of [double], continued *)

Lemma SFcompare_finite_refl s m e :
  SFcompare (S754_finite s m e) (S754_finite s m e) = Some Eq.
Proof.
  simpl. rewrite Z.compare_refl.
  change (Pos.compare_cont Eq m m) with (Pos.compare m m).
  rewrite Pos.compare_refl. by destruct s.
Qed.

Ltac sf_compare :=
  repeat match goal with
  | H : context [Z.compare ?a ?b] |- _ => destruct (Z.compare_spec a b); subst
  | |- context [Z.compare ?a ?b] => destruct (Z.compare_spec a b); subst
  end;
  change (Pos.compare_cont Eq) with Pos.compare in *;
  repeat match goal with
  | H : context [Pos.compare ?a ?b] |- _ => destruct (Pos.compare_spec a b); subst
  | |- context [Pos.compare ?a ?b] => destruct (Pos.compare_spec a b); subst
  end;
  simpl in *; try discriminate; try reflexivity; try lia.

Lemma SF_compat_l (x y z : spec_float) :
  SFeqb z z = true -> SFltb x y = true -> SFltb y z = false -> SFltb z y = false ->
  SFltb x z = true.
Proof.
  unfold SFltb, SFeqb, SFcompare.
  destruct x as [[]|[]| |[] m1 e1], y as [[]|[]| |[] m2 e2], z as [[]|[]| |[] m3 e3];
    try reflexivity; try discriminate; intros; sf_compare.
Qed.

Lemma SF_compat_r (x y z : spec_float) :
  SFeqb z z = true -> SFltb y x = true -> SFltb y z = false -> SFltb z y = false ->
  SFltb z x = true.
Proof.
  unfold SFltb, SFeqb, SFcompare.
  destruct x as [[]|[]| |[] m1 e1], y as [[]|[]| |[] m2 e2], z as [[]|[]| |[] m3 e3];
    try reflexivity; try discriminate; intros; sf_compare.
Qed.

Lemma SF_eqv_eqb (x y : spec_float) :
  SFeqb x x = true -> SFeqb y y = true ->
  SFeqb x y = true <-> (SFltb x y = false /\ SFltb y x = false).
Proof.
  unfold SFltb, SFeqb, SFcompare.
  destruct x as [[]|[]| |[] m1 e1], y as [[]|[]| |[] m2 e2];
    try discriminate; intros; split; intros; try (split; reflexivity);
    try reflexivity; try discriminate; try (destruct H1; discriminate).
  all: try (split; sf_compare).
  all: destruct H1; sf_compare.
Qed.

Lemma SF_ltb_leb_l (x k lo : spec_float) :
  SFltb x k = true -> SFltb lo k = false -> SFleb lo x = false.
Proof.
  unfold SFltb, SFleb, SFcompare.
  destruct x as [[]|[]| |[] m1 e1], k as [[]|[]| |[] m2 e2], lo as [[]|[]| |[] m3 e3];
    try reflexivity; try discriminate; intros; sf_compare.
Qed.

Lemma SF_ltb_leb_r (x k hi : spec_float) :
  SFltb k x = true -> SFltb k hi = false -> SFleb x hi = false.
Proof.
  unfold SFltb, SFleb, SFcompare.
  destruct x as [[]|[]| |[] m1 e1], k as [[]|[]| |[] m2 e2], hi as [[]|[]| |[] m3 e3];
    try reflexivity; try discriminate; intros; sf_compare.
Qed.

Lemma SF_ltb_not_eqb (x y : spec_float) :
  SFltb x y = true -> SFeqb x y = false /\ SFeqb y x = false.
Proof.
  unfold SFltb, SFeqb, SFcompare.
  destruct x as [[]|[]| |[] m1 e1], y as [[]|[]| |[] m2 e2];
    try discriminate; intros; split; try reflexivity; sf_compare.
Qed.

Lemma SF_ltb_not_nan (x y : spec_float) :
  SFltb x y = true -> SFeqb x x = true /\ SFeqb y y = true.
Proof.
  unfold SFltb, SFeqb.
  destruct x as [[]|[]| |[] m1 e1], y as [[]|[]| |[] m2 e2];
    try discriminate; intros; split; try reflexivity;
    rewrite ?SFcompare_finite_refl; reflexivity.
Qed.

Lemma SF_leb_ltb_eqb (x y : spec_float) :
  SFleb x y = true <-> (SFltb x y = true \/ SFeqb x y = true).
Proof.
  unfold SFltb, SFeqb, SFleb.
  destruct (SFcompare x y) as [[]|]; intuition discriminate.
Qed.

Lemma double_compat_l (x y z : float) :
  not_nan z -> double_lt x y = true -> double_lt y z = false -> double_lt z y = false ->
  double_lt x z = true.
Proof. unfold not_nan, double_lt, double_eq. rewrite !ltb_spec, FloatAxioms.eqb_spec. apply SF_compat_l. Qed.

Lemma double_compat_r (x y z : float) :
  not_nan z -> double_lt y x = true -> double_lt y z = false -> double_lt z y = false ->
  double_lt z x = true.
Proof. unfold not_nan, double_lt, double_eq. rewrite !ltb_spec, FloatAxioms.eqb_spec. apply SF_compat_r. Qed.

Lemma double_eq_iff (x y : float) :
  not_nan x -> not_nan y ->
  double_eq x y = true <-> (double_lt x y = false /\ double_lt y x = false).
Proof. unfold not_nan, double_lt, double_eq. rewrite !ltb_spec, !FloatAxioms.eqb_spec. apply SF_eqv_eqb. Qed.

Lemma double_lt_le_l (x k lo : float) :
  double_lt x k = true -> double_lt lo k = false -> double_le lo x = false.
Proof. unfold double_lt, double_le. rewrite !ltb_spec, leb_spec. apply SF_ltb_leb_l. Qed.

Lemma double_lt_le_r (x k hi : float) :
  double_lt k x = true -> double_lt k hi = false -> double_le x hi = false.
Proof. unfold double_lt, double_le. rewrite !ltb_spec, leb_spec. apply SF_ltb_leb_r. Qed.

Lemma double_lt_not_eq (x y : float) :
  double_lt x y = true -> double_eq x y = false /\ double_eq y x = false.
Proof. unfold double_lt, double_eq. rewrite !ltb_spec, !FloatAxioms.eqb_spec. apply SF_ltb_not_eqb. Qed.

Lemma double_lt_not_nan (x y : float) :
  double_lt x y = true -> not_nan x /\ not_nan y.
Proof. unfold not_nan, double_lt, double_eq. rewrite !ltb_spec, !FloatAxioms.eqb_spec. apply SF_ltb_not_nan. Qed.

Lemma double_le_iff (x y : float) :
  double_le x y = true <-> (double_lt x y = true \/ double_eq x y = true).
Proof. unfold double_lt, double_eq, double_le. rewrite !ltb_spec, leb_spec, FloatAxioms.eqb_spec. apply SF_leb_ltb_eqb. Qed.

(** * The AVL tree as a map *)
Module AVLMap.
Import AVLTree AVLInv.
Section AVLMap.
Context {K V : Type}.
Variable ltb : K -> K -> bool.
Hypothesis ltb_irrefl : forall x, ltb x x = false.
Hypothesis ltb_trans : forall x y z, ltb x y = true -> ltb y z = true -> ltb x z = true.

Abbreviation Node := (AVLTree.Node K V).
Implicit Types n l r : Node.

Abbreviation eqv := (AVLOrder.eqv ltb).
Abbreviation compat := (AVLOrder.compat ltb).

Lemma eqv_refl x : eqv x x.
Proof. split; apply ltb_irrefl. Qed.

Lemma elem_inorder_keys n k v : (k, v) ∈ inorder_traversal n -> k ∈ keys n.
Proof. intros H. unfold keys. by apply (list_elem_of_fmap_2 fst) in H. Qed.

Lemma inorder_node k v h l r (p : K * V) :
  p ∈ inorder_traversal (node k v h l r)
  <-> p ∈ inorder_traversal l \/ p = (k, v) \/ p ∈ inorder_traversal r.
Proof. simpl. by rewrite elem_of_app, elem_of_cons. Qed.

Lemma sorted_trichotomy (l : list K) x y :
  StronglySorted (fun a b => ltb a b = true) l -> x ∈ l -> y ∈ l ->
  x = y \/ ltb x y = true \/ ltb y x = true.
Proof.
  induction 1 as [|a l Hs IH Ha]; [by intros ?%elem_of_nil|].
  rewrite Forall_forall in Ha.
  intros [->|Hx]%elem_of_cons [->|Hy]%elem_of_cons; auto.
Qed.

Lemma keys_NoDup n : bst ltb n -> NoDup (keys n).
Proof.
  intros Hs%(AVLProofs.bst_sorted ltb ltb_trans).
  induction Hs as [|a l Hs IH Ha]; constructor; [|done].
  rewrite Forall_forall in Ha. intros Hin%Ha. by rewrite ltb_irrefl in Hin.
Qed.

Lemma NoDup_fst_functional (l : list (K * V)) k v w :
  NoDup (l.*1) -> (k, v) ∈ l -> (k, w) ∈ l -> v = w.
Proof.
  induction l as [|[a b] l IH]; [by intros _ ?%elem_of_nil|].
  simpl. intros [Hn Hd]%NoDup_cons [[= -> ->]|Hv]%elem_of_cons [[= ->]|Hw]%elem_of_cons; auto.
  - destruct Hn. by apply (list_elem_of_fmap_2 fst) in Hw.
  - destruct Hn. by apply (list_elem_of_fmap_2 fst) in Hv.
Qed.

Lemma inorder_functional n k v w :
  bst ltb n -> (k, v) ∈ inorder_traversal n -> (k, w) ∈ inorder_traversal n -> v = w.
Proof. intros Hb. apply NoDup_fst_functional. by apply keys_NoDup. Qed.

Lemma inorder_NoDup n : bst ltb n -> NoDup (inorder_traversal n).
Proof. intros Hb%keys_NoDup. by eapply NoDup_fmap_1. Qed.

(** At most one key of a search tree is equivalent to a compatible key. *)
Lemma eqv_unique n key x y :
  bst ltb n -> compat key -> x ∈ keys n -> y ∈ keys n ->
  eqv x key -> eqv y key -> x = y.
Proof.
  intros Hs%(AVLProofs.bst_sorted ltb ltb_trans) [Hc _] Hx Hy Ex Ey.
  destruct (sorted_trichotomy _ x y Hs Hx Hy) as [?|[Hlt|Hlt]]; [done| |].
  - apply Hc in Hlt; [|done]. destruct Ex. congruence.
  - apply Hc in Hlt; [|done]. destruct Ey. congruence.
Qed.

(** ** find *)
Lemma find_node_elem n key k v :
  find_node ltb n key = Some (k, v) -> (k, v) ∈ inorder_traversal n /\ eqv k key.
Proof.
  induction n as [|k0 v0 h l IHl r IHr]; [done|].
  simpl. destruct (ltb key k0) eqn:E1; [|destruct (ltb k0 key) eqn:E2].
  - intros [? ?]%IHl. split; [|done]. rewrite elem_of_app. by left.
  - intros [? ?]%IHr. split; [|done]. rewrite elem_of_app, elem_of_cons. auto.
  - intros [= -> ->]. split; [|done]. rewrite elem_of_app, elem_of_cons. auto.
Qed.

Lemma find_node_None n key x :
  bst ltb n -> compat key -> find_node ltb n key = None -> x ∈ keys n -> ~ eqv x key.
Proof.
  intros Hb [Hc1 Hc2]. induction n as [|k0 v0 h l IHl r IHr]; [by intros _ ?%elem_of_nil|].
  destruct Hb as (Hl & Hr & Hlk & Hkr). rewrite Forall_forall in Hlk, Hkr.
  simpl. rewrite AVLProofs.keys_node, elem_of_app, elem_of_cons.
  destruct (ltb key k0) eqn:E1; [|destruct (ltb k0 key) eqn:E2; [|done]].
  - intros Hf [Hx|[->|Hx]] He.
    + by apply (IHl Hl Hf Hx).
    + destruct He. congruence.
    + apply Hkr in Hx. apply Hc1 in Hx; [|done].
      pose proof (ltb_trans _ _ _ Hx E1). by rewrite ltb_irrefl in *.
  - intros Hf [Hx|[->|Hx]] He.
    + apply Hlk in Hx. apply Hc2 in Hx; [|done].
      pose proof (ltb_trans _ _ _ Hx E2). by rewrite ltb_irrefl in *.
    + destruct He. congruence.
    + by apply (IHr Hr Hf Hx).
Qed.

Lemma find_node_Some_iff n key k v :
  bst ltb n -> compat key ->
  find_node ltb n key = Some (k, v) <-> ((k, v) ∈ inorder_traversal n /\ eqv k key).
Proof.
  intros Hb Hc. split; [apply find_node_elem|].
  intros [Hin He].
  destruct (find_node ltb n key) as [[k' v']|] eqn:Ef.
  - apply find_node_elem in Ef as [Hin' He'].
    assert (k' = k) as -> by (eapply eqv_unique; eauto using elem_inorder_keys).
    by rewrite (inorder_functional n k v v' Hb Hin Hin').
  - exfalso. eapply find_node_None; eauto using elem_inorder_keys.
Qed.

Lemma find_node_None_iff n key :
  bst ltb n -> compat key ->
  find_node ltb n key = None <-> (forall x, x ∈ keys n -> ~ eqv x key).
Proof.
  intros Hb Hc. split; [intros ? ?; by eapply find_node_None|].
  intros Hno. destruct (find_node ltb n key) as [[k v]|] eqn:Ef; [|done].
  apply find_node_elem in Ef as [Hin He]. destruct (Hno k); eauto using elem_inorder_keys.
Qed.

(** ** insert *)
Lemma insert_node_elem_inv n key value s (p : K * V) :
  p ∈ inorder_traversal (insert_node ltb n key value s).1 ->
  p ∈ inorder_traversal n \/ p = (key, value)
  \/ (p.2 = value /\ p.1 ∈ keys n /\ eqv p.1 key).
Proof.
  induction n as [|k v h l IHl r IHr]; simpl.
  - intros ->%list_elem_of_singleton. auto.
  - destruct (ltb key k) eqn:E1; [|destruct (ltb k key) eqn:E2].
    + destruct (insert_node ltb l key value s) as [l' s']. simpl in *.
      rewrite AVLProofs.balance_inorder, inorder_node, AVLProofs.keys_node.
      rewrite !elem_of_app, !elem_of_cons. intuition auto.
    + destruct (insert_node ltb r key value s) as [r' s']. simpl in *.
      rewrite AVLProofs.balance_inorder, inorder_node, AVLProofs.keys_node.
      rewrite !elem_of_app, !elem_of_cons. intuition auto.
    + simpl. rewrite AVLProofs.keys_node, !elem_of_app, !elem_of_cons.
      intros [?|[->|?]]; auto. right; right. simpl. split; [done|]. split; [auto|done].
Qed.

Lemma insert_node_elem_keep n key value s (p : K * V) :
  p ∈ inorder_traversal n -> ~ eqv p.1 key ->
  p ∈ inorder_traversal (insert_node ltb n key value s).1.
Proof.
  induction n as [|k v h l IHl r IHr]; simpl; [by intros ?%elem_of_nil|].
  destruct (ltb key k) eqn:E1; [|destruct (ltb k key) eqn:E2].
  - destruct (insert_node ltb l key value s) as [l' s']. simpl in *.
    rewrite AVLProofs.balance_inorder, inorder_node.
    rewrite !elem_of_app, !elem_of_cons. intuition auto.
  - destruct (insert_node ltb r key value s) as [r' s']. simpl in *.
    rewrite AVLProofs.balance_inorder, inorder_node.
    rewrite !elem_of_app, !elem_of_cons. intuition auto.
  - simpl. rewrite !elem_of_app, !elem_of_cons.
    intros [?|[->|?]] Hne; auto. destruct Hne. done.
Qed.

(** ** remove *)
Lemma remove_node_elem_inv n key s (p : K * V) :
  p ∈ inorder_traversal (remove_node ltb n key s).1 -> p ∈ inorder_traversal n.
Proof.
  revert key. induction n as [|k v h l IHl r IHr]; intros key; [done|].
  simpl. destruct (ltb key k); [|destruct (ltb k key)].
  - specialize (IHl key).
    destruct (remove_node ltb l key s) as [l' s'] eqn:E. simpl in *.
    rewrite AVLProofs.balance_inorder, inorder_node, !elem_of_app, !elem_of_cons.
    intuition auto.
  - specialize (IHr key).
    destruct (remove_node ltb r key s) as [r' s'] eqn:E. simpl in *.
    rewrite AVLProofs.balance_inorder, inorder_node, !elem_of_app, !elem_of_cons.
    intuition auto.
  - destruct l as [|lk lv lh ll lr] eqn:El, r as [|rk rv rh rl rr] eqn:Er.
    + by intros ?%elem_of_nil.
    + simpl fst. intros Hp. rewrite elem_of_app, elem_of_cons. auto.
    + simpl fst. intros Hp. rewrite elem_of_app, elem_of_cons. auto.
    + rewrite <- El, <- Er in *. clear El Er.
      destruct (find_min r) as [[sk sv]|] eqn:Em; [|by simpl].
      specialize (IHr sk).
      rewrite AVLProofs.find_min_inorder in Em.
      destruct (remove_node ltb r sk s) as [r' s'] eqn:E. simpl in *.
      rewrite AVLProofs.balance_inorder, inorder_node, !elem_of_app, !elem_of_cons.
      intros [?|[->|?]]; auto. right; right.
      destruct (inorder_traversal r) as [|q rest]; [done|].
      injection Em as ->. by left.
Qed.

Lemma remove_node_elem_keep n key s (p : K * V) :
  bst ltb n -> p ∈ inorder_traversal n -> ~ eqv p.1 key ->
  p ∈ inorder_traversal (remove_node ltb n key s).1.
Proof.
  revert key. induction n as [|k v h l IHl r IHr]; intros key Hb; [done|].
  destruct Hb as (Hl & Hr & Hlk & Hkr).
  simpl. destruct (ltb key k) eqn:E1; [|destruct (ltb k key) eqn:E2].
  - specialize (IHl key Hl).
    destruct (remove_node ltb l key s) as [l' s'] eqn:E. simpl in *.
    rewrite AVLProofs.balance_inorder, inorder_node, !elem_of_app, !elem_of_cons.
    intuition auto.
  - specialize (IHr key Hr).
    destruct (remove_node ltb r key s) as [r' s'] eqn:E. simpl in *.
    rewrite AVLProofs.balance_inorder, inorder_node, !elem_of_app, !elem_of_cons.
    intuition auto.
  - rewrite elem_of_app, elem_of_cons.
    intros Hp Hne.
    assert (p ∈ inorder_traversal l \/ p ∈ inorder_traversal r) as Hp'.
    { destruct Hp as [?|[->|?]]; auto. destruct Hne. done. }
    clear Hp.
    destruct l as [|lk lv lh ll lr] eqn:El, r as [|rk rv rh rl rr] eqn:Er.
    + destruct Hp' as [Hp|Hp]; by apply elem_of_nil in Hp.
    + simpl fst. destruct Hp' as [Hp|Hp]; [by apply elem_of_nil in Hp | done].
    + simpl fst. destruct Hp' as [Hp|Hp]; [done | by apply elem_of_nil in Hp].
    + assert (r <> null) as Hnn by (by rewrite Er).
      rewrite <- El, <- Er in *. clear El Er.
      destruct (find_min r) as [[sk sv]|] eqn:Em.
      * pose proof (AVLProofs.remove_min_inorder ltb ltb_irrefl r sk sv s Hr Em) as Hin.
        rewrite AVLProofs.find_min_inorder in Em.
        destruct (remove_node ltb r sk s) as [r' s'] eqn:E. simpl in *.
        rewrite AVLProofs.balance_inorder, inorder_node, Hin.
        destruct Hp' as [?|Hp]; [auto|].
        destruct (inorder_traversal r) as [|q rest]; [done|].
        injection Em as ->. simpl.
        apply elem_of_cons in Hp as [->|?]; auto.
      * rewrite AVLProofs.find_min_inorder in Em.
        apply AVLProofs.inorder_nonnull in Hnn.
        by destruct (inorder_traversal r).
Qed.

Lemma remove_node_gone n key s x :
  bst ltb n -> compat key -> x ∈ keys (remove_node ltb n key s).1 -> ~ eqv x key.
Proof.
  intros Hb [Hc1 Hc2]. revert Hb. induction n as [|k v h l IHl r IHr]; intros Hb;
    [by intros ?%elem_of_nil|].
  destruct Hb as (Hl & Hr & Hlk & Hkr). rewrite Forall_forall in Hlk, Hkr.
  assert (forall y, y ∈ keys r -> ltb key k = true -> ~ eqv y key) as Hright.
  { intros y Hy E1 He. apply Hkr in Hy. apply Hc1 in Hy; [|done].
    pose proof (ltb_trans _ _ _ Hy E1). by rewrite ltb_irrefl in *. }
  assert (forall y, y ∈ keys l -> ltb k key = true -> ~ eqv y key) as Hleft.
  { intros y Hy E2 He. apply Hlk in Hy. apply Hc2 in Hy; [|done].
    pose proof (ltb_trans _ _ _ Hy E2). by rewrite ltb_irrefl in *. }
  assert (forall y, y ∈ keys r -> eqv k key -> ~ eqv y key) as Hright'.
  { intros y Hy Hk He. apply Hkr in Hy. apply Hc2 in Hy; [|done].
    destruct He. congruence. }
  assert (forall y, y ∈ keys l -> eqv k key -> ~ eqv y key) as Hleft'.
  { intros y Hy Hk He. apply Hlk in Hy. apply Hc1 in Hy; [|done].
    destruct He. congruence. }
  simpl. destruct (ltb key k) eqn:E1; [|destruct (ltb k key) eqn:E2].
  - specialize (IHl Hl).
    destruct (remove_node ltb l key s) as [l' s'] eqn:E. simpl in *.
    rewrite AVLProofs.balance_keys, AVLProofs.keys_node, !elem_of_app, !elem_of_cons.
    intros [?|[->|?]]; auto. intros [? ?]; congruence.
  - specialize (IHr Hr).
    destruct (remove_node ltb r key s) as [r' s'] eqn:E. simpl in *.
    rewrite AVLProofs.balance_keys, AVLProofs.keys_node, !elem_of_app, !elem_of_cons.
    intros [?|[->|?]]; auto. intros [? ?]; congruence.
  - assert (eqv k key) as Hk by done.
    destruct l as [|lk lv lh ll lr] eqn:El, r as [|rk rv rh rl rr] eqn:Er.
    + by intros ?%elem_of_nil.
    + simpl fst. auto.
    + simpl fst. auto.
    + assert (r <> null) as Hnn by (by rewrite Er).
      rewrite <- El, <- Er in *. clear El Er.
      destruct (find_min r) as [[sk sv]|] eqn:Em.
      * pose proof (AVLProofs.remove_node_keys ltb r sk s) as Hsub.
        apply AVLProofs.find_min_key in Em.
        destruct (remove_node ltb r sk s) as [r' s'] eqn:E. simpl in *.
        rewrite AVLProofs.balance_keys, AVLProofs.keys_node, !elem_of_app, !elem_of_cons.
        intros [?|[->|?]]; auto.
      * rewrite AVLProofs.find_min_inorder in Em.
        apply AVLProofs.inorder_nonnull in Hnn.
        by destruct (inorder_traversal r).
Qed.
(** ** The result of remove *)
Lemma find_min_found n sk sv :
  bst ltb n -> find_min n = Some (sk, sv) -> find_node ltb n sk = Some (sk, sv).
Proof.
  induction n as [|k v h l IHl r IHr]; [done|].
  intros (Hl & Hr & Hlk & Hkr) Hm.
  assert (l = null \/ l <> null) as [->|Hnn] by (destruct l; [by left | by right]).
  - simpl in Hm. injection Hm as -> ->. simpl. by rewrite ltb_irrefl.
  - rewrite AVLProofs.find_min_node in Hm by done.
    assert (ltb sk k = true) as Hlt.
    { rewrite Forall_forall in Hlk. apply Hlk. by eapply AVLProofs.find_min_key. }
    simpl. rewrite Hlt. auto.
Qed.

Lemma remove_node_size n key s :
  bst ltb n ->
  (remove_node ltb n key s).2
  = match find_node ltb n key with Some _ => size_decr s | None => s end.
Proof.
  revert key. induction n as [|k v h l IHl r IHr]; intros key Hb; [done|].
  destruct Hb as (Hl & Hr & Hlk & Hkr).
  simpl. destruct (ltb key k) eqn:E1; [|destruct (ltb k key) eqn:E2].
  - specialize (IHl key Hl).
    by destruct (remove_node ltb l key s) as [l' s'] eqn:E.
  - specialize (IHr key Hr).
    by destruct (remove_node ltb r key s) as [r' s'] eqn:E.
  - destruct l as [|lk lv lh ll lr] eqn:El, r as [|rk rv rh rl rr] eqn:Er; [done..|].
    assert (r <> null) as Hnn by (by rewrite Er).
    rewrite <- El, <- Er in *. clear El Er.
    destruct (find_min r) as [[sk sv]|] eqn:Em.
    + specialize (IHr sk Hr). rewrite (find_min_found r sk sv Hr Em) in IHr.
      by destruct (remove_node ltb r sk s) as [r' s'] eqn:E.
    + rewrite AVLProofs.find_min_inorder in Em.
      apply AVLProofs.inorder_nonnull in Hnn.
      by destruct (inorder_traversal r).
Qed.

Lemma find_node_count n key :
  is_Some (find_node ltb n key) -> (0 < count n)%nat.
Proof. destruct n; simpl; [by intros [? ?] | lia]. Qed.

Lemma remove_found (tr : AVLTree.t K V) key :
  invariant ltb tr -> Z.of_nat (count (root_ tr)) < size_max ->
  (remove ltb tr key).1 = true <-> is_Some (find ltb tr key).
Proof.
  intros (Hb & _ & Hs) Hlt. unfold remove, find, size in *.
  pose proof (remove_node_size (root_ tr) key (size_ tr) Hb) as Hr.
  pose proof (find_node_count (root_ tr) key) as Hc.
  destruct (remove_node ltb (root_ tr) key (size_ tr)) as [n' s']. simpl in *. subst s'.
  rewrite Z.mod_small in Hs by lia.
  destruct (find_node ltb (root_ tr) key) as [p|]; simpl.
  - split; [by eauto|]. intros _.
    assert (0 < count (root_ tr))%nat by (apply Hc; eauto).
    apply Z.ltb_lt. unfold size_decr. rewrite Z.mod_small; lia.
  - rewrite Z.ltb_irrefl. split; [done | by intros [? ?]].
Qed.

(** ** Height *)
Lemma pow2_half_step a b :
  0 <= a -> 0 <= b -> a - 1 <= b <= a + 1 ->
  2 ^ ((1 + Z.max a b) / 2) <= 2 ^ (a / 2) + 2 ^ (b / 2).
Proof.
  intros Ha Hb Hab.
  assert (forall x y, 0 <= x -> 0 <= y -> y - 1 <= x <= y ->
            2 ^ ((1 + y) / 2) <= 2 ^ (x / 2) + 2 ^ (y / 2)) as Hstep.
  { intros x y Hx Hy Hxy.
    destruct (Z.even y) eqn:Ev.
    - apply Z.even_spec in Ev as [c ->].
      replace ((1 + 2 * c) / 2) with c by (apply Z.div_unique with 1; lia).
      replace (2 * c / 2) with c by (apply Z.div_unique with 0; lia).
      assert (0 < 2 ^ (x / 2)) by (apply Z.pow_pos_nonneg; [lia | apply Z.div_pos; lia]).
      lia.
    - assert (Z.odd y = true) as Ho by (by rewrite <- Z.negb_even, Ev).
      apply Z.odd_spec in Ho as [c ->].
      replace ((1 + (2 * c + 1)) / 2) with (c + 1)
        by (apply Z.div_unique with 0; lia).
      replace ((2 * c + 1) / 2) with c by (apply Z.div_unique with 1; lia).
      assert (c <= x / 2) as Hc by (apply Z.div_le_lower_bound; lia).
      assert (2 ^ c <= 2 ^ (x / 2)) by (apply Z.pow_le_mono_r; lia).
      rewrite Z.pow_add_r by lia. lia. }
  destruct (Z.max_spec a b) as [[? ->]|[? ->]].
  - specialize (Hstep a b). lia.
  - specialize (Hstep b a). lia.
Qed.

Lemma avl_height_bound n :
  avl n -> 2 ^ (height n / 2) <= Z.of_nat (count n) + 1.
Proof.
  induction n as [|k v h l IHl r IHr]; [simpl; intros _; by vm_compute|].
  intros (Hl & Hr & -> & Hbf). cbn [height count balance_factor] in *.
  specialize (IHl Hl). specialize (IHr Hr).
  pose proof (AVLProofs.avl_height_nonneg _ Hl).
  pose proof (AVLProofs.avl_height_nonneg _ Hr).
  pose proof (pow2_half_step (height l) (height r)). lia.
Qed.

(** ** range *)
Variable leb : K -> K -> bool.
Hypothesis ltb_leb_l : forall x k lo, ltb x k = true -> ltb lo k = false -> leb lo x = false.
Hypothesis ltb_leb_r : forall x k hi, ltb k x = true -> ltb k hi = false -> leb x hi = false.

Lemma range_query_filter n lo hi :
  bst ltb n ->
  range_query ltb leb n lo hi = filter (fun p : K * V => leb lo p.1 && leb p.1 hi) (inorder_traversal n).
Proof.
  induction n as [|k v h l IHl r IHr]; [done|].
  intros (Hl & Hr & Hlk & Hkr). rewrite Forall_forall in Hlk, Hkr.
  simpl. rewrite filter_app, filter_cons.
  assert ((if ltb lo k then range_query ltb leb l lo hi else [])
          = filter (fun p : K * V => leb lo p.1 && leb p.1 hi) (inorder_traversal l)) as ->.
  { destruct (ltb lo k) eqn:E; [auto|].
    symmetry. apply HeapProofs.filter_none. apply Forall_forall.
    intros [x w] Hin. simpl.
    rewrite (ltb_leb_l x k lo); [simpl; tauto | | done].
    apply Hlk. by eapply elem_inorder_keys. }
  assert ((if ltb k hi then range_query ltb leb r lo hi else [])
          = filter (fun p : K * V => leb lo p.1 && leb p.1 hi) (inorder_traversal r)) as ->.
  { destruct (ltb k hi) eqn:E; [auto|].
    symmetry. apply HeapProofs.filter_none. apply Forall_forall.
    intros [x w] Hin. simpl.
    rewrite (ltb_leb_r x k hi); [rewrite andb_false_r; simpl; tauto | | done].
    apply Hkr. by eapply elem_inorder_keys. }
  destruct (decide _) as [Hd|Hd]; simpl in Hd;
    destruct (leb lo k && leb k hi); simpl in *; done.
Qed.
End AVLMap.
End AVLMap.

(** ** The score tree: an [AVLTree<double, std::string>] *)
Lemma double_compat (key : float) : not_nan key -> AVLOrder.compat double_lt key.
Proof.
  intros Hk. split; intros x y Hlt [H1 H2].
  - by apply (double_compat_l x y key).
  - by apply (double_compat_r x y key).
Qed.

Lemma score_tree_run_invariant (ops : list ScoreTree.op) :
  AVLInv.invariant double_lt (ScoreTree.run ops).
Proof.
  unfold ScoreTree.run.
  induction ops as [|o ops IH] using rev_ind.
  - repeat split; simpl; try done.
  - rewrite foldl_app. simpl. destruct o as [k v|k]; simpl.
    + apply AVLProofs.insert_invariant;
        first [apply double_lt_irrefl | apply double_lt_trans | done].
    + apply AVLProofs.remove_invariant;
        first [apply double_lt_irrefl | apply double_lt_trans | done].
Qed.

Lemma score_tree_run_bst (ops : list ScoreTree.op) :
  AVLInv.bst double_lt (AVLTree.root_ (ScoreTree.run ops)).
Proof. by destruct (score_tree_run_invariant ops). Qed.

Ltac double_order :=
  first [apply double_lt_irrefl | apply double_lt_trans | apply score_tree_run_bst
        | by apply double_compat | done].

(** X1. [get_all()] lists the entries of the score tree by strictly
    increasing key, whatever insertions and removals built the tree. *)
Theorem get_all_strictly_increasing (ops : list ScoreTree.op) :
  StronglySorted (fun a b => double_lt a b = true)
    (AVLTree.get_all (ScoreTree.run ops)).*1.
Proof.
  apply (AVLProofs.bst_sorted double_lt double_lt_trans (AVLTree.root_ (ScoreTree.run ops))).
  apply score_tree_run_bst.
Qed.

(** On every reachable score tree, [find] after [insert] of a key that
    is not NaN returns the inserted value. *)
Lemma find_insert_same (ops : list ScoreTree.op) (key : float) (value : string) :
  not_nan key ->
  AVLTree.find double_lt (AVLTree.insert double_lt (ScoreTree.run ops) key value) key
  = Some value.
Proof.
  intros Hk. unfold AVLTree.find, AVLTree.insert.
  pose proof (score_tree_run_bst ops) as Hb.
  pose proof (AVLProofs.insert_node_bst double_lt double_lt_trans _ key value
                (AVLTree.size_ (ScoreTree.run ops)) Hb) as Hb'.
  pose proof (AVLProofs.insert_node_holds_value double_lt double_lt_irrefl
                (AVLTree.root_ (ScoreTree.run ops)) key value
                (AVLTree.size_ (ScoreTree.run ops))) as (k' & H1 & H2 & Hin).
  destruct (AVLTree.insert_node _ _ _ _ _) as [n' s']. simpl in *.
  assert (AVLTree.find_node double_lt n' key = Some (k', value)) as ->; [|done].
  apply AVLMap.find_node_Some_iff; try double_order.
Qed.

(** On every reachable score tree, [find] after [remove] of a key that
    is not NaN finds nothing. *)
Lemma find_remove_same (ops : list ScoreTree.op) (key : float) :
  not_nan key ->
  AVLTree.find double_lt (AVLTree.remove double_lt (ScoreTree.run ops) key).2 key = None.
Proof.
  intros Hk. unfold AVLTree.find, AVLTree.remove.
  pose proof (score_tree_run_bst ops) as Hb.
  pose proof (AVLProofs.remove_node_bst double_lt double_lt_irrefl double_lt_trans _ key
                (AVLTree.size_ (ScoreTree.run ops)) Hb) as Hb'.
  pose proof (fun x => AVLMap.remove_node_gone double_lt double_lt_irrefl double_lt_trans
                (AVLTree.root_ (ScoreTree.run ops)) key
                (AVLTree.size_ (ScoreTree.run ops)) x Hb (double_compat key Hk)) as Hg.
  destruct (AVLTree.remove_node _ _ _ _) as [n' s']. simpl in *.
  assert (AVLTree.find_node double_lt n' key = None) as ->; [|done].
  apply AVLMap.find_node_None_iff; try double_order.
Qed.

(** X2. On every reachable score tree and for every key that is not NaN,
    [find] after [insert] of the key returns the inserted value, and
    [find] after [remove] of the key finds nothing. *)
Theorem find_after_insert_and_remove (ops : list ScoreTree.op) (key : float)
    (value : string) :
  not_nan key ->
  AVLTree.find double_lt (AVLTree.insert double_lt (ScoreTree.run ops) key value) key
  = Some value
  /\ AVLTree.find double_lt (AVLTree.remove double_lt (ScoreTree.run ops) key).2 key = None.
Proof.
  intros Hk. split; [by apply find_insert_same | by apply find_remove_same].
Qed.

Lemma find_after_insert_and_remove_witness :
  AVLTree.find double_lt
    (AVLTree.insert double_lt
       (ScoreTree.run [ScoreTree.Insert 2%float "b"; ScoreTree.Insert 1%float "a"])
       2%float "c") 2%float
  = Some "c"
  /\ AVLTree.find double_lt
       (AVLTree.remove double_lt
          (ScoreTree.run [ScoreTree.Insert 2%float "b"; ScoreTree.Insert 1%float "a"])
          2%float).2 2%float
     = None.
Proof. apply find_after_insert_and_remove. vm_compute; reflexivity. Defined.

Lemma double_eqv_eq (x y : float) :
  not_nan x -> not_nan y -> AVLOrder.eqv double_lt x y <-> double_eq x y = true.
Proof. intros Hx Hy. unfold AVLOrder.eqv. by rewrite double_eq_iff. Qed.

(** Among keys that are not NaN, being equivalent is transitive. *)
Lemma double_eqv_trans (x y z : float) :
  not_nan x ->
  AVLOrder.eqv double_lt x y -> AVLOrder.eqv double_lt x z -> AVLOrder.eqv double_lt y z.
Proof.
  intros Hx [H1 H2] [H3 H4]. split.
  - destruct (double_lt y z) eqn:E; [|done].
    pose proof (double_compat_l y z x Hx E H4 H3). congruence.
  - destruct (double_lt z y) eqn:E; [|done].
    pose proof (double_compat_l z y x Hx E H2 H1). congruence.
Qed.

Section ScoreTreeFrame.
Variables (n n' : AVLTree.Node float string) (key key2 : float).
Hypothesis Hb : AVLInv.bst double_lt n.
Hypothesis Hb' : AVLInv.bst double_lt n'.
Hypothesis Hk2 : not_nan key2.
Hypothesis Hne : double_eq key key2 = false.
Hypothesis Hk : not_nan key.
Hypothesis Hkeys : forall x, x ∈ AVLInv.keys n -> not_nan x.
(** [n'] has the entries of [n] whose key differs from [key], and
    otherwise only entries whose key is equivalent to [key]. *)
Hypothesis Hinv : forall p, p ∈ AVLTree.inorder_traversal n' ->
  p ∈ AVLTree.inorder_traversal n \/ (AVLOrder.eqv double_lt p.1 key /\ not_nan p.1).
Hypothesis Hkeep : forall p, p ∈ AVLTree.inorder_traversal n ->
  ~ AVLOrder.eqv double_lt p.1 key -> p ∈ AVLTree.inorder_traversal n'.

Lemma find_node_frame :
  AVLTree.find_node double_lt n' key2 = AVLTree.find_node double_lt n key2.
Proof.
  assert (forall x, not_nan x -> AVLOrder.eqv double_lt x key ->
            AVLOrder.eqv double_lt x key2 -> False) as Hsep.
  { intros x Hx E1 E2. pose proof (double_eqv_trans x key key2 Hx E1 E2) as E.
    apply double_eqv_eq in E; [congruence | done | done]. }
  destruct (AVLTree.find_node double_lt n key2) as [[k w]|] eqn:Ef.
  - apply AVLMap.find_node_Some_iff in Ef as [Hin He]; try double_order.
    apply AVLMap.find_node_Some_iff; try double_order.
    split; [|done]. apply Hkeep; [done|]. simpl. intros E.
    apply (Hsep k); [|done|done]. apply Hkeys. by eapply AVLMap.elem_inorder_keys.
  - apply AVLMap.find_node_None_iff; try double_order.
    intros x [[x' w] [-> Hin]]%list_elem_of_fmap He. simpl in He.
    destruct (Hinv _ Hin) as [Hold|[E Hx]].
    + apply (AVLMap.find_node_None double_lt double_lt_irrefl double_lt_trans n key2 x'
               Hb (double_compat key2 Hk2) Ef); [by eapply AVLMap.elem_inorder_keys | done].
    + by apply (Hsep x').
Qed.
End ScoreTreeFrame.

(** X3. On a reachable score tree without NaN keys, inserting or removing
    a key that is not NaN leaves what [find] returns for every other key
    that is not NaN. *)
Theorem find_other_key_unchanged (ops : list ScoreTree.op) (key key2 : float)
    (value : string) :
  not_nan key -> not_nan key2 -> double_eq key key2 = false ->
  Forall (fun p => not_nan p.1) (AVLTree.get_all (ScoreTree.run ops)) ->
  AVLTree.find double_lt (AVLTree.insert double_lt (ScoreTree.run ops) key value) key2
  = AVLTree.find double_lt (ScoreTree.run ops) key2
  /\ AVLTree.find double_lt (AVLTree.remove double_lt (ScoreTree.run ops) key).2 key2
     = AVLTree.find double_lt (ScoreTree.run ops) key2.
Proof.
  intros Hk Hk2 Hne Hall.
  pose proof (score_tree_run_bst ops) as Hb.
  assert (forall x, x ∈ AVLInv.keys (AVLTree.root_ (ScoreTree.run ops)) -> not_nan x) as Hkeys.
  { rewrite Forall_forall in Hall. intros x [p [-> Hin]]%list_elem_of_fmap. by apply Hall. }
  unfold AVLTree.find, AVLTree.insert, AVLTree.remove. split.
  - pose proof (AVLProofs.insert_node_bst double_lt double_lt_trans _ key value
                  (AVLTree.size_ (ScoreTree.run ops)) Hb) as Hb'.
    pose proof (fun p => AVLMap.insert_node_elem_inv double_lt
                  (AVLTree.root_ (ScoreTree.run ops)) key value
                  (AVLTree.size_ (ScoreTree.run ops)) p) as Hinv.
    pose proof (fun p => AVLMap.insert_node_elem_keep double_lt
                  (AVLTree.root_ (ScoreTree.run ops)) key value
                  (AVLTree.size_ (ScoreTree.run ops)) p) as Hkeep.
    destruct (AVLTree.insert_node _ _ _ _ _) as [n' s']. simpl in *.
    f_equal. apply (find_node_frame _ n' key key2); try done.
    intros p Hp. destruct (Hinv p Hp) as [?|[->|(_ & Hin & He)]]; auto.
    right. simpl. split; [|done]. split; apply double_lt_irrefl.
  - pose proof (AVLProofs.remove_node_bst double_lt double_lt_irrefl double_lt_trans _ key
                  (AVLTree.size_ (ScoreTree.run ops)) Hb) as Hb'.
    pose proof (fun p => AVLMap.remove_node_elem_inv double_lt
                  (AVLTree.root_ (ScoreTree.run ops)) key
                  (AVLTree.size_ (ScoreTree.run ops)) p) as Hinv.
    pose proof (fun p => AVLMap.remove_node_elem_keep double_lt double_lt_irrefl
                  (AVLTree.root_ (ScoreTree.run ops)) key
                  (AVLTree.size_ (ScoreTree.run ops)) p Hb) as Hkeep.
    destruct (AVLTree.remove_node _ _ _ _) as [n' s']. simpl in *.
    f_equal. apply (find_node_frame _ n' key key2); try done.
    intros p Hp. left. by apply Hinv.
Qed.

Lemma find_other_key_unchanged_witness :
  let ops := [ScoreTree.Insert 2%float "b"; ScoreTree.Insert 1%float "a";
              ScoreTree.Insert 3%float "c"] in
  AVLTree.find double_lt (AVLTree.insert double_lt (ScoreTree.run ops) 3%float "z") 2%float
  = Some "b"
  /\ AVLTree.find double_lt (AVLTree.remove double_lt (ScoreTree.run ops) 3%float).2 2%float
     = Some "b".
Proof.
  intros ops.
  assert (AVLTree.find double_lt (ScoreTree.run ops) 2%float = Some "b") as <-
    by (vm_compute; reflexivity).
  apply find_other_key_unchanged.
  - vm_compute; reflexivity.
  - vm_compute; reflexivity.
  - vm_compute; reflexivity.
  - vm_compute. repeat constructor.
Defined.

(** X4. Below [2^64] nodes, [remove] on a reachable score tree returns
    [true] exactly when [find] finds the key. *)
Theorem remove_reports_found (ops : list ScoreTree.op) (key : float) :
  Z.of_nat (AVLInv.count (AVLTree.root_ (ScoreTree.run ops))) < size_max ->
  (AVLTree.remove double_lt (ScoreTree.run ops) key).1 = true
  <-> is_Some (AVLTree.find double_lt (ScoreTree.run ops) key).
Proof.
  intros Hlt. apply AVLMap.remove_found; try double_order.
  apply score_tree_run_invariant.
Qed.

Lemma remove_reports_found_witness :
  (AVLTree.remove double_lt
     (ScoreTree.run [ScoreTree.Insert 2%float "b"; ScoreTree.Insert 1%float "a"]) 1%float).1
  = true.
Proof.
  apply remove_reports_found.
  - vm_compute; reflexivity.
  - vm_compute. eauto.
Defined.

(** X5. [range(min, max)] on a reachable score tree is [get_all()] filtered
    to the keys with [min <= key] and [key <= max], in the same order. *)
Theorem range_is_filtered_get_all (ops : list ScoreTree.op) (min_key max_key : float) :
  AVLTree.range double_lt double_le (ScoreTree.run ops) min_key max_key
  = filter (fun p : float * string => double_le min_key p.1 && double_le p.1 max_key)
      (AVLTree.get_all (ScoreTree.run ops)).
Proof.
  unfold AVLTree.range, AVLTree.get_all.
  rewrite (AVLMap.range_query_filter double_lt double_le double_lt_le_l double_lt_le_r)
    by apply score_tree_run_bst.
  done.
Qed.

(** X6. A reachable score tree of [n] nodes has height at most
    [2 * log2 (n + 1) + 1]: [2 ^ (height / 2) <= n + 1]. *)
Theorem height_is_logarithmic (ops : list ScoreTree.op) :
  2 ^ (AVLTree.height (AVLTree.root_ (ScoreTree.run ops)) / 2)
  <= Z.of_nat (AVLInv.count (AVLTree.root_ (ScoreTree.run ops))) + 1.
Proof.
  apply AVLMap.avl_height_bound. by destruct (score_tree_run_invariant ops) as (_ & ? & _).
Qed.

(** * The sorted set under distinct scores *)
Module SortedSetProofs.
Import AVLTree AVLInv.

Abbreviation eqv := (AVLOrder.eqv double_lt).
Implicit Types n : AVLTree.Node float string.

(** Inserting a key no key of the tree is equivalent to adds one entry. *)
Lemma insert_fresh_elems n key value s (p : float * string) :
  (forall x, x ∈ keys n -> ~ eqv x key) ->
  p ∈ inorder_traversal (insert_node double_lt n key value s).1
  <-> p = (key, value) \/ p ∈ inorder_traversal n.
Proof.
  intros Hfresh. split.
  - intros [?|[?|(_ & Hin & He)]]%AVLMap.insert_node_elem_inv; auto.
    by destruct (Hfresh _ Hin).
  - intros [->|Hin].
    + destruct (AVLProofs.insert_node_holds_value double_lt double_lt_irrefl n key value s)
        as (k' & H1 & H2 & Hin).
      apply AVLMap.insert_node_elem_inv in Hin as Hc.
      destruct Hc as [Hc|[[= ->]|(_ & Hc & He)]]; [|done|].
      * apply AVLMap.elem_inorder_keys in Hc. by destruct (Hfresh _ Hc).
      * by destruct (Hfresh _ Hc).
    + apply AVLMap.insert_node_elem_keep; [done|].
      apply Hfresh. destruct p. by eapply AVLMap.elem_inorder_keys.
Qed.

(** Removing a key that is in the tree removes its entry and no other. *)
Lemma remove_present_elems n key value s (p : float * string) :
  bst double_lt n -> not_nan key -> (key, value) ∈ inorder_traversal n ->
  p ∈ inorder_traversal (remove_node double_lt n key s).1
  <-> p ∈ inorder_traversal n /\ p <> (key, value).
Proof.
  intros Hb Hk Hin. split.
  - intros Hp. split; [by eapply AVLMap.remove_node_elem_inv|].
    intros ->. apply AVLMap.elem_inorder_keys in Hp.
    eapply AVLMap.remove_node_gone in Hp; try double_order.
    apply Hp. split; apply double_lt_irrefl.
  - intros [Hp Hne]. apply AVLMap.remove_node_elem_keep; try double_order.
    intros He. apply Hne. destruct p as [k w]. simpl in He.
    assert (k = key) as ->.
    { eapply (AVLMap.eqv_unique double_lt double_lt_trans n key); try double_order.
      - by eapply AVLMap.elem_inorder_keys.
      - by eapply AVLMap.elem_inorder_keys.
      - split; apply double_lt_irrefl. }
    f_equal.
    apply (AVLMap.inorder_functional double_lt double_lt_irrefl double_lt_trans
             n key w value Hb Hp Hin).
Qed.

Section Invariant.
Variable zs : SortedSet.t.
Hypothesis Hinv : SortedSetInv.invariant zs.

Let tr := SortedSet.score_tree_ zs.
Let ms := SortedSet.member_scores_ zs.

Lemma inv_bst : bst double_lt (root_ tr).
Proof. by destruct Hinv as (_ & (? & _) & _). Qed.

Lemma inv_lookup m s : ms !! m = Some s <-> (s, m) ∈ inorder_traversal (root_ tr).
Proof. destruct Hinv as (HR & _). apply HR. Qed.

Lemma inv_not_nan m s : ms !! m = Some s -> not_nan s.
Proof. destruct Hinv as (_ & _ & Hn). apply Hn. Qed.

Lemma inv_key_member x : x ∈ keys (root_ tr) -> exists m, ms !! m = Some x.
Proof.
  intros [[s m] [-> Hin]]%list_elem_of_fmap. exists m. by apply inv_lookup.
Qed.

End Invariant.

Lemma not_eqv_of_ne (x y : float) :
  not_nan x -> not_nan y -> double_eq x y = false -> ~ eqv x y.
Proof. intros Hx Hy Hne He%double_eqv_eq; [congruence | done | done]. Qed.

Lemma new_invariant : SortedSetInv.invariant SortedSet.new.
Proof.
  split; [|split].
  - intros m s. simpl. rewrite lookup_empty. split; [done | by intros ?%elem_of_nil].
  - repeat split; simpl; done.
  - apply map_Forall_empty.
Qed.

(** [add] with a score no other member has keeps the invariant. *)
Lemma zset_add_invariant zs member score :
  SortedSetInv.invariant zs -> SortedSetInv.fresh_score zs member score ->
  SortedSetInv.invariant (SortedSet.add zs member score).2.
Proof.
  intros Hinv [Hs Hfresh].
  pose proof (inv_bst zs Hinv) as Hb.
  pose proof (inv_lookup zs Hinv) as HR.
  pose proof (inv_not_nan zs Hinv) as Hnn.
  pose proof (inv_key_member zs Hinv) as Hkm.
  pose proof Hinv as (_ & Ha & _).
  unfold SortedSet.add.
  destruct (SortedSet.member_scores_ zs !! member) as [old|] eqn:Eold.
  - destruct (double_ne old score) eqn:Ene; [|exact Hinv].
    simpl.
    pose proof (AVLProofs.remove_invariant double_lt double_lt_irrefl double_lt_trans
                  (SortedSet.score_tree_ zs) old Ha) as Ha1.
    pose proof (fun p => remove_present_elems (root_ (SortedSet.score_tree_ zs)) old member
                  (size_ (SortedSet.score_tree_ zs)) p Hb (Hnn _ _ Eold)
                  (proj1 (HR _ _) Eold)) as Hrem.
    unfold AVLTree.remove in *.
    destruct (remove_node double_lt _ old _) as [n1 s1]. simpl in *.
    assert (forall x, x ∈ keys n1 -> ~ eqv x score) as Hfr1.
    { intros x [[x' m'] [-> Hin]]%list_elem_of_fmap. simpl.
      apply Hrem in Hin as [Hin Hne]. apply HR in Hin as Hl.
      apply not_eqv_of_ne; [by eapply Hnn | done |].
      apply (Hfresh m' x' Hl). intros ->. congruence. }
    pose proof (AVLProofs.insert_invariant double_lt double_lt_trans
                  {| root_ := n1; size_ := s1 |} score member Ha1) as Ha2.
    pose proof (fun p => insert_fresh_elems n1 score member s1 p Hfr1) as Hins.
    unfold AVLTree.insert in *. simpl in *.
    destruct (insert_node double_lt n1 score member s1) as [n2 s2]. simpl in *.
    split; [|split; [done|]].
    + intros m s. unfold AVLTree.get_all. simpl. rewrite Hins, Hrem.
      destruct (decide (m = member)) as [->|Hm].
      * rewrite lookup_insert_eq. split; [intros [= ->]; auto|].
        intros [[= ->]|[Hin Hne]]; [done|].
        apply HR in Hin. congruence.
      * rewrite lookup_insert_ne by done. rewrite HR. split; [|intros [[=]|[? _]]; done].
        intros Hin. right. split; [done | congruence].
    + apply map_Forall_insert_2; [done|]. intros m s. apply Hnn.
  - simpl.
    assert (forall x, x ∈ keys (root_ (SortedSet.score_tree_ zs)) -> ~ eqv x score) as Hfr.
    { intros x Hx. destruct (Hkm x Hx) as [m' Hl].
      apply not_eqv_of_ne; [by eapply Hnn | done |].
      apply (Hfresh m' x Hl). intros ->. congruence. }
    pose proof (AVLProofs.insert_invariant double_lt double_lt_trans
                  (SortedSet.score_tree_ zs) score member Ha) as Ha2.
    pose proof (fun p => insert_fresh_elems (root_ (SortedSet.score_tree_ zs)) score member
                  (size_ (SortedSet.score_tree_ zs)) p Hfr) as Hins.
    unfold AVLTree.insert in *.
    destruct (insert_node double_lt _ score member _) as [n2 s2]. simpl in *.
    split; [|split; [done|]].
    + intros m s. unfold AVLTree.get_all. simpl. rewrite Hins.
      destruct (decide (m = member)) as [->|Hm].
      * rewrite lookup_insert_eq. split; [intros [= ->]; auto|].
        intros [[= ->]|Hin]; [done|]. apply HR in Hin. congruence.
      * rewrite lookup_insert_ne by done. rewrite HR. split; [auto|].
        intros [[=]|?]; done.
    + apply map_Forall_insert_2; [done|]. intros m s. apply Hnn.
Qed.

(** [remove] keeps the invariant. *)
Lemma zset_remove_invariant zs member :
  SortedSetInv.invariant zs -> SortedSetInv.invariant (SortedSet.remove zs member).2.
Proof.
  intros Hinv.
  pose proof (inv_bst zs Hinv) as Hb.
  pose proof (inv_lookup zs Hinv) as HR.
  pose proof (inv_not_nan zs Hinv) as Hnn.
  unfold SortedSet.remove.
  destruct (SortedSet.member_scores_ zs !! member) as [old|] eqn:Eold; [|done].
  destruct Hinv as (_ & Ha & _). simpl.
  pose proof (AVLProofs.remove_invariant double_lt double_lt_irrefl double_lt_trans
                (SortedSet.score_tree_ zs) old Ha) as Ha1.
  pose proof (fun p => remove_present_elems (root_ (SortedSet.score_tree_ zs)) old member
                (size_ (SortedSet.score_tree_ zs)) p Hb (Hnn _ _ Eold)
                (proj1 (HR _ _) Eold)) as Hrem.
  unfold AVLTree.remove in *.
  destruct (remove_node double_lt _ old _) as [n1 s1]. simpl in *.
  split; [|split; [done|]].
  - intros m s. unfold AVLTree.get_all. simpl. rewrite Hrem.
    destruct (decide (m = member)) as [->|Hm].
    + rewrite lookup_delete_eq. split; [done|]. intros [Hin Hne]. apply HR in Hin. congruence.
    + rewrite lookup_delete_ne by done. rewrite HR. split; [|by intros [? _]].
      intros Hin. split; [done | congruence].
  - apply map_Forall_delete. intros m s. apply Hnn.
Qed.


(** ** Reading a sorted set *)
Abbreviation swap := (fun p : float * string => (p.2, p.1)).

Lemma filter_fmap {A B} (f : A -> B) (P : B -> Prop) `{forall x, Decision (P x)}
    (l : list A) :
  filter P (f <$> l) = f <$> filter (fun x => P (f x)) l.
Proof.
  induction l as [|a l IH]; [done|].
  rewrite fmap_cons, !filter_cons. destruct (decide (P (f a))); simpl; by rewrite IH.
Qed.

Lemma entries_permutation zs :
  SortedSetInv.invariant zs ->
  map_to_list (SortedSet.member_scores_ zs) ≡ₚ SortedSet.get_all zs.
Proof.
  intros Hinv. pose proof (inv_bst zs Hinv) as Hb. pose proof (inv_lookup zs Hinv) as HR.
  apply NoDup_Permutation.
  - apply NoDup_map_to_list.
  - unfold SortedSet.get_all, AVLTree.get_all. apply NoDup_fmap_2.
    + intros [a b] [c d]. simpl. congruence.
    + apply (AVLMap.inorder_NoDup double_lt double_lt_irrefl double_lt_trans _ Hb).
  - intros [m s]. rewrite elem_of_map_to_list, HR.
    unfold SortedSet.get_all, AVLTree.get_all. rewrite list_elem_of_fmap. split.
    + intros Hin. by exists (s, m).
    + intros [[s' m'] [[= -> ->] Hin]]. done.
Qed.

(** The scan stops at the first entry that carries the member under an
    equal score. *)
Lemma rank_scan_Some (l : list (float * string)) score member i0 j :
  SortedSet.rank_scan l score member i0 = Some j ->
  exists sc, (i0 <= j)%nat /\ l !! (j - i0)%nat = Some (sc, member)
    /\ double_eq sc score = true.
Proof.
  revert i0. induction l as [|[sc m] l IH]; intros i0; [done|].
  simpl. destruct (double_eq sc score) eqn:E1; simpl.
  - case_bool_decide as E2.
    + intros [= <-]. exists sc. subst m. rewrite Nat.sub_diag. split; [lia|done].
    + intros (sc' & Hle & Hl & He)%IH. exists sc'. split; [lia|]. split; [|done].
      replace (j - i0)%nat with (S (j - S i0)) by lia. done.
  - intros (sc' & Hle & Hl & He)%IH. exists sc'. split; [lia|]. split; [|done].
    replace (j - i0)%nat with (S (j - S i0)) by lia. done.
Qed.

Lemma rank_scan_sorted (l : list (float * string)) score member i0 i :
  StronglySorted (fun a b => double_lt a b = true) (l.*1) ->
  not_nan score -> l !! i = Some (score, member) ->
  SortedSet.rank_scan l score member i0 = Some (i0 + i)%nat.
Proof.
  intros Hs Hn. revert i i0 Hs. induction l as [|[sc m] l IH]; intros i i0 Hs; [done|].
  simpl in Hs. apply StronglySorted_cons in Hs as [Hhd Hs].
  destruct i as [|i]; simpl.
  - intros [= -> ->]. rewrite Hn. simpl. rewrite bool_decide_eq_true_2 by done.
    f_equal. lia.
  - intros Hl.
    assert (double_lt sc score = true) as Hlt.
    { rewrite Forall_forall in Hhd. apply Hhd.
      apply (list_elem_of_fmap_2 fst l (score, member)). by eapply list_elem_of_lookup_2. }
    apply double_lt_not_eq in Hlt as [-> _]. simpl.
    rewrite (IH i (S i0) Hs Hl). f_equal. lia.
Qed.

(** In a sorted list the position of an entry is the number of entries
    with a smaller key. *)
Lemma sorted_index_count (l : list (float * string)) score member i :
  StronglySorted (fun a b => double_lt a b = true) (l.*1) ->
  l !! i = Some (score, member) ->
  length (filter (fun p : float * string => double_lt p.1 score) l) = i.
Proof.
  revert i. induction l as [|[sc m] l IH]; intros i Hs; [done|].
  simpl in Hs. apply StronglySorted_cons in Hs as [Hhd Hs].
  rewrite Forall_forall in Hhd.
  destruct i as [|i]; simpl.
  - intros [= -> ->]. rewrite filter_cons_False by (simpl; rewrite double_lt_irrefl; simpl; tauto).
    rewrite HeapProofs.filter_none; [done|]. apply Forall_forall.
    intros [sc' m'] Hin. simpl.
    assert (double_lt score sc' = true) as Hlt
      by (apply Hhd; by apply (list_elem_of_fmap_2 fst l (sc', m'))).
    destruct (double_lt sc' score) eqn:E; [|simpl; tauto].
    pose proof (double_lt_trans _ _ _ Hlt E). by rewrite double_lt_irrefl in *.
  - intros Hl.
    assert (double_lt sc score = true) as Hlt.
    { apply Hhd.
      apply (list_elem_of_fmap_2 fst l (score, member)). by eapply list_elem_of_lookup_2. }
    rewrite filter_cons_True by (simpl; rewrite Hlt; exact I).
    simpl. f_equal. by apply IH.
Qed.

Lemma inv_sorted zs :
  SortedSetInv.invariant zs ->
  StronglySorted (fun a b => double_lt a b = true)
    (AVLTree.get_all (SortedSet.score_tree_ zs)).*1.
Proof.
  intros Hinv.
  apply (AVLProofs.bst_sorted double_lt double_lt_trans
           (root_ (SortedSet.score_tree_ zs))).
  by apply inv_bst.
Qed.

Lemma rank_index zs member i :
  SortedSetInv.invariant zs ->
  SortedSet.rank zs member = Some i
  <-> exists s, AVLTree.get_all (SortedSet.score_tree_ zs) !! i = Some (s, member).
Proof.
  intros Hinv. pose proof (inv_lookup zs Hinv) as HR. pose proof (inv_not_nan zs Hinv) as Hnn.
  pose proof (inv_sorted zs Hinv) as Hs.
  unfold SortedSet.rank. split.
  - destruct (SortedSet.member_scores_ zs !! member) as [s|] eqn:E; [|done].
    apply HR in E as Hin. apply list_elem_of_lookup in Hin as [i' Hi'].
    rewrite (rank_scan_sorted _ s member 0 i' Hs (Hnn _ _ E) Hi'). intros [= <-]. eauto.
  - intros [s Hl].
    assert (SortedSet.member_scores_ zs !! member = Some s) as E.
    { apply HR. by eapply list_elem_of_lookup_2. }
    rewrite E. by rewrite (rank_scan_sorted _ s member 0 i Hs (Hnn _ _ E) Hl).
Qed.
End SortedSetProofs.

(** X7. [add] with a score that is not NaN and that no other member has
    keeps the invariant of the sorted set (R1 and the tree's), returns
    whether the score changed, and leaves the member with an equal score
    and the other members as they were. *)
Theorem add_keeps_sorted_set_invariant (zs : SortedSet.t) (member : string) (score : float) :
  SortedSetInv.invariant zs -> SortedSetInv.fresh_score zs member score ->
  SortedSetInv.invariant (SortedSet.add zs member score).2
  /\ (exists s, SortedSet.get_score (SortedSet.add zs member score).2 member = Some s
                /\ double_eq s score = true)
  /\ (forall m, m <> member ->
        SortedSet.get_score (SortedSet.add zs member score).2 m = SortedSet.get_score zs m)
  /\ ((SortedSet.add zs member score).1 = false
      <-> exists old, SortedSet.get_score zs member = Some old /\ double_eq old score = true).
Proof.
  intros Hinv Hfresh. split; [by apply SortedSetProofs.zset_add_invariant|].
  destruct Hfresh as [Hs _].
  unfold SortedSet.add, SortedSet.get_score, double_ne, double_eq in *.
  destruct (SortedSet.member_scores_ zs !! member) as [old|] eqn:Eold.
  - destruct (PrimFloat.eqb old score) eqn:Ene; simpl.
    + split; [eauto|]. split; [done|]. split; [eauto | done].
    + rewrite lookup_insert_eq. split; [eauto|].
      split; [intros m Hm; by rewrite lookup_insert_ne|].
      split; [done|]. intros (old' & [= <-] & ?). congruence.
  - simpl. rewrite lookup_insert_eq. split; [eauto|].
    split; [intros m Hm; by rewrite lookup_insert_ne|].
    split; [done|]. by intros (old' & [=] & ?).
Qed.

(** X8. [remove] keeps the invariant of the sorted set, returns whether
    the member was there, and leaves the set without the member and the
    other members as they were. *)
Theorem remove_keeps_sorted_set_invariant (zs : SortedSet.t) (member : string) :
  SortedSetInv.invariant zs ->
  SortedSetInv.invariant (SortedSet.remove zs member).2
  /\ SortedSet.get_score (SortedSet.remove zs member).2 member = None
  /\ (forall m, m <> member ->
        SortedSet.get_score (SortedSet.remove zs member).2 m = SortedSet.get_score zs m)
  /\ ((SortedSet.remove zs member).1 = true <-> is_Some (SortedSet.get_score zs member)).
Proof.
  intros Hinv. split; [by apply SortedSetProofs.zset_remove_invariant|].
  unfold SortedSet.remove, SortedSet.get_score.
  destruct (SortedSet.member_scores_ zs !! member) as [old|] eqn:Eold; simpl.
  - rewrite lookup_delete_eq. split; [done|].
    split; [intros m Hm; by rewrite lookup_delete_ne|]. split; eauto.
  - split; [done|]. split; [done|]. split; [done | by intros [? ?]].
Qed.

(** X9. On a sorted set that satisfies the invariant, [rank] of a member
    is the number of members with a smaller score. *)
Theorem rank_counts_smaller_scores (zs : SortedSet.t) (member : string) (score : float) :
  SortedSetInv.invariant zs ->
  SortedSet.get_score zs member = Some score ->
  SortedSet.rank zs member
  = Some (length (filter (fun p : string * float => double_lt p.2 score)
                    (map_to_list (SortedSet.member_scores_ zs)))).
Proof.
  intros Hinv Hl.
  rewrite (SortedSetProofs.entries_permutation zs Hinv).
  unfold SortedSet.get_all. rewrite SortedSetProofs.filter_fmap, length_fmap.
  pose proof (SortedSetProofs.inv_sorted zs Hinv) as Hs.
  pose proof (SortedSetProofs.inv_not_nan zs Hinv _ _ Hl) as Hn.
  apply (SortedSetProofs.inv_lookup zs Hinv) in Hl as Hin.
  apply list_elem_of_lookup in Hin as [i Hi].
  unfold SortedSet.rank, SortedSet.get_score in *. rewrite Hl.
  rewrite (SortedSetProofs.rank_scan_sorted _ score member 0 i Hs Hn Hi).
  f_equal. symmetry. by eapply (SortedSetProofs.sorted_index_count _ score member).
Qed.

(** X10. On a sorted set that satisfies the invariant, [rank] and
    [get_by_rank] are inverse to each other. *)
Theorem rank_get_by_rank_inverse (zs : SortedSet.t) (member : string) (i : nat) :
  SortedSetInv.invariant zs ->
  SortedSet.rank zs member = Some i <-> SortedSet.get_by_rank zs i = Some member.
Proof.
  intros Hinv. rewrite (SortedSetProofs.rank_index zs member i Hinv).
  unfold SortedSet.get_by_rank. split.
  - intros [s ->]. done.
  - destruct (AVLTree.get_all (SortedSet.score_tree_ zs) !! i) as [[s m]|]; [|done].
    intros [= ->]. eauto.
Qed.

(** X11. On a sorted set that satisfies the invariant, [range_by_score]
    is [get_all()] filtered to the scores between the bounds: it holds
    exactly the members whose score lies between them. *)
Theorem range_by_score_selects_members (zs : SortedSet.t) (min_score max_score : float)
    (member : string) (score : float) :
  SortedSetInv.invariant zs ->
  SortedSet.range_by_score zs min_score max_score
  = filter (fun p : string * float => double_le min_score p.2 && double_le p.2 max_score)
      (SortedSet.get_all zs)
  /\ ((member, score) ∈ SortedSet.range_by_score zs min_score max_score
      <-> SortedSet.get_score zs member = Some score
          /\ double_le min_score score = true /\ double_le score max_score = true).
Proof.
  intros Hinv.
  assert (SortedSet.range_by_score zs min_score max_score
          = filter (fun p : string * float =>
                      double_le min_score p.2 && double_le p.2 max_score)
              (SortedSet.get_all zs)) as Heq.
  { unfold SortedSet.range_by_score, SortedSet.get_all, AVLTree.range, AVLTree.get_all.
    rewrite (AVLMap.range_query_filter double_lt double_le double_lt_le_l double_lt_le_r)
      by (by apply SortedSetProofs.inv_bst).
    by rewrite SortedSetProofs.filter_fmap. }
  split; [done|]. rewrite Heq, list_elem_of_filter. simpl.
  unfold SortedSet.get_all, SortedSet.get_score.
  rewrite (SortedSetProofs.inv_lookup zs Hinv), list_elem_of_fmap.
  rewrite andb_True, !Is_true_true. split.
  - intros [[? ?] [[s m] [[= -> ->] Hin]]]. done.
  - intros (Hin & ? & ?). split; [done|]. by exists (score, member).
Qed.

(** X12. On a sorted set that satisfies the invariant and holds less than
    [2^64] entries, [size()], the size of the score tree and the length of
    [get_all()] agree. *)
Theorem size_counts_entries (zs : SortedSet.t) :
  SortedSetInv.invariant zs ->
  Z.of_nat (length (SortedSet.get_all zs)) < size_max ->
  SortedSet.size zs = Z.of_nat (length (SortedSet.get_all zs))
  /\ AVLTree.size (SortedSet.score_tree_ zs) = SortedSet.size zs.
Proof.
  intros Hinv Hlt.
  assert (SortedSet.size zs = Z.of_nat (length (SortedSet.get_all zs))) as Hsz.
  { unfold SortedSet.size. rewrite <- (SortedSetProofs.entries_permutation zs Hinv).
    by rewrite length_map_to_list. }
  split; [done|]. rewrite Hsz.
  destruct Hinv as (_ & (_ & _ & ->) & _).
  unfold SortedSet.get_all, AVLTree.get_all in *. rewrite length_fmap in *.
  rewrite AVLProofs.count_inorder. apply Z.mod_small. lia.
Qed.

(** X13. [range_by_rank(start, stop)] with [stop + 1 < start] and [start]
    below the number of entries asks [reserve] for [stop - start + 1]
    modulo [2^64] elements, more than a vector can hold: the call throws
    [std::length_error] and returns no list. *)
Theorem range_by_rank_reversed_bounds_throw (max_size : Z) (zs : SortedSet.t)
    (start stop : Z) :
  0 <= stop -> stop + 1 < start ->
  start < Z.of_nat (length (AVLTree.get_all (SortedSet.score_tree_ zs))) ->
  Z.of_nat (length (AVLTree.get_all (SortedSet.score_tree_ zs))) <= max_size ->
  max_size < 2 ^ 63 ->
  SortedSet.range_by_rank max_size zs start stop = None.
Proof.
  intros H0 Hrev Hstart Hfit Hmax. unfold SortedSet.range_by_rank.
  set (n := Z.of_nat (length (AVLTree.get_all (SortedSet.score_tree_ zs)))) in *.
  destruct (Z.leb_spec n start); [lia|].
  rewrite Z.min_l by lia.
  assert ((stop - start + 1) mod size_max = size_max + (stop - start + 1)) as ->.
  { symmetry. apply Z.mod_unique with (-1); unfold size_max; lia. }
  destruct (Z.ltb_spec max_size (size_max + (stop - start + 1))); [done|].
  unfold size_max in *. lia.
Qed.

(** X14. On a sorted set that satisfies the invariant, [range_by_rank]
    with [start <= stop] returns the members of rank [start] to [stop] in
    order: its [j]-th member is the one of rank [start + j]. *)
Theorem range_by_rank_lists_ranks (max_size : Z) (zs : SortedSet.t) (start stop : Z) :
  SortedSetInv.invariant zs ->
  0 <= start <= stop ->
  Z.of_nat (length (AVLTree.get_all (SortedSet.score_tree_ zs))) <= max_size ->
  exists l, SortedSet.range_by_rank max_size zs start stop = Some l
    /\ forall j m, l.*1 !! j = Some m
         <-> (SortedSet.rank zs m = Some (Z.to_nat start + j)%nat
              /\ start + Z.of_nat j <= stop).
Proof.
  intros Hinv Hss Hfit. unfold SortedSet.range_by_rank.
  set (all := AVLTree.get_all (SortedSet.score_tree_ zs)) in *.
  set (n := Z.of_nat (length all)) in *.
  assert (forall i m, SortedSet.rank zs m = Some i <-> exists s, all !! i = Some (s, m)) as Hrk
    by (intros i m; by apply SortedSetProofs.rank_index).
  destruct (Z.leb_spec n start) as [Hge|Hlt].
  - exists []. split; [done|]. intros j m. simpl. rewrite lookup_nil. split; [done|].
    intros [[s Hl]%Hrk _]. apply lookup_lt_Some in Hl. lia.
  - set (stop' := Z.min stop (n - 1)).
    assert (0 <= stop' - start + 1 <= n) as Hcap by lia.
    pose proof (Z.mod_le (stop' - start + 1) size_max) as Hmod.
    destruct (Z.ltb_spec max_size ((stop' - start + 1) mod size_max));
      [unfold size_max in *; lia|].
    eexists. split; [done|]. intros j m.
    rewrite <- list_fmap_compose, list_lookup_fmap, fmap_Some.
    rewrite Hrk. split.
    + intros ([s m'] & Hl & ->). simpl.
      apply lookup_take_Some in Hl as [Hl Hj]. rewrite lookup_drop in Hl.
      split; [eauto | lia].
    + intros [[s Hl] Hj]. exists (s, m). split; [|done].
      apply lookup_take_Some. rewrite lookup_drop. split; [done|].
      apply lookup_lt_Some in Hl. lia.
Qed.

(** ** The sample set *)
Ltac fresh_score_by_computation :=
  split; [vm_compute; reflexivity | apply (bool_decide_unpack _); vm_compute; exact I].

Lemma abc_invariant : SortedSetInv.invariant Samples.abc.
Proof.
  unfold Samples.abc.
  repeat (apply SortedSetProofs.zset_add_invariant; [|fresh_score_by_computation]).
  apply SortedSetProofs.new_invariant.
Qed.

Lemma add_keeps_sorted_set_invariant_witness :
  SortedSetInv.invariant (SortedSet.add Samples.abc "d" 4%float).2
  /\ (exists s, SortedSet.get_score (SortedSet.add Samples.abc "d" 4%float).2 "d" = Some s
                /\ double_eq s 4%float = true)
  /\ (forall m, m <> "d" ->
        SortedSet.get_score (SortedSet.add Samples.abc "d" 4%float).2 m
        = SortedSet.get_score Samples.abc m)
  /\ ((SortedSet.add Samples.abc "d" 4%float).1 = false
      <-> exists old, SortedSet.get_score Samples.abc "d" = Some old
                      /\ double_eq old 4%float = true).
Proof.
  apply add_keeps_sorted_set_invariant.
  - apply abc_invariant.
  - fresh_score_by_computation.
Defined.

Lemma remove_keeps_sorted_set_invariant_witness :
  SortedSetInv.invariant (SortedSet.remove Samples.abc "b").2
  /\ SortedSet.get_score (SortedSet.remove Samples.abc "b").2 "b" = None
  /\ (forall m, m <> "b" ->
        SortedSet.get_score (SortedSet.remove Samples.abc "b").2 m
        = SortedSet.get_score Samples.abc m)
  /\ ((SortedSet.remove Samples.abc "b").1 = true
      <-> is_Some (SortedSet.get_score Samples.abc "b")).
Proof. apply remove_keeps_sorted_set_invariant. apply abc_invariant. Defined.

Lemma rank_counts_smaller_scores_witness : SortedSet.rank Samples.abc "c" = Some 2%nat.
Proof.
  apply (rank_counts_smaller_scores Samples.abc "c" 3%float).
  - apply abc_invariant.
  - vm_compute; reflexivity.
Defined.

Lemma rank_get_by_rank_inverse_witness :
  SortedSet.rank Samples.abc "b" = Some 1%nat
  <-> SortedSet.get_by_rank Samples.abc 1 = Some "b".
Proof. apply rank_get_by_rank_inverse. apply abc_invariant. Defined.

Lemma range_by_score_selects_members_witness :
  SortedSet.range_by_score Samples.abc 2%float 3%float
  = filter (fun p : string * float => double_le 2%float p.2 && double_le p.2 3%float)
      (SortedSet.get_all Samples.abc)
  /\ (("b", 2%float) ∈ SortedSet.range_by_score Samples.abc 2%float 3%float
      <-> SortedSet.get_score Samples.abc "b" = Some 2%float
          /\ double_le 2%float 2%float = true /\ double_le 2%float 3%float = true).
Proof. apply range_by_score_selects_members. apply abc_invariant. Defined.

Lemma size_counts_entries_witness :
  SortedSet.size Samples.abc = Z.of_nat (length (SortedSet.get_all Samples.abc))
  /\ AVLTree.size (SortedSet.score_tree_ Samples.abc) = SortedSet.size Samples.abc.
Proof.
  apply size_counts_entries.
  - apply abc_invariant.
  - vm_compute; reflexivity.
Defined.

Lemma range_by_rank_reversed_bounds_throw_witness :
  SortedSet.range_by_rank (2 ^ 58) Samples.abc 2 0 = None.
Proof. apply range_by_rank_reversed_bounds_throw; vm_compute; done. Defined.

Lemma range_by_rank_lists_ranks_witness :
  exists l, SortedSet.range_by_rank (2 ^ 58) Samples.abc 1 5 = Some l
    /\ forall j m, l.*1 !! j = Some m
         <-> (SortedSet.rank Samples.abc m = Some (Z.to_nat 1 + j)%nat
              /\ 1 + Z.of_nat j <= 5).
Proof.
  apply range_by_rank_lists_ranks.
  - apply abc_invariant.
  - lia.
  - vm_compute. discriminate.
Defined.

(** * The TTL heap: the index of the keys and the way up *)
Module HeapMore.
Import TTLHeap HeapInv HeapShape HeapProofs.

Implicit Types arr : list TTLEntry.

Lemma pos_inj h i j e e' :
  pos_bijection h -> heap_ h !! i = Some e -> heap_ h !! j = Some e' ->
  key e = key e' -> i = j.
Proof.
  intros Hpos Hi Hj Hk.
  assert (key_to_index_ h !! key e = Some i) as H1 by (apply Hpos; eauto).
  assert (key_to_index_ h !! key e = Some j) as H2 by (apply Hpos; eauto).
  congruence.
Qed.

Lemma pos_NoDup h : pos_bijection h -> NoDup (key <$> heap_ h).
Proof.
  intros Hpos. apply NoDup_alt. intros i j k.
  rewrite !list_lookup_fmap, !fmap_Some.
  intros (e & He & ->) (e' & He' & Hk). by eapply pos_inj.
Qed.

Lemma swap_entries_pos h i j a b :
  pos_bijection h -> heap_ h !! i = Some a -> heap_ h !! j = Some b ->
  pos_bijection (swap_entries h i j).
Proof.
  intros Hpos Ha Hb. unfold swap_entries. rewrite Ha, Hb.
  intros k idx. simpl. rewrite (swap_lookup _ i j a b idx Ha Hb).
  destruct (decide (k = key a)) as [->|Hka].
  - rewrite lookup_insert_eq. split.
    + intros [= <-]. rewrite decide_True by done. eauto.
    + intros (e & He & Hk). f_equal.
      destruct (decide (idx = j)) as [->|]; [done|].
      destruct (decide (idx = i)) as [->|]; simplify_eq.
      * by eapply (pos_inj h).
      * exfalso. pose proof (pos_inj h idx i e a Hpos He Ha Hk). done.
  - rewrite lookup_insert_ne by done.
    destruct (decide (k = key b)) as [->|Hkb].
    + rewrite lookup_insert_eq. split.
      * intros [= <-]. destruct (decide (i = j)) as [->|]; [congruence|].
        rewrite decide_True by done. eauto.
      * intros (e & He & Hk). f_equal.
        destruct (decide (idx = j)) as [->|]; [simplify_eq; congruence|].
        destruct (decide (idx = i)) as [->|]; [done|].
        exfalso. pose proof (pos_inj h idx j e b Hpos He Hb Hk). done.
    + rewrite lookup_insert_ne by done. rewrite (Hpos k idx).
      split; intros (e & He & Hk).
      * exists e. split; [|done].
        destruct (decide (idx = j)) as [->|]; [simplify_eq; congruence|].
        destruct (decide (idx = i)) as [->|]; [simplify_eq; congruence|]. done.
      * destruct (decide (idx = j)) as [->|]; [simplify_eq; congruence|].
        destruct (decide (idx = i)) as [->|]; [simplify_eq; congruence|]. eauto.
Qed.

Lemma heapify_down_loop_pos fuel h i :
  pos_bijection h ->
  pos_bijection (heapify_down_loop fuel h i)
  /\ heap_ (heapify_down_loop fuel h i) ≡ₚ heap_ h.
Proof.
  revert h i. induction fuel as [|fuel IH]; intros h i Hpos; [done|].
  rewrite heapify_down_loop_S. case_bool_decide as Hne; [|done].
  destruct (smallest_of_range (heap_ h) i) as [?|[Hlt Hlen]]; [done|].
  destruct (lookup_lt_is_Some_2 (heap_ h) i) as [e He]; [lia|].
  destruct (lookup_lt_is_Some_2 _ _ Hlen) as [es Hes].
  destruct (IH (swap_entries h i (smallest_of (heap_ h) i)) (smallest_of (heap_ h) i))
    as [IH1 IH2]; [by eapply swap_entries_pos|].
  split; [done|]. rewrite IH2, (swap_entries_heap h _ _ e es He Hes). by apply swap_perm.
Qed.

Lemma heapify_up_loop_pos fuel h i :
  pos_bijection h ->
  pos_bijection (heapify_up_loop fuel h i)
  /\ heap_ (heapify_up_loop fuel h i) ≡ₚ heap_ h.
Proof.
  revert h i. induction fuel as [|fuel IH]; intros h i Hpos; [done|].
  rewrite heapify_up_loop_S. case_bool_decide as Hi; [|done].
  destruct (heap_ h !! i) as [e|] eqn:He; [|done].
  destruct (heap_ h !! parent i) as [p|] eqn:Hp; [|done].
  destruct (entry_lt e p); [|done].
  destruct (IH (swap_entries h i (parent i)) (parent i)) as [IH1 IH2];
    [by eapply swap_entries_pos|].
  split; [done|]. rewrite IH2, (swap_entries_heap h _ _ e p He Hp). by apply swap_perm.
Qed.

(** [heapify_up] restores the order when the slot is the only one that
    may be above its parent. *)
Lemma heapify_up_loop_spec fuel h i :
  (i < length (heap_ h))%nat -> (i <= fuel)%nat -> up_ok (heap_ h) i ->
  ordered (heap_ (heapify_up_loop fuel h i)).
Proof.
  revert h i. induction fuel as [|fuel IH]; intros h i Hi Hfuel [Hu1 Hu2].
  - assert (i = 0%nat) as -> by lia. simpl.
    intros p c ep ec Hpc. apply Hu1; [done|].
    apply child_parent in Hpc. lia.
  - rewrite heapify_up_loop_S. case_bool_decide as Hpos.
    + destruct (lookup_lt_is_Some_2 _ _ Hi) as [e He]. rewrite He.
      pose proof (parent_is_child i Hpos) as Hc.
      pose proof (child_parent _ _ Hc) as [_ Hlt].
      destruct (lookup_lt_is_Some_2 (heap_ h) (parent i)) as [ep Hep]; [lia|].
      rewrite Hep. unfold entry_lt.
      destruct (Z.ltb_spec (expiry e) (expiry ep)) as [Hless|Hge].
      * pose proof (swap_entries_heap h i (parent i) e ep He Hep) as Hsw.
        pose proof (fun k => swap_lookup (heap_ h) i (parent i) e ep k He Hep) as Hlk.
        apply IH.
        -- rewrite swap_entries_length. lia.
        -- lia.
        -- rewrite Hsw. split.
           ++ intros q c eq ec Hqc Hcne. rewrite !Hlk.
              pose proof (child_parent _ _ Hqc) as [_ Hgt'].
              repeat case_decide; intros; try (exfalso; lia);
                try subst q; try subst c;
                repeat match goal with H : Some _ = Some _ |- _ => injection H as <- end.
              all: try lia.
              ** assert (expiry ep <= expiry ec); [|lia].
                 eapply (Hu1 (parent i) c); eauto.
              ** eapply (Hu2 (parent i) c); eauto.
              ** apply child_parent in Hqc as [? _]. congruence.
              ** eapply (Hu1 q c); eauto.
           ++ intros g c eg ec Hg Hc'. rewrite !Hlk.
              pose proof (child_parent _ _ Hg) as [_ Hgt'].
              pose proof (child_parent _ _ Hc') as [_ Hgt''].
              repeat case_decide; intros; try (exfalso; lia);
                try subst g; try subst c;
                repeat match goal with H : Some _ = Some _ |- _ => injection H as <- end.
              all: try lia.
              ** eapply (Hu1 g (parent i)); eauto.
              ** assert (expiry eg <= expiry ep) by (eapply (Hu1 g (parent i)); eauto; lia).
                 assert (expiry ep <= expiry ec); [|lia].
                 eapply (Hu1 (parent i) c); eauto.
      * intros q c eq ec Hqc Hq Hec.
        destruct (decide (c = i)) as [->|]; [|by eapply Hu1].
        pose proof (child_parent _ _ Hqc) as [<- _]. simplify_eq. lia.
    + assert (i = 0%nat) as -> by lia.
      intros p c ep ec Hpc. apply Hu1; [done|].
      apply child_parent in Hpc. lia.
Qed.


Lemma ordered_down_ok arr i : ordered arr -> down_ok arr i.
Proof.
  intros Ho. split.
  - intros p c ep ec Hpc _. by apply Ho.
  - intros g c eg ec Hg Hc Heg Hec.
    pose proof (child_parent _ _ Hc) as [_ Hlt].
    destruct (lookup_lt_is_Some_2 arr i) as [e He].
    { apply lookup_lt_Some in Hec. lia. }
    pose proof (Ho _ _ _ _ Hg Heg He). pose proof (Ho _ _ _ _ Hc He Hec). lia.
Qed.

Lemma ordered_hole arr i e x :
  ordered arr -> arr !! i = Some e -> hole (<[i := x]> arr) i.
Proof.
  intros Ho He. split.
  - intros p c ep ec Hpc Hp Hc. rewrite !list_lookup_insert_ne by done. by apply Ho.
  - intros g c eg ec Hg Hc.
    pose proof (child_parent _ _ Hg) as [_ Hlt1].
    pose proof (child_parent _ _ Hc) as [_ Hlt2].
    rewrite !list_lookup_insert_ne by lia. intros Heg Hec.
    pose proof (Ho _ _ _ _ Hg Heg He). pose proof (Ho _ _ _ _ Hc He Hec). lia.
Qed.

(** The first round of [heapify_up] stops when the slot is not below its
    parent. *)
Lemma heapify_up_stops h i e :
  heap_ h !! i = Some e ->
  (forall ep, (0 < i)%nat -> heap_ h !! parent i = Some ep -> expiry ep <= expiry e) ->
  heapify_up h i = h.
Proof.
  intros He Hge. unfold heapify_up. destruct i as [|i]; [done|].
  rewrite heapify_up_loop_S. rewrite bool_decide_eq_true_2 by lia. rewrite He.
  destruct (heap_ h !! parent (S i)) as [ep|] eqn:Hp; [|done].
  unfold entry_lt. specialize (Hge ep ltac:(lia) eq_refl).
  destruct (Z.ltb_spec (expiry e) (expiry ep)); [lia | done].
Qed.

(** Overwriting the expiry of a slot and sifting it up, then down, as
    [add] does for a key that is there. *)
Lemma resift_spec h i e exp :
  ordered (heap_ h) -> pos_bijection h -> heap_ h !! i = Some e ->
  let h1 := {| heap_ := <[i := mkEntry (key e) exp]> (heap_ h);
               key_to_index_ := key_to_index_ h |} in
  pos_bijection h1
  /\ ordered (heap_ (heapify_down (heapify_up h1 i) i))
  /\ pos_bijection (heapify_down (heapify_up h1 i) i)
  /\ heap_ (heapify_down (heapify_up h1 i) i) ≡ₚ heap_ h1
  /\ (expiry e <= exp -> ordered (heap_ (heapify_down h1 i)))
  /\ (exp < expiry e -> ordered (heap_ (heapify_up h1 i))).
Proof.
  intros Ho Hpos He h1.
  pose proof (lookup_lt_Some _ _ _ He) as Hi.
  assert (heap_ h1 !! i = Some (mkEntry (key e) exp)) as He1
    by (simpl; by rewrite list_lookup_insert_eq).
  assert (length (heap_ h1) = length (heap_ h)) as Hlen by (simpl; by rewrite length_insert).
  pose proof (ordered_hole (heap_ h) i e (mkEntry (key e) exp) Ho He) as [Hh1 Hh2].
  assert (pos_bijection h1) as Hpos1.
  { intros k j. simpl. rewrite (Hpos k j).
    destruct (decide (j = i)) as [->|].
    - rewrite list_lookup_insert_eq by done. rewrite He. split.
      + intros (e' & [= <-] & <-). eauto.
      + intros (e' & [= <-] & <-). eauto.
    - by rewrite list_lookup_insert_ne. }
  assert ((forall ep, (0 < i)%nat -> heap_ h1 !! parent i = Some ep -> expiry ep <= exp) ->
          down_ok (heap_ h1) i) as Hdown.
  { intros Hge. split; [|exact Hh2].
    intros p c ep ec Hpc Hp Hep Hec.
    destruct (decide (c = i)) as [->|]; [|by eapply Hh1].
    pose proof (child_parent _ _ Hpc) as [<- Hlt]. simplify_eq.
    apply Hge; [lia | done]. }
  assert ((forall c ec, is_child i c -> heap_ h1 !! c = Some ec -> exp <= expiry ec) ->
          up_ok (heap_ h1) i) as Hup.
  { intros Hle. split; [|exact Hh2].
    intros p c ep ec Hpc Hc Hep Hec.
    destruct (decide (p = i)) as [->|]; [|by eapply Hh1].
    simplify_eq. by eapply Hle. }
  assert (forall ep, (0 < i)%nat -> heap_ h1 !! parent i = Some ep -> expiry ep <= expiry e)
    as Hpar.
  { intros ep H0. pose proof (parent_is_child i H0) as Hc.
    pose proof (child_parent _ _ Hc) as [_ Hlt]. simpl.
    rewrite list_lookup_insert_ne by lia. intros Hep. by eapply Ho. }
  assert (forall c ec, is_child i c -> heap_ h1 !! c = Some ec -> expiry e <= expiry ec)
    as Hchild.
  { intros c ec Hc. pose proof (child_parent _ _ Hc) as [_ Hlt]. simpl.
    rewrite list_lookup_insert_ne by lia. intros Hec. by eapply Ho. }
  split; [done|].
  destruct (heapify_up_loop_pos i h1 i Hpos1) as [Hpos2 Hperm2]. fold (heapify_up h1 i) in *.
  destruct (heapify_down_loop_pos (length (heap_ (heapify_up h1 i))) (heapify_up h1 i) i Hpos2)
    as [Hpos3 Hperm3]. fold (heapify_down (heapify_up h1 i) i) in *.
  assert (exp < expiry e -> ordered (heap_ (heapify_up h1 i))) as Hcase_up.
  { intros Hless. apply heapify_up_loop_spec; [lia | lia |].
    apply Hup. intros c ec Hc Hec. specialize (Hchild c ec Hc Hec). lia. }
  assert (expiry e <= exp -> ordered (heap_ (heapify_down h1 i))) as Hcase_down.
  { intros Hge. apply heapify_down_spec; [lia|].
    apply Hdown. intros ep H0 Hep. specialize (Hpar ep H0 Hep). lia. }
  split; [|split; [done|split; [by rewrite Hperm3|split; done]]].
  assert ((forall ep, (0 < i)%nat -> heap_ h1 !! parent i = Some ep -> expiry ep <= exp)
          \/ ((0 < i)%nat /\ exists ep, heap_ h1 !! parent i = Some ep /\ exp < expiry ep))
    as [Hge|(H0 & ep & Hep & Hlt)].
  { destruct (decide (0 < i)%nat) as [H0|]; [|left; intros; lia].
    destruct (heap_ h1 !! parent i) as [ep|] eqn:Hep; [|left; by intros].
    destruct (Z.le_gt_cases (expiry ep) exp) as [Hle|Hgt].
    - left. by intros ep' _ [= <-].
    - right. eauto. }
  - rewrite (heapify_up_stops h1 i _ He1 Hge).
    apply heapify_down_spec; [lia|]. by apply Hdown.
  - assert (ordered (heap_ (heapify_up h1 i))) as Ho2.
    { apply heapify_up_loop_spec; [lia | lia |]. apply Hup.
      intros c ec Hc Hec.
      pose proof (parent_is_child i H0) as Hpc.
      pose proof (Hh2 _ _ _ _ Hpc Hc Hep Hec). lia. }
    apply heapify_down_spec.
    + apply Permutation_length in Hperm2. lia.
    + by apply ordered_down_ok.
Qed.

(** ** add *)
Lemma add_spec h k exp :
  invariant h ->
  invariant (add h k exp)
  /\ forall e, e ∈ heap_ (add h k exp)
       <-> e = mkEntry k exp \/ (e ∈ heap_ h /\ key e <> k).
Proof.
  intros [Ho%heap_order_ordered Hpos]. unfold add.
  destruct (key_to_index_ h !! k) as [index|] eqn:Hk.
  - apply Hpos in Hk as (e0 & He0 & <-). rewrite He0.
    destruct (resift_spec h index e0 exp Ho Hpos He0) as (_ & Ho' & Hpos' & Hperm & _).
    split; [split; [by apply heap_order_ordered | done]|].
    intros e. rewrite Hperm. simpl. rewrite !list_elem_of_lookup. split.
    + intros [j Hj]. destruct (decide (j = index)) as [->|Hne].
      * rewrite list_lookup_insert_eq in Hj by (by eapply lookup_lt_Some). left. congruence.
      * rewrite list_lookup_insert_ne in Hj by done. right. split; [eauto|].
        intros Heq. apply Hne. by eapply (pos_inj h j index e e0).
    + intros [->|[[j Hj] Hne]].
      * exists index. rewrite list_lookup_insert_eq by (by eapply lookup_lt_Some). done.
      * exists j. rewrite list_lookup_insert_ne; [done|]. intros ->. simplify_eq.
  - set (arr := heap_ h ++ [mkEntry k exp]).
    assert ((length arr - 1)%nat = length (heap_ h)) as ->
      by (unfold arr; rewrite length_app; simpl; lia).
    set (h1 := {| heap_ := arr; key_to_index_ := <[k := length (heap_ h)]> (key_to_index_ h) |}).
    assert (forall e, e ∈ heap_ h -> key e <> k) as Hfresh.
    { intros e [j Hj]%list_elem_of_lookup Heq.
      assert (key_to_index_ h !! k = Some j) as Hc by (apply Hpos; eauto). congruence. }
    assert (pos_bijection h1) as Hpos1.
    { intros k' j. simpl. destruct (decide (k' = k)) as [->|Hne].
      - rewrite lookup_insert_eq. split.
        + intros [= <-]. exists (mkEntry k exp). split; [|done].
          unfold arr. rewrite lookup_app_r by lia. by rewrite Nat.sub_diag.
        + intros (e & He & Hke). f_equal. unfold arr in He.
          apply lookup_app_Some in He as [He|[Hle He]].
          * exfalso. apply (Hfresh e); [by eapply list_elem_of_lookup_2 | done].
          * apply lookup_lt_Some in He as Hlt. simpl in Hlt. lia.
      - rewrite lookup_insert_ne by done. rewrite (Hpos k' j). unfold arr.
        split; intros (e & He & Hke); exists e; (split; [|done]).
        + by apply lookup_app_l_Some.
        + apply lookup_app_Some in He as [He|[Hle He]]; [done|].
          destruct (j - length (heap_ h))%nat; simplify_eq/=. }
    assert (up_ok (heap_ h1) (length (heap_ h))) as Hup.
    { split.
      - intros p c ep ec Hpc Hc. simpl. unfold arr.
        pose proof (child_parent _ _ Hpc) as [_ Hlt].
        intros Hep Hec.
        assert (c < length (heap_ h))%nat as Hc'.
        { apply lookup_lt_Some in Hec. rewrite length_app in Hec. simpl in Hec. lia. }
        rewrite lookup_app_l in Hep by lia. rewrite lookup_app_l in Hec by lia.
        by eapply Ho.
      - intros g c eg ec Hg Hc _ Hec. simpl in Hec. unfold arr in Hec.
        pose proof (child_parent _ _ Hc) as [_ Hlt].
        apply lookup_lt_Some in Hec. rewrite length_app in Hec. simpl in Hec. lia. }
    destruct (heapify_up_loop_pos (length (heap_ h)) h1 (length (heap_ h)) Hpos1)
      as [Hpos2 Hperm2].
    fold (heapify_up h1 (length (heap_ h))) in *.
    split; [split; [|done]|].
    + apply heap_order_ordered. apply heapify_up_loop_spec; [|lia|done].
      simpl. unfold arr. rewrite length_app. simpl. lia.
    + intros e. rewrite Hperm2. simpl. unfold arr.
      rewrite elem_of_app, list_elem_of_singleton. split.
      * intros [Hin| ->]; [right | by left]. split; [done | by apply Hfresh].
      * intros [->|[Hin _]]; auto.
Qed.

(** ** Dropping the last slot *)
Lemma drop_last_pos h a :
  pos_bijection h -> heap_ h !! (length (heap_ h) - 1)%nat = Some a ->
  pos_bijection {| heap_ := pop_back (heap_ h);
                   key_to_index_ := delete (key a) (key_to_index_ h) |}
  /\ forall e, e ∈ pop_back (heap_ h) <-> e ∈ heap_ h /\ key e <> key a.
Proof.
  intros Hpos Ha. set (last := (length (heap_ h) - 1)%nat) in *.
  pose proof (lookup_lt_Some _ _ _ Ha) as Hlast.
  assert (forall j e, pop_back (heap_ h) !! j = Some e
                      <-> heap_ h !! j = Some e /\ j <> last) as Hlk.
  { intros j e. unfold pop_back. fold last. rewrite lookup_take_Some. split.
    - intros [? ?]. split; [done | lia].
    - intros [Hj ?]. split; [done|]. apply lookup_lt_Some in Hj. lia. }
  split.
  - intros k j. simpl. destruct (decide (k = key a)) as [->|Hne].
    + rewrite lookup_delete_eq. split; [done|].
      intros (e & [He Hj]%Hlk & Hk). destruct Hj. by eapply (pos_inj h j last e a).
    + rewrite lookup_delete_ne by done. rewrite (Hpos k j).
      split; intros (e & He & Hk); exists e; (split; [|done]).
      * apply Hlk. split; [done|]. intros ->. simplify_eq.
      * by apply Hlk in He as [? _].
  - intros e. rewrite !list_elem_of_lookup. split.
    + intros [j [Hj Hne]%Hlk]. split; [eauto|].
      intros Hk. apply Hne. by eapply (pos_inj h j last e a).
    + intros [[j Hj] Hne]. exists j. apply Hlk. split; [done|]. intros ->. simplify_eq.
Qed.

(** Moving slot [i] to the end and dropping it. *)
Lemma swap_drop_pos h i a :
  pos_bijection h -> heap_ h !! i = Some a ->
  let h1 := swap_entries h i (length (heap_ h) - 1) in
  let h2 := {| heap_ := pop_back (heap_ h1);
               key_to_index_ := delete (key a) (key_to_index_ h1) |} in
  pos_bijection h2
  /\ (forall e, e ∈ heap_ h2 <-> e ∈ heap_ h /\ key e <> key a)
  /\ S (length (heap_ h2)) = length (heap_ h).
Proof.
  intros Hpos Ha h1 h2.
  pose proof (lookup_lt_Some _ _ _ Ha) as Hi.
  destruct (lookup_lt_is_Some_2 (heap_ h) (length (heap_ h) - 1)) as [b Hb]; [lia|].
  pose proof (swap_entries_pos h i _ a b Hpos Ha Hb) as Hpos1. fold h1 in Hpos1.
  pose proof (swap_entries_heap h i _ a b Ha Hb) as Hsw. fold h1 in Hsw.
  pose proof (swap_entries_length h i (length (heap_ h) - 1)) as Hlen. fold h1 in Hlen.
  assert (heap_ h1 !! (length (heap_ h1) - 1)%nat = Some a) as Ha1.
  { rewrite Hlen, Hsw. rewrite list_lookup_insert_eq; [done|]. rewrite length_insert. lia. }
  destruct (drop_last_pos h1 a Hpos1 Ha1) as [Hpos2 Hmem].
  split; [done|]. split.
  - intros e. unfold h2. simpl. rewrite Hmem, Hsw.
    by rewrite (swap_perm (heap_ h) i _ a b Ha Hb).
  - unfold h2. simpl. unfold pop_back. rewrite length_take, Hlen. lia.
Qed.

Lemma pop_root_pos h r :
  pos_bijection h -> heap_ h !! 0%nat = Some r ->
  pos_bijection (pop_root h (key r)).
Proof.
  intros Hpos Hr. unfold pop_root.
  destruct (swap_drop_pos h 0 r Hpos Hr) as (Hpos2 & _ & _).
  cbn [heap_].
  destruct (pop_back _) eqn:E; [exact Hpos2|].
  by apply heapify_down_loop_pos.
Qed.

Lemma get_expired_keys_loop_pos fuel now h acc :
  pos_bijection h -> pos_bijection (get_expired_keys_loop fuel now h acc).2.
Proof.
  revert h acc. induction fuel as [|fuel IH]; intros h acc Hpos; [done|].
  simpl. destruct (heap_ h !! 0%nat) as [r|] eqn:Hr; [|done].
  destruct (expiry r <=? now); [|done].
  apply IH. by apply pop_root_pos.
Qed.

(** ** remove *)
Lemma remove_spec h k :
  pos_bijection h ->
  pos_bijection (remove h k)
  /\ forall e, e ∈ heap_ (remove h k) <-> e ∈ heap_ h /\ key e <> k.
Proof.
  intros Hpos. unfold remove.
  destruct (key_to_index_ h !! k) as [index|] eqn:Hk.
  - apply Hpos in Hk as (a & Ha & <-).
    case_bool_decide as Hne.
    + destruct (swap_drop_pos h index a Hpos Ha) as (Hpos2 & Hmem & _).
      cbn [heap_] in *.
      destruct (pop_back _) eqn:E.
      * split; [exact Hpos2 | exact Hmem].
      *
        match goal with |- context [heapify_down ?x _] => set (h2 := x) in * end.
        destruct (heapify_down_loop_pos (length (heap_ h2)) h2 index Hpos2) as [Hp Hperm].
        split; [done|]. intros e. unfold heapify_down. rewrite Hperm. apply Hmem.
    + assert (index = (length (heap_ h) - 1)%nat) as ->.
      { destruct (decide (index = (length (heap_ h) - 1)%nat)); [done | by destruct Hne]. }
      by apply drop_last_pos.
  - split; [done|]. intros e. split; [|by intros [? _]].
    intros Hin. split; [done|]. intros Heq.
    apply list_elem_of_lookup in Hin as [j Hj].
    assert (key_to_index_ h !! k = Some j) as Hc by (apply Hpos; eauto). congruence.
Qed.

(** ** The keys of the index *)
Lemma pos_keys h k :
  pos_bijection h -> is_Some (key_to_index_ h !! k) <-> k ∈ key <$> heap_ h.
Proof.
  intros Hpos. rewrite list_elem_of_fmap. split.
  - intros [i (e & He & <-)%Hpos]. exists e. split; [done | by eapply list_elem_of_lookup_2].
  - intros (e & -> & [i Hi]%list_elem_of_lookup). exists i. apply Hpos. eauto.
Qed.

Lemma pop_root_mem h r :
  pos_bijection h -> heap_ h !! 0%nat = Some r ->
  forall e, e ∈ heap_ (pop_root h (key r)) <-> e ∈ heap_ h /\ key e <> key r.
Proof.
  intros Hpos Hr. unfold pop_root.
  destruct (swap_drop_pos h 0 r Hpos Hr) as (Hpos2 & Hmem & _).
  cbn [heap_] in *.
  destruct (pop_back _) eqn:E; [exact Hmem|].
  match goal with |- context [heapify_down ?x _] => set (h2 := x) in * end.
  destruct (heapify_down_loop_pos (length (heap_ h2)) h2 0 Hpos2) as [_ Hperm].
  intros e. unfold heapify_down. rewrite Hperm. apply Hmem.
Qed.

(** The expiry loop on any heap whose index is in step: what it returns
    was due, and it takes out the entries of the keys it returns. *)
Lemma get_expired_keys_loop_index fuel now h acc :
  pos_bijection h ->
  exists ks,
    (get_expired_keys_loop fuel now h acc).1 = acc ++ ks
    /\ NoDup ks
    /\ (forall e, e ∈ heap_ (get_expired_keys_loop fuel now h acc).2
          <-> e ∈ heap_ h /\ key e ∉ ks)
    /\ (forall k, k ∈ ks -> exists e, e ∈ heap_ h /\ key e = k /\ expiry e <= now).
Proof.
  revert h acc. induction fuel as [|fuel IH]; intros h acc Hpos.
  - exists []. simpl. rewrite app_nil_r. split; [done|]. split; [constructor|].
    split; [|by intros k ?%elem_of_nil].
    intros e. split; [intros ?; split; [done | by intros ?%elem_of_nil] | by intros [? _]].
  - simpl. destruct (heap_ h !! 0%nat) as [r|] eqn:Hr.
    + destruct (Z.leb_spec (expiry r) now) as [Hle|Hgt].
      * pose proof (pop_root_pos h r Hpos Hr) as Hpos1.
        pose proof (pop_root_mem h r Hpos Hr) as Hmem1.
        destruct (IH (pop_root h (key r)) (acc ++ [key r]) Hpos1)
          as (ks & Hk & Hnd & Hmem & Hdue).
        exists (key r :: ks). rewrite Hk, <- app_assoc. split; [done|].
        split; [|split].
        -- apply NoDup_cons. split; [|done].
           intros (e & [He Hne]%Hmem1 & Heq & _)%Hdue. done.
        -- intros e. rewrite Hmem, Hmem1, not_elem_of_cons. tauto.
        -- intros k [->|Hin]%elem_of_cons.
           ++ exists r. split; [by eapply list_elem_of_lookup_2 | done].
           ++ destruct (Hdue k Hin) as (e & [He _]%Hmem1 & ? & ?). eauto.
      * exists []. simpl. rewrite app_nil_r. split; [done|]. split; [constructor|].
        split; [|by intros k ?%elem_of_nil].
        intros e. split; [intros ?; split; [done | by intros ?%elem_of_nil] | by intros [? _]].
    + exists []. simpl. rewrite app_nil_r. split; [done|]. split; [constructor|].
      split; [|by intros k ?%elem_of_nil].
      intros e. split; [intros ?; split; [done | by intros ?%elem_of_nil] | by intros [? _]].
Qed.

Lemma get_expired_keys_index now h :
  pos_bijection h ->
  pos_bijection (get_expired_keys now h).2
  /\ NoDup (get_expired_keys now h).1
  /\ (forall k, is_Some (key_to_index_ (get_expired_keys now h).2 !! k)
        <-> is_Some (key_to_index_ h !! k) /\ k ∉ (get_expired_keys now h).1)
  /\ (forall k, k ∈ (get_expired_keys now h).1 ->
        exists e, e ∈ heap_ h /\ key e = k /\ expiry e <= now).
Proof.
  intros Hpos. unfold get_expired_keys.
  pose proof (get_expired_keys_loop_pos (length (heap_ h)) now h [] Hpos) as Hpos'.
  destruct (get_expired_keys_loop_index (length (heap_ h)) now h [] Hpos)
    as (ks & Hk & Hnd & Hmem & Hdue).
  simpl in Hk. rewrite Hk.
  split; [done|]. split; [done|]. split; [|done].
  intros k. rewrite (pos_keys _ k Hpos'), (pos_keys _ k Hpos), !list_elem_of_fmap. split.
  - intros (e & -> & [He Hno]%Hmem). split; [eauto | done].
  - intros [(e & -> & He) Hno]. exists e. split; [done|]. by apply Hmem.
Qed.
End HeapMore.

Lemma seven_invariant : HeapInv.invariant Runs.seven.
Proof.
  split.
  - apply HeapProofs.heap_order_check_correct. vm_compute. reflexivity.
  - apply HeapProofs.pos_bijection_check_correct. vm_compute. reflexivity.
Qed.

(** X15. [add] keeps the heap order and the index of the keys, for a new
    key and for a key that is there; afterwards the heap holds the key
    with the new expiry, and the entries of the other keys. *)
Theorem add_keeps_heap_invariant (h : TTLHeap.t) (k : string) (exp : Z) :
  HeapInv.invariant h ->
  HeapInv.invariant (TTLHeap.add h k exp)
  /\ forall e, e ∈ TTLHeap.heap_ (TTLHeap.add h k exp)
       <-> e = TTLHeap.mkEntry k exp \/ (e ∈ TTLHeap.heap_ h /\ TTLHeap.key e <> k).
Proof. apply HeapMore.add_spec. Qed.

Lemma add_keeps_heap_invariant_witness :
  HeapInv.invariant (TTLHeap.add Runs.seven "d" 0)
  /\ forall e, e ∈ TTLHeap.heap_ (TTLHeap.add Runs.seven "d" 0)
       <-> e = TTLHeap.mkEntry "d" 0 \/ (e ∈ TTLHeap.heap_ Runs.seven /\ TTLHeap.key e <> "d").
Proof. apply add_keeps_heap_invariant. apply seven_invariant. Defined.

(** X16. [remove] keeps the index of the keys in step with the heap and
    takes out the entry of the key and no other; the key is not indexed
    afterwards. *)
Theorem remove_keeps_index (h : TTLHeap.t) (k : string) :
  HeapInv.pos_bijection h ->
  HeapInv.pos_bijection (TTLHeap.remove h k)
  /\ (forall e, e ∈ TTLHeap.heap_ (TTLHeap.remove h k)
        <-> e ∈ TTLHeap.heap_ h /\ TTLHeap.key e <> k)
  /\ TTLHeap.key_to_index_ (TTLHeap.remove h k) !! k = None.
Proof.
  intros Hpos. destruct (HeapMore.remove_spec h k Hpos) as [Hpos' Hmem].
  split; [done|]. split; [done|].
  apply eq_None_not_Some. rewrite (HeapMore.pos_keys _ k Hpos'), list_elem_of_fmap.
  intros (e & -> & [_ Hne]%Hmem). done.
Qed.

Lemma remove_keeps_index_witness :
  HeapInv.pos_bijection (TTLHeap.remove Runs.seven "d")
  /\ (forall e, e ∈ TTLHeap.heap_ (TTLHeap.remove Runs.seven "d")
        <-> e ∈ TTLHeap.heap_ Runs.seven /\ TTLHeap.key e <> "d")
  /\ TTLHeap.key_to_index_ (TTLHeap.remove Runs.seven "d") !! "d" = None.
Proof. apply remove_keeps_index. apply seven_invariant. Defined.

(** X17. [get_expired_keys] keeps the heap order and the index of the
    keys; the keys it returns are distinct, and the keys indexed afterwards
    are those indexed before that it did not return. *)
Theorem get_expired_keys_keeps_index (h : TTLHeap.t) (now : Z) (k : string) :
  HeapInv.invariant h ->
  HeapInv.invariant (TTLHeap.get_expired_keys now h).2
  /\ NoDup (TTLHeap.get_expired_keys now h).1
  /\ (is_Some (TTLHeap.key_to_index_ (TTLHeap.get_expired_keys now h).2 !! k)
      <-> is_Some (TTLHeap.key_to_index_ h !! k)
          /\ k ∉ (TTLHeap.get_expired_keys now h).1).
Proof.
  intros [Ho%HeapProofs.heap_order_ordered Hpos]. unfold TTLHeap.get_expired_keys.
  destruct (HeapProofs.get_expired_keys_loop_spec (length (TTLHeap.heap_ h)) now h [] Ho)
    as (es & Hk & Hp & _ & _ & Ho' & _); [done|].
  pose proof (HeapMore.get_expired_keys_loop_pos (length (TTLHeap.heap_ h)) now h [] Hpos)
    as Hpos'.
  set (r := TTLHeap.get_expired_keys_loop (length (TTLHeap.heap_ h)) now h []) in *.
  simpl in Hk. rewrite Hk.
  pose proof (HeapMore.pos_NoDup h Hpos) as Hnd.
  rewrite Hp, fmap_app in Hnd. apply NoDup_app in Hnd as (Hnd1 & Hdisj & Hnd2).
  split; [split; [by apply HeapProofs.heap_order_ordered | done]|].
  split; [done|].
  rewrite (HeapMore.pos_keys _ k Hpos'), (HeapMore.pos_keys _ k Hpos), Hp, fmap_app, elem_of_app.
  split.
  - intros Hin. split; [by right|]. intros Hes. by apply (Hdisj k).
  - intros [[Hes|Hin] Hno]; [by destruct Hno | done].
Qed.

Lemma get_expired_keys_keeps_index_witness :
  HeapInv.invariant (TTLHeap.get_expired_keys 3 Runs.seven).2
  /\ NoDup (TTLHeap.get_expired_keys 3 Runs.seven).1
  /\ (is_Some (TTLHeap.key_to_index_ (TTLHeap.get_expired_keys 3 Runs.seven).2 !! "c")
      <-> is_Some (TTLHeap.key_to_index_ Runs.seven !! "c")
          /\ "c" ∉ (TTLHeap.get_expired_keys 3 Runs.seven).1).
Proof. apply get_expired_keys_keeps_index. apply seven_invariant. Defined.

(** X18. On a heap in heap order, [next_expiry] is the smallest expiry of
    the heap, and there is none exactly when the heap is empty. *)
Theorem next_expiry_is_minimum (h : TTLHeap.t) :
  HeapInv.heap_order (TTLHeap.heap_ h) ->
  match TTLHeap.next_expiry h with
  | Some t =>
      (exists e, e ∈ TTLHeap.heap_ h /\ TTLHeap.expiry e = t)
      /\ Forall (fun e => t <= TTLHeap.expiry e) (TTLHeap.heap_ h)
  | None => TTLHeap.empty h = true
  end.
Proof.
  intros Ho%HeapProofs.heap_order_ordered. unfold TTLHeap.next_expiry, TTLHeap.empty.
  destruct (TTLHeap.heap_ h !! 0%nat) as [r|] eqn:Hr; simpl.
  - split; [exists r; split; [by eapply list_elem_of_lookup_2 | done]|].
    apply Forall_forall. intros e [i Hi]%list_elem_of_lookup.
    by eapply HeapProofs.ordered_root_min.
  - apply bool_decide_eq_true. by destruct (TTLHeap.heap_ h).
Qed.

Lemma next_expiry_is_minimum_witness :
  match TTLHeap.next_expiry Runs.seven with
  | Some t =>
      (exists e, e ∈ TTLHeap.heap_ Runs.seven /\ TTLHeap.expiry e = t)
      /\ Forall (fun e => t <= TTLHeap.expiry e) (TTLHeap.heap_ Runs.seven)
  | None => TTLHeap.empty Runs.seven = true
  end.
Proof. apply next_expiry_is_minimum. apply seven_invariant. Defined.

(** X19. [update] returns exactly when the key is in the heap: for a key
    that is not, it calls [add] under the mutex it holds and never comes
    back. When it returns, the heap order and the index are kept, and the
    key has the new expiry. *)
Theorem update_keeps_heap_invariant (h : TTLHeap.t) (k : string) (exp : Z) :
  HeapInv.invariant h ->
  match TTLHeap.update h k exp with
  | Some h' =>
      is_Some (TTLHeap.key_to_index_ h !! k)
      /\ HeapInv.invariant h'
      /\ TTLHeap.mkEntry k exp ∈ TTLHeap.heap_ h'
      /\ length (TTLHeap.heap_ h') = length (TTLHeap.heap_ h)
  | None => TTLHeap.key_to_index_ h !! k = None
  end.
Proof.
  intros [Ho%HeapProofs.heap_order_ordered Hpos]. unfold TTLHeap.update.
  destruct (TTLHeap.key_to_index_ h !! k) as [index|] eqn:Hk; [|done].
  apply Hpos in Hk as (e0 & He0 & <-). rewrite He0.
  destruct (HeapMore.resift_spec h index e0 exp Ho Hpos He0)
    as (Hpos1 & _ & _ & _ & Hdown & Hup).
  set (h1 := {| TTLHeap.heap_ := <[index := TTLHeap.mkEntry (TTLHeap.key e0) exp]>
                                   (TTLHeap.heap_ h);
                TTLHeap.key_to_index_ := TTLHeap.key_to_index_ h |}) in *.
  assert (TTLHeap.mkEntry (TTLHeap.key e0) exp ∈ TTLHeap.heap_ h1) as Hin.
  { apply list_elem_of_lookup. exists index. simpl.
    rewrite list_lookup_insert_eq; [done | by eapply lookup_lt_Some]. }
  assert (length (TTLHeap.heap_ h1) = length (TTLHeap.heap_ h)) as Hlen
    by (simpl; by rewrite length_insert).
  split; [eauto|].
  destruct (Z.ltb_spec exp (TTLHeap.expiry e0)) as [Hlt|Hge].
  - destruct (HeapMore.heapify_up_loop_pos index h1 index Hpos1) as [Hpos2 Hperm].
    fold (TTLHeap.heapify_up h1 index) in *.
    split; [split; [apply HeapProofs.heap_order_ordered; by apply Hup | done]|].
    split; [by rewrite Hperm | by rewrite Hperm].
  - destruct (HeapMore.heapify_down_loop_pos (length (TTLHeap.heap_ h1)) h1 index Hpos1)
      as [Hpos2 Hperm].
    fold (TTLHeap.heapify_down h1 index) in *.
    split; [split; [apply HeapProofs.heap_order_ordered; by apply Hdown | done]|].
    split; [by rewrite Hperm | by rewrite Hperm].
Qed.

Lemma update_keeps_heap_invariant_witness :
  match TTLHeap.update Runs.seven "d" 0 with
  | Some h' =>
      is_Some (TTLHeap.key_to_index_ Runs.seven !! "d")
      /\ HeapInv.invariant h'
      /\ TTLHeap.mkEntry "d" 0 ∈ TTLHeap.heap_ h'
      /\ length (TTLHeap.heap_ h') = length (TTLHeap.heap_ Runs.seven)
  | None => TTLHeap.key_to_index_ Runs.seven !! "d" = None
  end.
Proof. apply update_keeps_heap_invariant. apply seven_invariant. Defined.

(** * The hash table as a map from keys to entries *)
Module HashMore.
Import HashTable HashInv HashProofs.
Section HashMore.
Variable hash : string -> nat.

Abbreviation wf := (HashInv.wf hash).
Abbreviation get := (HashTable.get hash).
Abbreviation store := (HashTable.store hash).
Abbreviation del := (HashTable.del hash).

Lemma entries_NoDup tb : wf tb -> NoDup (entries tb).
Proof. intros (_ & _ & _ & Hnd & _). by eapply NoDup_fmap_1. Qed.

(** ** get reads the one entry of the key *)
Lemma get_elem tb e : wf tb -> e ∈ entries tb -> get tb (key e) = Some (value e).
Proof.
  intros Hwf He. unfold get, HashTable.get.
  destruct (find_entry_complete hash tb (key e) e Hwf He eq_refl) as [i ->]. done.
Qed.

Lemma get_Some tb k v :
  wf tb -> get tb k = Some v -> exists e, e ∈ entries tb /\ key e = k /\ value e = v.
Proof.
  intros Hwf. unfold get, HashTable.get.
  destruct (find_entry tb k (hash_function hash tb k)) as [[i e]|] eqn:Hf; [|done].
  intros [= <-]. destruct (find_entry_Some hash _ _ _ _ Hwf Hf) as (He & Hk & _). eauto.
Qed.

Lemma get_None tb k :
  wf tb -> get tb k = None <-> (forall e, e ∈ entries tb -> key e <> k).
Proof.
  intros Hwf. split.
  - unfold get, HashTable.get.
    destruct (find_entry tb k (hash_function hash tb k)) as [[i e]|] eqn:Hf; [done|].
    intros _. by apply (find_entry_None hash).
  - intros Hno. destruct (get tb k) as [v|] eqn:Hg; [|done].
    apply get_Some in Hg as (e & He & Hk & _); [|done]. by destruct (Hno e).
Qed.

Lemma exists_get tb k : exists_ hash tb k = bool_decide (is_Some (get tb k)).
Proof.
  unfold exists_, get, HashTable.get.
  destruct (find_entry tb k (hash_function hash tb k)) as [[i e]|].
  - by rewrite bool_decide_eq_true_2 by eauto.
  - by rewrite bool_decide_eq_false_2 by (by intros [? ?]).
Qed.

(** Two tables with the same entries under a key answer alike. *)
Lemma get_transfer tb tb' k :
  wf tb -> wf tb' ->
  (forall e, key e = k -> e ∈ entries tb' <-> e ∈ entries tb) ->
  get tb' k = get tb k.
Proof.
  intros Hwf Hwf' Hsame.
  destruct (get tb k) as [v|] eqn:Hg.
  - apply get_Some in Hg as (e & He & <- & <-); [|done].
    apply get_elem; [done|]. by apply Hsame.
  - apply get_None; [done|]. intros e He Hk.
    eapply (proj1 (get_None tb k Hwf) Hg e); [|done]. by apply Hsame.
Qed.

(** ** The entries after each operation *)
Lemma entries_split tb k i e :
  wf tb -> find_entry tb k (hash_function hash tb k) = Some (i, e) ->
  let idx := hash_function hash tb k in
  let rest := entries (set_bucket tb idx (delete i (bucket tb idx))) in
  entries tb ≡ₚ e :: rest
  /\ forall e', entries (set_bucket tb idx (<[i := e']> (bucket tb idx))) ≡ₚ e' :: rest.
Proof.
  intros Hwf Hf idx rest.
  destruct (find_entry_Some hash _ _ _ _ Hwf Hf) as (He & Hke & Hbi).
  pose proof (bucket_lookup hash tb k Hwf) as Hb. fold idx in Hb, Hbi.
  set (b := bucket tb idx) in *.
  destruct (join_insert (buckets_ tb) idx b (delete i b) Hb) as [E1 E2].
  split.
  - unfold rest, entries. simpl. rewrite E1, E2.
    rewrite (delete_Permutation b i e Hbi) at 1.
    simpl. symmetry. apply Permutation_middle.
  - intros e'. destruct (join_insert (buckets_ tb) idx b (<[i := e']> b) Hb) as [_ E3].
    unfold rest, entries. simpl. rewrite E2, E3.
    assert (<[i := e']> b ≡ₚ e' :: delete i b) as ->.
    { rewrite insert_take_drop by (by eapply lookup_lt_Some).
      rewrite delete_take_drop. symmetry. apply Permutation_middle. }
    simpl. symmetry. apply Permutation_middle.
Qed.

Lemma entries_append tb k x :
  wf tb ->
  let idx := hash_function hash tb k in
  entries (set_bucket tb idx (bucket tb idx ++ [x])) ≡ₚ x :: entries tb.
Proof.
  intros Hwf idx. pose proof (bucket_lookup hash tb k Hwf) as Hb. fold idx in Hb.
  destruct (join_insert (buckets_ tb) idx _ (bucket tb idx ++ [x]) Hb) as [E1 E2].
  unfold entries. simpl. rewrite E1, E2.
  rewrite <- !app_assoc. simpl. by rewrite <- !Permutation_middle.
Qed.

Lemma resize_entries tb new_size :
  (0 < new_size)%nat -> entries (resize hash tb new_size) ≡ₚ entries tb.
Proof.
  intros Hn.
  destruct (rehash_spec hash new_size (entries tb) (replicate new_size []) Hn)
    as (_ & _ & H3).
  { apply length_replicate. }
  { intros i b e [-> _]%lookup_replicate_1 He. by apply elem_of_nil in He. }
  rewrite join_replicate_nil in H3. exact H3.
Qed.

Lemma resize_if_needed_entries tb :
  wf tb -> entries (resize_if_needed hash tb) ≡ₚ entries tb.
Proof.
  intros (_ & Hpos & _). unfold resize_if_needed. case_match; [|done].
  apply resize_entries. lia.
Qed.

Lemma split_rest tb (e : Entry) rest :
  wf tb -> entries tb ≡ₚ e :: rest ->
  forall x, x ∈ rest <-> x ∈ entries tb /\ key x <> key e.
Proof.
  intros (_ & _ & _ & Hnd & _) Hp x. rewrite Hp in Hnd. simpl in Hnd.
  apply NoDup_cons in Hnd as [Hnotin _]. rewrite Hp, elem_of_cons. split.
  - intros Hx. split; [by right|]. intros Hk. apply Hnotin. rewrite <- Hk.
    by apply list_elem_of_fmap_2.
  - intros [[->|Hx] Hk]; done.
Qed.

Lemma append_entry_wf tb k v exp :
  wf tb -> find_entry tb k (hash_function hash tb k) = None ->
  wf (with_size
        (set_bucket tb (hash_function hash tb k)
           (bucket tb (hash_function hash tb k) ++ [mkEntry k v exp]))
        (size_incr (size_ tb))).
Proof.
  intros Hwf Hf.
  pose proof (bucket_placed hash tb k Hwf) as Hpl.
  pose proof (find_entry_None hash tb k Hwf Hf) as Hfresh.
  pose proof (entries_append tb k (mkEntry k v exp) Hwf) as Hperm.
  pose proof Hwf as (Hlen & Hpos & Hplace & Hnd & Hsize).
  eapply set_bucket_wf; try done.
  - by apply hash_function_lt.
  - apply Forall_app. split; [done|]. by constructor.
  - simpl. apply NoDup_cons. split; [|done].
    intros (e & Hk & He)%list_elem_of_fmap. by apply (Hfresh e He).
  - rewrite Hsize. simpl length. unfold size_incr.
    rewrite Zplus_mod_idemp_l. f_equal. lia.
Qed.

Lemma store_entries tb k v exp x :
  wf tb ->
  x ∈ entries (store tb k v exp).2
  <-> x = mkEntry k v exp \/ (x ∈ entries tb /\ key x <> k).
Proof.
  intros Hwf. unfold store, HashTable.store.
  destruct (find_entry tb k (hash_function hash tb k)) as [[i e]|] eqn:Hf; simpl.
  - destruct (find_entry_Some hash _ _ _ _ Hwf Hf) as (He & Hke & _).
    destruct (entries_split tb k i e Hwf Hf) as [Hp1 Hp2].
    rewrite (Hp2 (mkEntry (key e) v exp)), elem_of_cons, (split_rest tb e _ Hwf Hp1).
    by rewrite Hke.
  - pose proof (find_entry_None hash tb k Hwf Hf) as Hfresh.
    pose proof (entries_append tb k (mkEntry k v exp) Hwf) as Hp.
    rewrite resize_if_needed_entries.
    + change (entries (with_size ?t _)) with (entries t). rewrite Hp, elem_of_cons.
      split.
      * intros [->|Hx]; [by left|]. right. split; [done | by apply Hfresh].
      * intros [->|[Hx _]]; [by left | by right].
    + by apply append_entry_wf.
Qed.

Lemma del_entries tb k x :
  wf tb -> x ∈ entries (del tb k).2 <-> x ∈ entries tb /\ key x <> k.
Proof.
  intros Hwf. unfold del, HashTable.del.
  destruct (find_entry tb k (hash_function hash tb k)) as [[i e]|] eqn:Hf; simpl.
  - destruct (find_entry_Some hash _ _ _ _ Hwf Hf) as (He & Hke & _).
    destruct (entries_split tb k i e Hwf Hf) as [Hp1 _].
    change (entries (with_size ?t _)) with (entries t).
    rewrite (split_rest tb e _ Hwf Hp1). by rewrite Hke.
  - pose proof (find_entry_None hash tb k Hwf Hf) as Hfresh.
    split; [|by intros [? _]]. intros Hx. split; [done | by apply Hfresh].
Qed.

Lemma expire_entries tb k ttl now x :
  wf tb ->
  x ∈ entries (expire hash tb k ttl now).2
  <-> (exists e, e ∈ entries tb /\ key e = k
                 /\ x = mkEntry k (value e) (Some (after now ttl)))
      \/ (x ∈ entries tb /\ key x <> k).
Proof.
  intros Hwf. unfold expire.
  destruct (find_entry tb k (hash_function hash tb k)) as [[i e]|] eqn:Hf; simpl.
  - destruct (find_entry_Some hash _ _ _ _ Hwf Hf) as (He & Hke & _).
    destruct (entries_split tb k i e Hwf Hf) as [Hp1 Hp2].
    rewrite (Hp2 _), elem_of_cons, (split_rest tb e _ Hwf Hp1). rewrite Hke.
    split; intros [Hx|Hx]; auto.
    + left. exists e. done.
    + left. destruct Hx as (e' & He' & Hk' & ->).
      assert (e' = e) as ->; [|done].
      destruct Hwf as (_ & _ & _ & Hnd & _).
      eapply (key_unique (entries tb)); try done. congruence.
  - pose proof (find_entry_None hash tb k Hwf Hf) as Hfresh.
    split; [|intros [(e & He & Hk & _)|[? _]]; [by destruct (Hfresh e He) | done]].
    intros Hx. right. split; [done | by apply Hfresh].
Qed.


(** ** get after each operation *)
Lemma get_store tb k v exp k' :
  wf tb ->
  get (store tb k v exp).2 k' = if decide (k' = k) then Some v else get tb k'.
Proof.
  intros Hwf. pose proof (store_wf hash tb k v exp Hwf) as Hwf'.
  destruct (decide (k' = k)) as [->|Hne].
  - apply (get_elem _ (mkEntry k v exp) Hwf'). apply store_entries; auto.
  - apply get_transfer; try done. intros e He. rewrite store_entries by done.
    split; [intros [->|[? _]]; done|]. intros Hin. right. split; [done | congruence].
Qed.

Lemma get_del tb k k' :
  wf tb -> get (del tb k).2 k' = if decide (k' = k) then None else get tb k'.
Proof.
  intros Hwf. pose proof (del_wf hash tb k Hwf) as Hwf'.
  destruct (decide (k' = k)) as [->|Hne].
  - apply get_None; [done|]. by intros e [_ ?]%del_entries.
  - apply get_transfer; try done. intros e He. rewrite del_entries by done.
    split; [by intros [? _]|]. intros Hin. split; [done | congruence].
Qed.

Lemma del_result tb k : (del tb k).1 = exists_ hash tb k.
Proof.
  unfold del, HashTable.del, exists_.
  by destruct (find_entry tb k (hash_function hash tb k)) as [[i e]|].
Qed.

Lemma get_resize tb new_size k :
  wf tb -> (0 < new_size)%nat -> get (resize hash tb new_size) k = get tb k.
Proof.
  intros Hwf Hn. apply get_transfer; [done | by apply resize_wf |].
  intros e _. by rewrite resize_entries.
Qed.

Lemma get_expire tb k ttl now k' :
  wf tb -> get (expire hash tb k ttl now).2 k' = get tb k'.
Proof.
  intros Hwf. pose proof (expire_wf hash tb k ttl now Hwf) as Hwf'.
  destruct (get tb k') as [v|] eqn:Hg.
  - apply get_Some in Hg as (e & He & <- & <-); [|done].
    destruct (decide (key e = k)) as [Hk|Hk].
    + apply (get_elem _ (mkEntry (key e) (value e) (Some (after now ttl))) Hwf').
      apply expire_entries; [done|]. left. exists e. by rewrite Hk.
    + apply (get_elem _ e Hwf'). apply expire_entries; auto.
  - apply get_None; [done|]. intros x Hx Hk.
    pose proof (proj1 (get_None tb k' Hwf) Hg) as Hno.
    apply expire_entries in Hx as [(e & He & Hke & ->)|[Hx _]]; [| |done].
    + apply (Hno e He). simpl in Hk. congruence.
    + by apply (Hno x).
Qed.

End HashMore.
End HashMore.

(** X20. On a well-formed table, [set] and [set_with_expiry] succeed and
    [del] returns whether the key was there; afterwards [get] of the key
    returns the value stored, or nothing after [del], and [get] of every
    other key returns what it did, also when the table grew. *)
Theorem get_after_set_and_del (hash : string -> nat) (tb : HashTable.t) (k k' : string)
    (v : Value) (ttl now : Z) :
  HashInv.wf hash tb ->
  (HashTable.set hash tb k v).1 = true
  /\ HashTable.get hash (HashTable.set hash tb k v).2 k'
     = (if decide (k' = k) then Some v else HashTable.get hash tb k')
  /\ (HashTable.set_with_expiry hash tb k v ttl now).1 = true
  /\ HashTable.get hash (HashTable.set_with_expiry hash tb k v ttl now).2 k'
     = (if decide (k' = k) then Some v else HashTable.get hash tb k')
  /\ (HashTable.del hash tb k).1 = HashTable.exists_ hash tb k
  /\ HashTable.get hash (HashTable.del hash tb k).2 k'
     = (if decide (k' = k) then None else HashTable.get hash tb k').
Proof.
  intros Hwf. unfold HashTable.set, HashTable.set_with_expiry.
  rewrite !HashMore.get_store by done.
  rewrite HashMore.del_result, HashMore.get_del by done.
  unfold HashTable.store.
  by destruct (HashTable.find_entry tb k (HashTable.hash_function hash tb k)) as [[i e]|].
Qed.

(** X21. [resize] of a well-formed table to a positive number of buckets
    gives a well-formed table of that many buckets, with the same size and
    the same answer of [get] for every key. *)
Theorem resize_keeps_lookups (hash : string -> nat) (tb : HashTable.t) (new_size : nat)
    (k : string) :
  HashInv.wf hash tb -> (0 < new_size)%nat ->
  HashInv.wf hash (HashTable.resize hash tb new_size)
  /\ HashTable.bucket_count_ (HashTable.resize hash tb new_size) = new_size
  /\ HashTable.size (HashTable.resize hash tb new_size) = HashTable.size tb
  /\ HashTable.get hash (HashTable.resize hash tb new_size) k = HashTable.get hash tb k.
Proof.
  intros Hwf Hn. split; [by apply HashProofs.resize_wf|].
  split; [done|]. split; [done|]. by apply HashMore.get_resize.
Qed.

(** X22. On a well-formed table and for a deadline [now + ttl] that fits
    the signed 64-bit nanoseconds of the clock, [expire] returns whether
    the key was there, gives its entry the deadline [now + ttl], and leaves
    what [get] returns for every key. *)
Theorem expire_keeps_values (hash : string -> nat) (tb : HashTable.t) (k k' : string)
    (ttl now : Z) :
  HashInv.wf hash tb ->
  deadline_fits now ttl ->
  (HashTable.expire hash tb k ttl now).1 = HashTable.exists_ hash tb k
  /\ HashTable.get hash (HashTable.expire hash tb k ttl now).2 k' = HashTable.get hash tb k'
  /\ Forall (fun e => key e = k -> expiry e = Some (after now ttl))
       (HashInv.entries (HashTable.expire hash tb k ttl now).2).
Proof.
  intros Hwf _. split; [|split; [by apply HashMore.get_expire|]].
  - unfold HashTable.expire, HashTable.exists_.
    by destruct (HashTable.find_entry tb k (HashTable.hash_function hash tb k)) as [[i e]|].
  - apply Forall_forall. intros x Hx Hk.
    apply HashMore.expire_entries in Hx as [(e & _ & _ & ->)|[_ Hne]]; done.
Qed.

Lemma small_table_wf : HashInv.wf hash_length Samples.small_table.
Proof. apply HashProofs.wf_check_correct. vm_compute. reflexivity. Qed.

Lemma get_after_set_and_del_witness :
  (HashTable.set hash_length Samples.small_table "ccc" (Value_of_string "3")).1 = true
  /\ HashTable.get hash_length
       (HashTable.set hash_length Samples.small_table "ccc" (Value_of_string "3")).2 "a"
     = (if decide ("a" = "ccc") then Some (Value_of_string "3")
        else HashTable.get hash_length Samples.small_table "a")
  /\ (HashTable.set_with_expiry hash_length Samples.small_table "ccc"
        (Value_of_string "3") 10 0).1 = true
  /\ HashTable.get hash_length
       (HashTable.set_with_expiry hash_length Samples.small_table "ccc"
          (Value_of_string "3") 10 0).2 "a"
     = (if decide ("a" = "ccc") then Some (Value_of_string "3")
        else HashTable.get hash_length Samples.small_table "a")
  /\ (HashTable.del hash_length Samples.small_table "ccc").1
     = HashTable.exists_ hash_length Samples.small_table "ccc"
  /\ HashTable.get hash_length (HashTable.del hash_length Samples.small_table "ccc").2 "a"
     = (if decide ("a" = "ccc") then None
        else HashTable.get hash_length Samples.small_table "a").
Proof. apply get_after_set_and_del. apply small_table_wf. Defined.

Lemma resize_keeps_lookups_witness :
  HashInv.wf hash_length (HashTable.resize hash_length Samples.small_table 3)
  /\ HashTable.bucket_count_ (HashTable.resize hash_length Samples.small_table 3) = 3%nat
  /\ HashTable.size (HashTable.resize hash_length Samples.small_table 3)
     = HashTable.size Samples.small_table
  /\ HashTable.get hash_length (HashTable.resize hash_length Samples.small_table 3) "bb"
     = HashTable.get hash_length Samples.small_table "bb".
Proof. apply resize_keeps_lookups; [apply small_table_wf | lia]. Defined.

Lemma expire_keeps_values_witness :
  (HashTable.expire hash_length Samples.small_table "a" 10 0).1
  = HashTable.exists_ hash_length Samples.small_table "a"
  /\ HashTable.get hash_length (HashTable.expire hash_length Samples.small_table "a" 10 0).2 "a"
     = HashTable.get hash_length Samples.small_table "a"
  /\ Forall (fun e => key e = "a" -> expiry e = Some (after 0 10))
       (HashInv.entries (HashTable.expire hash_length Samples.small_table "a" 10 0).2).
Proof.
  apply expire_keeps_values; [apply small_table_wf|].
  unfold deadline_fits, int64_range, after, ticks_per_second. lia.
Defined.

(** * The engine on reachable states *)
Module EngineProofs.
Import HashInv.
Section EngineProofs.
Variable hash : string -> nat.

Abbreviation invariant := (EngineInv.invariant hash).
Abbreviation wf := (HashInv.wf hash).

Lemma add_pos h k exp :
  HeapInv.pos_bijection h ->
  HeapInv.pos_bijection (TTLHeap.add h k exp)
  /\ forall k', is_Some (TTLHeap.key_to_index_ (TTLHeap.add h k exp) !! k')
       <-> k' = k \/ is_Some (TTLHeap.key_to_index_ h !! k').
Proof.
  intros Hpos. unfold TTLHeap.add.
  destruct (TTLHeap.key_to_index_ h !! k) as [index|] eqn:Hk.
  - pose proof Hk as Hk'. apply Hpos in Hk as (e0 & He0 & <-). rewrite He0.
    set (h1 := {| TTLHeap.heap_ := <[index := TTLHeap.mkEntry (TTLHeap.key e0) exp]>
                                     (TTLHeap.heap_ h);
                  TTLHeap.key_to_index_ := TTLHeap.key_to_index_ h |}).
    assert (HeapInv.pos_bijection h1) as Hpos1.
    { intros k j. simpl. rewrite (Hpos k j).
      destruct (decide (j = index)) as [->|].
      + rewrite list_lookup_insert_eq by (by eapply lookup_lt_Some). rewrite He0. split.
        * intros (e' & [= <-] & <-). eauto.
        * intros (e' & [= <-] & <-). eauto.
      + by rewrite list_lookup_insert_ne. }
    destruct (HeapMore.heapify_up_loop_pos index h1 index Hpos1) as [Hpos2 Hperm2].
    fold (TTLHeap.heapify_up h1 index) in *.
    destruct (HeapMore.heapify_down_loop_pos
                (length (TTLHeap.heap_ (TTLHeap.heapify_up h1 index)))
                (TTLHeap.heapify_up h1 index) index Hpos2) as [Hpos3 Hperm3].
    fold (TTLHeap.heapify_down (TTLHeap.heapify_up h1 index) index) in *.
    split; [done|]. intros k'.
    rewrite (HeapMore.pos_keys _ k' Hpos3), Hperm3, Hperm2.
    rewrite <- (HeapMore.pos_keys _ k' Hpos1). simpl.
    split; [by right|]. intros [->|?]; [by eauto | done].
  - assert ((length (TTLHeap.heap_ h ++ [TTLHeap.mkEntry k exp]) - 1)%nat
            = length (TTLHeap.heap_ h)) as -> by (rewrite length_app; simpl; lia).
    set (h1 := {| TTLHeap.heap_ := TTLHeap.heap_ h ++ [TTLHeap.mkEntry k exp];
                  TTLHeap.key_to_index_ :=
                    <[k := length (TTLHeap.heap_ h)]> (TTLHeap.key_to_index_ h) |}).
    assert (forall e, e ∈ TTLHeap.heap_ h -> TTLHeap.key e <> k) as Hfresh.
    { intros e [j Hj]%list_elem_of_lookup Heq.
      assert (TTLHeap.key_to_index_ h !! k = Some j) as Hc by (apply Hpos; eauto).
      congruence. }
    assert (HeapInv.pos_bijection h1) as Hpos1.
    { intros k' j. simpl. destruct (decide (k' = k)) as [->|Hne].
      + rewrite lookup_insert_eq. split.
        * intros [= <-]. exists (TTLHeap.mkEntry k exp). split; [|done].
          rewrite lookup_app_r by lia. by rewrite Nat.sub_diag.
        * intros (e & He & Hke). f_equal.
          apply lookup_app_Some in He as [He|[Hle He]].
          -- exfalso. apply (Hfresh e); [by eapply list_elem_of_lookup_2 | done].
          -- apply lookup_lt_Some in He as Hlt. simpl in Hlt. lia.
      + rewrite lookup_insert_ne by done. rewrite (Hpos k' j).
        split; intros (e & He & Hke); exists e; (split; [|done]).
        * by apply lookup_app_l_Some.
        * apply lookup_app_Some in He as [He|[Hle He]]; [done|].
          destruct (j - length (TTLHeap.heap_ h))%nat; simplify_eq/=. }
    destruct (HeapMore.heapify_up_loop_pos (length (TTLHeap.heap_ h)) h1
                (length (TTLHeap.heap_ h)) Hpos1) as [Hpos2 Hperm2].
    fold (TTLHeap.heapify_up h1 (length (TTLHeap.heap_ h))) in *.
    split; [done|]. intros k'.
    rewrite (HeapMore.pos_keys _ k' Hpos2), Hperm2. simpl.
    rewrite fmap_app, elem_of_app.
    change (TTLHeap.key <$> [TTLHeap.mkEntry k exp]) with [k].
    rewrite list_elem_of_singleton, <- (HeapMore.pos_keys _ k' Hpos). tauto.
Qed.

(** Deleting a list of keys, as the expiry pass does. *)
Lemma del_all_wf tb ks :
  wf tb -> wf (foldl (fun tb k => (HashTable.del hash tb k).2) tb ks).
Proof.
  revert tb. induction ks as [|k ks IH]; intros tb Hwf; [done|].
  simpl. apply IH. by apply HashProofs.del_wf.
Qed.

Lemma del_all_entries tb ks x :
  wf tb ->
  x ∈ entries (foldl (fun tb k => (HashTable.del hash tb k).2) tb ks)
  <-> x ∈ entries tb /\ key x ∉ ks.
Proof.
  revert tb. induction ks as [|k ks IH]; intros tb Hwf; simpl.
  - split; [intros ?; split; [done | by intros ?%elem_of_nil] | by intros [? _]].
  - rewrite IH by (by apply HashProofs.del_wf).
    rewrite HashMore.del_entries by done. rewrite not_elem_of_cons. tauto.
Qed.

Lemma del_all_get tb ks k :
  wf tb ->
  HashTable.get hash (foldl (fun tb k => (HashTable.del hash tb k).2) tb ks) k
  = if decide (k ∈ ks) then None else HashTable.get hash tb k.
Proof.
  intros Hwf. pose proof (del_all_wf tb ks Hwf) as Hwf'.
  destruct (decide (k ∈ ks)) as [Hin|Hnot].
  - apply HashMore.get_None; [done|]. intros e [_ Hk]%del_all_entries; [|done].
    intros <-. done.
  - apply HashMore.get_transfer; try done. intros e <-.
    rewrite del_all_entries by done. tauto.
Qed.

(** ** The table after a command *)
Lemma set_table st k v :
  StorageEngine.hash_table_ (StorageEngine.set hash st k v).2
  = (HashTable.store hash (StorageEngine.hash_table_ st) k (Value_of_string v) None).2.
Proof.
  unfold StorageEngine.set, HashTable.set. by destruct (HashTable.store _ _ _ _ _).
Qed.

Lemma set_ex_table st k v ttl now1 now2 :
  StorageEngine.hash_table_ (StorageEngine.set_ex hash st k v ttl now1 now2).2
  = (HashTable.store hash (StorageEngine.hash_table_ st) k (Value_of_string v)
       (Some (after now1 ttl))).2.
Proof.
  unfold StorageEngine.set_ex, HashTable.set_with_expiry.
  by destruct (HashTable.store _ _ _ _ _) as [[] tb].
Qed.

Lemma del_table st k :
  StorageEngine.hash_table_ (StorageEngine.del hash st k).2
  = (HashTable.del hash (StorageEngine.hash_table_ st) k).2
  /\ (StorageEngine.del hash st k).1 = (HashTable.del hash (StorageEngine.hash_table_ st) k).1.
Proof.
  unfold StorageEngine.del. by destruct (HashTable.del _ _ _) as [[] tb].
Qed.

Lemma engine_get_table st st' k :
  HashTable.get hash (StorageEngine.hash_table_ st') k
  = HashTable.get hash (StorageEngine.hash_table_ st) k ->
  StorageEngine.get hash st' k = StorageEngine.get hash st k
  /\ StorageEngine.exists_ hash st' k = StorageEngine.exists_ hash st k.
Proof.
  intros Hg. unfold StorageEngine.get, StorageEngine.exists_.
  by rewrite !HashMore.exists_get, Hg.
Qed.

(** ** The invariant along the commands *)
Lemma ptr_valid_with_table st tb :
  EngineInv.ptr_valid st ->
  (forall e, e ∈ entries tb -> is_sorted_set (value e) = true ->
     e ∈ entries (StorageEngine.hash_table_ st)) ->
  EngineInv.ptr_valid (StorageEngine.with_table st tb).
Proof. intros Hp Hsub e He Hs. apply (Hp e); [by apply Hsub | done]. Qed.

Lemma store_invariant st k v exp :
  invariant st -> is_sorted_set v = false ->
  invariant (StorageEngine.with_table st
               (HashTable.store hash (StorageEngine.hash_table_ st) k v exp).2).
Proof.
  intros (Hwf & Hpos & Hp & Hs) Hv.
  split; [by apply HashProofs.store_wf|]. split; [done|]. split.
  - apply ptr_valid_with_table; [done|].
    intros e [->|[? _]]%HashMore.store_entries Hse; [simpl in *; congruence | done | done].
  - intros k' Hk'. simpl in *. rewrite HashMore.get_store by done.
    case_decide; [eauto | by apply Hs].
Qed.

Lemma with_heap_add_invariant st k exp :
  invariant st -> is_Some (HashTable.get hash (StorageEngine.hash_table_ st) k) ->
  invariant (StorageEngine.with_heap st (TTLHeap.add (StorageEngine.ttl_heap_ st) k exp)).
Proof.
  intros (Hwf & Hpos & Hp & Hs) Hk.
  destruct (add_pos (StorageEngine.ttl_heap_ st) k exp Hpos) as [Hpos' Hkeys].
  split; [done|]. split; [done|]. split; [done|].
  intros k' [->|Hk']%Hkeys; [done | by apply Hs].
Qed.

Lemma set_invariant st k v :
  invariant st -> invariant (StorageEngine.set hash st k v).2.
Proof.
  intros Hinv. pose proof (store_invariant st k (Value_of_string v) None Hinv eq_refl) as H.
  unfold StorageEngine.set, HashTable.set. by destruct (HashTable.store _ _ _ _ _).
Qed.

Lemma set_ex_invariant st k v ttl now1 now2 :
  invariant st -> invariant (StorageEngine.set_ex hash st k v ttl now1 now2).2.
Proof.
  intros Hinv.
  pose proof (store_invariant st k (Value_of_string v) (Some (after now1 ttl)) Hinv eq_refl)
    as H.
  assert (is_Some (HashTable.get hash
            (HashTable.store hash (StorageEngine.hash_table_ st) k (Value_of_string v)
               (Some (after now1 ttl))).2 k)) as Hk.
  { destruct Hinv as (Hwf & _). rewrite HashMore.get_store by done.
    rewrite decide_True by done. eauto. }
  unfold StorageEngine.set_ex, HashTable.set_with_expiry.
  destruct (HashTable.store _ _ _ _ _) as [[] tb]; simpl in *; [|done].
  by apply (with_heap_add_invariant _ k (after now2 ttl) H).
Qed.

Lemma del_invariant st k :
  invariant st -> invariant (StorageEngine.del hash st k).2.
Proof.
  intros (Hwf & Hpos & Hp & Hs). unfold StorageEngine.del.
  pose proof (HashProofs.del_wf hash _ k Hwf) as Hwf'.
  pose proof (fun x => HashMore.del_entries hash (StorageEngine.hash_table_ st) k x Hwf)
    as Hent.
  pose proof (fun k' => HashMore.get_del hash (StorageEngine.hash_table_ st) k k' Hwf) as Hget.
  pose proof (HashMore.del_result hash (StorageEngine.hash_table_ st) k) as Hres.
  destruct (HashTable.del _ _ _) as [r tb]. simpl in *.
  assert (EngineInv.ptr_valid (StorageEngine.with_table st tb)) as Hp'.
  { apply ptr_valid_with_table; [done|]. by intros e [? _]%Hent Hse. }
  destruct r; simpl; (split; [done|]).
  - destruct (HeapMore.remove_spec (StorageEngine.ttl_heap_ st) k Hpos) as [Hpos' Hmem].
    split; [done|]. split; [done|].
    intros k'. simpl. rewrite (HeapMore.pos_keys _ k' Hpos'), list_elem_of_fmap.
    intros (e & -> & [He Hne]%Hmem). rewrite Hget, decide_False by done.
    apply Hs. apply HeapMore.pos_keys; [done|]. by apply list_elem_of_fmap_2.
  - split; [done|]. split; [done|].
    intros k' Hk'. simpl in *. rewrite Hget. case_decide as Hkk; [|by apply Hs].
    subst k'. apply Hs in Hk'. rewrite HashMore.exists_get in Hres.
    symmetry in Hres. by apply bool_decide_eq_false in Hres.
Qed.

Lemma expire_invariant st k ttl now1 now2 :
  invariant st -> invariant (StorageEngine.expire hash st k ttl now1 now2).2.
Proof.
  intros Hinv. pose proof Hinv as (Hwf & Hpos & Hp & Hs). unfold StorageEngine.expire.
  rewrite HashMore.exists_get.
  case_bool_decide as Hex; simpl; [|done].
  pose proof (HashProofs.expire_wf hash _ k ttl now1 Hwf) as Hwf'.
  pose proof (fun x => HashMore.expire_entries hash (StorageEngine.hash_table_ st) k
                         ttl now1 x Hwf) as Hent.
  pose proof (fun k' => HashMore.get_expire hash (StorageEngine.hash_table_ st) k ttl now1
                          k' Hwf) as Hget.
  destruct (HashTable.expire _ _ _ _ _) as [r tb]. simpl in *.
  assert (invariant (StorageEngine.with_table st tb)) as Hinv1.
  { split; [done|]. split; [done|]. split.
    - intros e He Hse. simpl in He. apply Hent in He as [(e0 & He0 & Hk & ->)|[He _]].
      + simpl in *. by apply (Hp e0).
      + by apply (Hp e).
    - intros k' Hk'. simpl in *. rewrite Hget. by apply Hs. }
  destruct r; simpl; [|done].
  apply (with_heap_add_invariant _ k (after now2 ttl) Hinv1). simpl. by rewrite Hget.
Qed.

Lemma get_sorted_set_invariant st k create :
  invariant st ->
  invariant (StorageEngine.get_sorted_set hash st k create).2
  /\ match (StorageEngine.get_sorted_set hash st k create).1 with
     | Some p =>
         is_Some (StorageEngine.sorted_sets_
                    (StorageEngine.get_sorted_set hash st k create).2 !! p)
     | None => True
     end.
Proof.
  intros Hinv. pose proof Hinv as (Hwf & Hpos & Hp & Hs). unfold StorageEngine.get_sorted_set.
  destruct (HashTable.get hash (StorageEngine.hash_table_ st) k) as [v|] eqn:Hg.
  - apply HashMore.get_Some in Hg as (e & He & _ & <-); [|done].
    destruct (is_sorted_set (value e)) eqn:Hse; simpl; [|done].
    split; [done|]. destruct (Hp e He Hse) as (p & Hptr & Hsome).
    unfold get_sorted_set_ptr. by rewrite Hptr.
  - destruct create; simpl; [|done].
    set (p := map_size (StorageEngine.sorted_sets_ st)).
    unfold HashTable.set.
    pose proof (HashProofs.store_wf hash _ k (set_sorted_set_ptr Value_default p) None Hwf)
      as Hwf'.
    pose proof (fun x => HashMore.store_entries hash (StorageEngine.hash_table_ st) k
                           (set_sorted_set_ptr Value_default p) None x Hwf) as Hent.
    pose proof (fun k' => HashMore.get_store hash (StorageEngine.hash_table_ st) k
                            (set_sorted_set_ptr Value_default p) None k' Hwf) as Hget.
    destruct (HashTable.store _ _ _ _ _) as [r tb]. simpl in *.
    split; [|by rewrite lookup_insert_eq].
    split; [done|]. split; [done|]. split.
    + intros e He Hse. simpl in *. apply Hent in He as [->|[He _]].
      * exists p. simpl. by rewrite lookup_insert_eq.
      * destruct (Hp e He Hse) as (q & Hq & Hsome). exists q. split; [done|].
        destruct (decide (q = p)) as [->|]; [by rewrite lookup_insert_eq|].
        by rewrite lookup_insert_ne.
    + intros k' Hk'. simpl in *. rewrite Hget. case_decide; [eauto | by apply Hs].
Qed.

Lemma with_zset_invariant st p zs :
  invariant st -> invariant (StorageEngine.with_zset st p zs).
Proof.
  intros (Hwf & Hpos & Hp & Hs). split; [done|]. split; [done|]. split; [|done].
  intros e He Hse. destruct (Hp e He Hse) as (q & Hq & Hsome). exists q. split; [done|].
  simpl. destruct (decide (q = p)) as [->|]; [by rewrite lookup_insert_eq|].
  by rewrite lookup_insert_ne.
Qed.

Lemma zadd_invariant st k m score :
  invariant st -> invariant (StorageEngine.zadd hash st k m score).2.
Proof.
  intros Hinv. unfold StorageEngine.zadd.
  destruct (get_sorted_set_invariant st k true Hinv) as [Hinv' _].
  destruct (StorageEngine.get_sorted_set hash st k true) as [[p|] st1]; simpl in *; [|done].
  destruct (StorageEngine.sorted_sets_ st1 !! p) as [zs|]; [|done].
  destruct (SortedSet.add zs m score) as [r zs']. simpl. by apply with_zset_invariant.
Qed.

Lemma zrem_invariant st k m :
  invariant st -> invariant (StorageEngine.zrem hash st k m).2.
Proof.
  intros Hinv. unfold StorageEngine.zrem.
  destruct (get_sorted_set_invariant st k false Hinv) as [Hinv' _].
  destruct (StorageEngine.get_sorted_set hash st k false) as [[p|] st1]; simpl in *; [|done].
  destruct (StorageEngine.sorted_sets_ st1 !! p) as [zs|]; [|done].
  destruct (SortedSet.remove zs m) as [r zs']. simpl. by apply with_zset_invariant.
Qed.

Lemma clear_entries tb : entries (HashTable.clear tb) = [].
Proof.
  unfold entries, HashTable.clear. simpl.
  induction (HashTable.buckets_ tb) as [|b bs IH]; [done|]. simpl. done.
Qed.

Lemma flushdb_invariant st : invariant st -> invariant (StorageEngine.flushdb st).
Proof.
  intros (Hwf & Hpos & Hp & Hs). split; [by apply HashProofs.clear_wf|]. split; [|split].
  - intros k i. simpl. rewrite lookup_empty, lookup_nil. split; [done | by intros (? & ? & _)].
  - intros e He. simpl in He. rewrite clear_entries in He. by apply elem_of_nil in He.
  - intros k. simpl. rewrite lookup_empty. by intros [? ?].
Qed.

Lemma process_expired_keys_invariant st now :
  invariant st -> invariant (StorageEngine.process_expired_keys hash st now).
Proof.
  intros (Hwf & Hpos & Hp & Hs). unfold StorageEngine.process_expired_keys.
  destruct (HeapMore.get_expired_keys_index now (StorageEngine.ttl_heap_ st) Hpos)
    as (Hpos' & _ & Hidx & _).
  destruct (TTLHeap.get_expired_keys now (StorageEngine.ttl_heap_ st)) as [ks h]. simpl in *.
  split; [by apply del_all_wf|]. split; [done|]. split.
  - intros e He Hse. simpl in *. apply del_all_entries in He as [He _]; [|done].
    by apply (Hp e).
  - intros k [Hk Hno]%Hidx. simpl. rewrite del_all_get by done.
    rewrite decide_False by done. by apply Hs.
Qed.

Lemma engine_new_invariant : invariant StorageEngine.new.
Proof.
  split; [apply HashProofs.new_wf; lia|]. split; [|split].
  - intros k i. simpl. rewrite lookup_empty, lookup_nil. split; [done | by intros (? & ? & _)].
  - intros e He.
    change (e ∈ mjoin (replicate 1024 ([] : list Entry))) in He.
    rewrite HashProofs.join_replicate_nil in He. by apply elem_of_nil in He.
  - intros k. simpl. rewrite lookup_empty. by intros [? ?].
Qed.

Lemma step_invariant st c : invariant st -> invariant (Trace.step hash st c).
Proof.
  intros Hinv. destruct c; simpl.
  - by apply set_invariant.
  - unfold StorageEngine.set_nx. destruct (HashTable.exists_ _ _ _); [done|].
    by apply set_invariant.
  - by apply set_ex_invariant.
  - by apply del_invariant.
  - by apply expire_invariant.
  - by apply zadd_invariant.
  - by apply zrem_invariant.
  - by apply flushdb_invariant.
  - by apply process_expired_keys_invariant.
Qed.

Lemma run_invariant cmds : invariant (Trace.run hash cmds).
Proof.
  unfold Trace.run. induction cmds as [|c cmds IH] using rev_ind.
  - apply engine_new_invariant.
  - rewrite foldl_app. simpl. by apply step_invariant.
Qed.

(** ** del, key by key *)
Lemma del_get st k k' :
  invariant st ->
  HashTable.get hash (StorageEngine.hash_table_ (StorageEngine.del hash st k).2) k'
  = if decide (k' = k) then None else HashTable.get hash (StorageEngine.hash_table_ st) k'.
Proof.
  intros (Hwf & _). destruct (del_table st k) as [-> _]. by apply HashMore.get_del.
Qed.

Lemma del_exists st k k' :
  invariant st ->
  StorageEngine.exists_ hash (StorageEngine.del hash st k).2 k'
  = if decide (k' = k) then false else StorageEngine.exists_ hash st k'.
Proof.
  intros Hinv. unfold StorageEngine.exists_. rewrite !HashMore.exists_get, del_get by done.
  case_decide; [|done]. by apply bool_decide_eq_false_2; intros [? ?].
Qed.

Lemma filter_length_ext {A} (P Q : A -> Prop) `{forall x, Decision (P x)}
    `{forall x, Decision (Q x)} (l : list A) :
  (forall x, x ∈ l -> P x <-> Q x) -> length (filter P l) = length (filter Q l).
Proof.
  induction l as [|a l IH]; intros Hext; [done|].
  rewrite !filter_cons.
  assert (length (filter P l) = length (filter Q l)) as Hl.
  { apply IH. intros x Hx. apply Hext. by right. }
  destruct (decide (P a)) as [Hp|Hp], (decide (Q a)) as [Hq|Hq]; simpl; try lia.
  - destruct Hq. apply Hext; [by left | done].
  - destruct Hp. apply Hext; [by left | done].
Qed.

Lemma filter_length_flip {A} (P Q : A -> Prop) `{forall x, Decision (P x)}
    `{forall x, Decision (Q x)} (l : list A) k :
  NoDup l -> k ∈ l -> P k -> ~ Q k -> (forall x, x <> k -> P x <-> Q x) ->
  length (filter P l) = S (length (filter Q l)).
Proof.
  intros Hnd Hin Hp Hq Hext. induction l as [|a l IH]; [by apply elem_of_nil in Hin|].
  apply NoDup_cons in Hnd as [Ha Hnd]. rewrite !filter_cons.
  apply elem_of_cons in Hin as [<-|Hin].
  - rewrite decide_True, decide_False by done. simpl. f_equal.
    apply filter_length_ext. intros x Hx. apply Hext. by intros ->.
  - specialize (IH Hnd Hin).
    assert (a <> k) as Hne by (by intros ->).
    destruct (decide (P a)) as [Hpa|Hpa], (decide (Q a)) as [Hqa|Hqa]; simpl; try lia.
    + destruct Hqa. by apply Hext.
    + destruct Hpa. by apply Hext.
Qed.

Lemma cmd_del_loop_spec keys n st :
  invariant st ->
  invariant (CommandHandler.cmd_del_loop hash keys n st).2
  /\ (CommandHandler.cmd_del_loop hash keys n st).1
     = n + Z.of_nat (length (filter (fun k => StorageEngine.exists_ hash st k)
                               (remove_dups keys)))
  /\ forall k', HashTable.get hash
                  (StorageEngine.hash_table_
                     (CommandHandler.cmd_del_loop hash keys n st).2) k'
       = if decide (k' ∈ keys) then None
         else HashTable.get hash (StorageEngine.hash_table_ st) k'.
Proof.
  revert n st. induction keys as [|k keys IH]; intros n st Hinv.
  - split; [done|]. split; [simpl; lia|]. intros k'. simpl.
    destruct (decide (k' ∈ [])) as [Hin|]; [by apply elem_of_nil in Hin | done].
  - simpl.
    pose proof (del_invariant st k Hinv) as Hinv1.
    pose proof (fun k' => del_get st k k' Hinv) as Hget.
    pose proof (fun k' => del_exists st k k' Hinv) as Hex.
    destruct (del_table st k) as [_ Hr].
    rewrite (HashMore.del_result hash) in Hr.
    change (HashTable.exists_ hash (StorageEngine.hash_table_ st) k)
      with (StorageEngine.exists_ hash st k) in Hr.
    destruct (StorageEngine.del hash st k) as [r st1]. simpl in *. subst r.
    destruct (IH (if StorageEngine.exists_ hash st k then n + 1 else n) st1 Hinv1)
      as (IH1 & IH2 & IH3).
    split; [done|]. split.
    + rewrite IH2. cbn [remove_dups].
      destruct (decide_rel elem_of k keys) as [Hin|Hnotin].
      * destruct (StorageEngine.exists_ hash st k) eqn:Ek.
        -- rewrite (filter_length_flip
                      (fun k0 => StorageEngine.exists_ hash st k0)
                      (fun k0 => StorageEngine.exists_ hash st1 k0) (remove_dups keys) k).
           ++ lia.
           ++ apply NoDup_remove_dups.
           ++ by apply elem_of_remove_dups.
           ++ by rewrite Ek.
           ++ rewrite Hex, decide_True by done. simpl. tauto.
           ++ intros x Hx. by rewrite Hex, decide_False.
        -- rewrite (filter_length_ext
                      (fun k0 => StorageEngine.exists_ hash st1 k0)
                      (fun k0 => StorageEngine.exists_ hash st k0) (remove_dups keys));
             [lia|].
           intros x Hx. rewrite Hex. case_decide; [subst x; by rewrite Ek | done].
      * rewrite filter_cons.
        rewrite (filter_length_ext
                   (fun k0 => StorageEngine.exists_ hash st1 k0)
                   (fun k0 => StorageEngine.exists_ hash st k0) (remove_dups keys)).
        -- destruct (StorageEngine.exists_ hash st k) eqn:Ek; simpl; lia.
        -- intros x Hx. rewrite elem_of_remove_dups in Hx. rewrite Hex.
           rewrite decide_False; [done|]. intros ->. contradiction.
    + intros k'. rewrite IH3, Hget.
      destruct (decide (k' = k)) as [->|Hne].
      * rewrite (decide_True (P := k ∈ k :: keys)) by (by left). by case_decide.
      * destruct (decide (k' ∈ keys)) as [Hin|Hnotin].
        -- by rewrite decide_True by (by right).
        -- rewrite decide_False; [done|]. by intros [?|?]%elem_of_cons.
Qed.

End EngineProofs.
End EngineProofs.


(** * The engine under the calls of the two threads *)
Module CallsProofs.
Import HashInv.
Section CallsProofs.
Variable hash : string -> nat.

Abbreviation consistent := (EngineInv.consistent hash).

Lemma ptr_valid_more_sets st st' :
  EngineInv.ptr_valid st ->
  StorageEngine.hash_table_ st' = StorageEngine.hash_table_ st ->
  (forall p, is_Some (StorageEngine.sorted_sets_ st !! p) ->
             is_Some (StorageEngine.sorted_sets_ st' !! p)) ->
  EngineInv.ptr_valid st'.
Proof.
  intros Hp Ht Hs e He Hse. rewrite Ht in He.
  destruct (Hp e He Hse) as (p & Hptr & Hsome). exists p. auto.
Qed.

Lemma store_consistent st k v exp :
  consistent st -> is_sorted_set v = false ->
  consistent (StorageEngine.with_table st
                (HashTable.store hash (StorageEngine.hash_table_ st) k v exp).2).
Proof.
  intros (Hwf & Hpos & Hp) Hv.
  split; [by apply HashProofs.store_wf|]. split; [done|].
  apply EngineProofs.ptr_valid_with_table; [done|].
  intros e [->|[? _]]%HashMore.store_entries Hse; [simpl in *; congruence | done | done].
Qed.

Lemma with_heap_consistent st h :
  consistent st -> HeapInv.pos_bijection h -> consistent (StorageEngine.with_heap st h).
Proof. intros (Hwf & _ & Hp) Hpos. split; [done|]. split; [done|]. exact Hp. Qed.

Lemma with_zset_consistent st p zs :
  consistent st -> consistent (StorageEngine.with_zset st p zs).
Proof.
  intros (Hwf & Hpos & Hp). split; [done|]. split; [done|].
  apply (ptr_valid_more_sets st); [done | done |].
  intros q Hq. simpl. destruct (decide (q = p)) as [->|]; [by rewrite lookup_insert_eq|].
  by rewrite lookup_insert_ne.
Qed.

Lemma new_consistent : consistent StorageEngine.new.
Proof.
  destruct (EngineProofs.engine_new_invariant hash) as (Hwf & Hpos & Hp & _).
  split; [done|]. split; [done|]. exact Hp.
Qed.

(** Every call keeps the objects consistent. *)
Lemma step_consistent st c : consistent st -> consistent (Calls.step hash st c).
Proof.
  intros Hc. pose proof Hc as (Hwf & Hpos & Hp). destruct c; simpl.
  - by apply store_consistent.
  - by apply store_consistent.
  - split; [by apply HashProofs.del_wf|]. split; [done|].
    apply EngineProofs.ptr_valid_with_table; [done|].
    by intros e [? _]%HashMore.del_entries Hse.
  - split; [by apply HashProofs.expire_wf|]. split; [done|].
    intros e He Hse. simpl in He.
    apply HashMore.expire_entries in He as [(e0 & He0 & Hk & ->)|[He _]]; [|by apply (Hp e)|done].
    simpl in *. by apply (Hp e0).
  - split; [by apply HashProofs.clear_wf|]. split; [done|].
    intros e He. simpl in He. rewrite EngineProofs.clear_entries in He.
    by apply elem_of_nil in He.
  - apply with_heap_consistent; [done|]. by apply EngineProofs.add_pos.
  - apply with_heap_consistent; [done|]. by apply HeapMore.remove_spec.
  - apply with_heap_consistent; [done|].
    intros k' i. simpl. rewrite lookup_empty, lookup_nil.
    split; [done | by intros (? & ? & _)].
  - apply with_heap_consistent; [done|]. by apply HeapMore.get_expired_keys_index.
  - set (p := map_size (StorageEngine.sorted_sets_ st)).
    unfold HashTable.set.
    split; [by apply HashProofs.store_wf|]. split; [done|].
    intros e He Hse. simpl in *.
    apply HashMore.store_entries in He as [->|[He _]]; [| |done].
    + exists p. simpl. by rewrite lookup_insert_eq.
    + destruct (Hp e He Hse) as (q & Hq & Hsome). exists q. split; [done|].
      destruct (decide (q = p)) as [->|]; [by rewrite lookup_insert_eq|].
      by rewrite lookup_insert_ne.
  - destruct (StorageEngine.sorted_sets_ st !! ptr); [|done]. by apply with_zset_consistent.
  - destruct (StorageEngine.sorted_sets_ st !! ptr); [|done]. by apply with_zset_consistent.
Qed.

Lemma exec_consistent st calls : consistent st -> consistent (Calls.exec hash st calls).
Proof.
  revert st. induction calls as [|c calls IH]; intros st Hc; [done|].
  simpl. apply IH. by apply step_consistent.
Qed.

Lemma run_consistent calls : consistent (Calls.run hash calls).
Proof. apply exec_consistent, new_consistent. Qed.

(** ** The commands as sequences of calls *)
Lemma exec_del_all st ks :
  Calls.exec hash st (Calls.HashDel <$> ks)
  = StorageEngine.with_table st
      (foldl (fun tb k => (HashTable.del hash tb k).2) (StorageEngine.hash_table_ st) ks).
Proof.
  unfold Calls.exec. revert st. induction ks as [|k ks IH]; intros st; simpl.
  - by destruct st.
  - by rewrite IH.
Qed.

Lemma zset_calls_exec st k create (op : nat -> Calls.call)
    (f : SortedSet.t -> bool * SortedSet.t) :
  (forall st1 ptr, Calls.step hash st1 (op ptr)
     = match StorageEngine.sorted_sets_ st1 !! ptr with
       | Some zs => StorageEngine.with_zset st1 ptr (f zs).2
       | None => st1
       end) ->
  Calls.exec hash st (Calls.zset_calls hash st k create op)
  = (match StorageEngine.get_sorted_set hash st k create with
     | (Some ptr, st1) =>
         match StorageEngine.sorted_sets_ st1 !! ptr with
         | Some zs => let '(r, zs') := f zs in (r, StorageEngine.with_zset st1 ptr zs')
         | None => (false, st1)
         end
     | (None, st1) => (false, st1)
     end).2.
Proof.
  intros Hop. unfold Calls.zset_calls, StorageEngine.get_sorted_set.
  destruct (HashTable.get hash (StorageEngine.hash_table_ st) k) as [v|].
  - destruct (is_sorted_set v); [|done].
    destruct (get_sorted_set_ptr v) as [ptr|]; [|done].
    simpl. rewrite Hop.
    destruct (StorageEngine.sorted_sets_ st !! ptr) as [zs|]; [|done]. by destruct (f zs).
  - destruct create; [|done].
    destruct (HashTable.set hash (StorageEngine.hash_table_ st) k _) as [r tb] eqn:Es.
    simpl. rewrite Hop. simpl. rewrite Es. simpl. rewrite !lookup_insert_eq.
    by destruct (f SortedSet.new).
Qed.

(** A command that no call of the other thread interrupts is the
    sequence of its calls. *)
Lemma of_command_exec st c :
  Calls.exec hash st (Calls.of_command hash st c) = Trace.step hash st c.
Proof.
  destruct c; simpl.
  - unfold StorageEngine.set. by destruct (HashTable.set _ _ _ _).
  - unfold StorageEngine.set_nx. destruct (HashTable.exists_ _ _ _); [done|].
    simpl. unfold StorageEngine.set. by destruct (HashTable.set _ _ _ _).
  - unfold StorageEngine.set_ex. by destruct (HashTable.set_with_expiry _ _ _ _ _ _) as [[] tb].
  - unfold StorageEngine.del. by destruct (HashTable.del _ _ _) as [[] tb].
  - unfold StorageEngine.expire. destruct (negb _); [done|].
    unfold Calls.exec. simpl.
    by destruct (HashTable.expire _ _ _ _ _) as [[] tb].
  - unfold StorageEngine.zadd.
    apply (zset_calls_exec st k true _ (fun zs => SortedSet.add zs member score)). done.
  - unfold StorageEngine.zrem.
    apply (zset_calls_exec st k false _ (fun zs => SortedSet.remove zs member)). done.
  - done.
  - unfold StorageEngine.process_expired_keys.
    destruct (TTLHeap.get_expired_keys now (StorageEngine.ttl_heap_ st)) as [ks h].
    change (Calls.exec hash st (Calls.HeapGetExpiredKeys now :: (Calls.HashDel <$> (ks, h).1)))
      with (Calls.exec hash (StorageEngine.with_heap st h) (Calls.HashDel <$> ks)).
    by rewrite exec_del_all.
Qed.

End CallsProofs.
End CallsProofs.

(** X23. Whatever the two threads do, the shared objects stay consistent:
    in every state reached by a sequence of calls to the hash table, the
    heap and the sorted sets (each call atomic, those of the commands and
    of the expiry passes in any interleaving), the hash table is well
    formed (every entry in the bucket of its hash, no key twice, [size_]
    the number of entries modulo [2^64]), the index of the TTL heap maps
    exactly the scheduled keys to their slots, and every sorted-set value
    of the table points to an allocated set. Each command of the engine
    and each expiry pass, run without a call of the other thread in
    between, is such a sequence of calls. *)
Theorem reachable_engine_invariant (hash : string -> nat) (calls : list Calls.call) :
  HashInv.wf hash (StorageEngine.hash_table_ (Calls.run hash calls))
  /\ HeapInv.pos_bijection (StorageEngine.ttl_heap_ (Calls.run hash calls))
  /\ EngineInv.ptr_valid (Calls.run hash calls)
  /\ forall (st : StorageEngine.t) (c : Trace.command),
       Calls.exec hash st (Calls.of_command hash st c) = Trace.step hash st c.
Proof.
  destruct (CallsProofs.run_consistent hash calls) as (Hwf & Hpos & Hp).
  split; [done|]. split; [done|]. split; [done|].
  apply CallsProofs.of_command_exec.
Qed.

(** X24. In every reachable state, [get] after [set] or [set_ex] of a key
    returns the value written, the key exists, and [get] of every other
    key returns what it did. *)
Theorem engine_get_after_set (hash : string -> nat) (cmds : list Trace.command)
    (k k' v : string) (ttl now1 now2 : Z) :
  StorageEngine.get hash (StorageEngine.set hash (Trace.run hash cmds) k v).2 k'
  = (if decide (k' = k) then Some v else StorageEngine.get hash (Trace.run hash cmds) k')
  /\ StorageEngine.get hash
       (StorageEngine.set_ex hash (Trace.run hash cmds) k v ttl now1 now2).2 k'
     = (if decide (k' = k) then Some v else StorageEngine.get hash (Trace.run hash cmds) k')
  /\ StorageEngine.exists_ hash (StorageEngine.set hash (Trace.run hash cmds) k v).2 k = true
  /\ StorageEngine.exists_ hash
       (StorageEngine.set_ex hash (Trace.run hash cmds) k v ttl now1 now2).2 k = true.
Proof.
  destruct (EngineProofs.run_invariant hash cmds) as (Hwf & _).
  set (st := Trace.run hash cmds) in *.
  unfold StorageEngine.get, StorageEngine.exists_.
  rewrite !HashMore.exists_get.
  rewrite EngineProofs.set_table, EngineProofs.set_ex_table.
  rewrite !HashMore.get_store by done.
  destruct (decide (k' = k)) as [->|Hne]; rewrite ?decide_True by done; simpl.
  - repeat split; by apply bool_decide_eq_true_2.
  - repeat split; by apply bool_decide_eq_true_2.
Qed.

(** X25. In every state the two threads reach by their calls, [del] of a
    key, run with no call of the expiry thread in between, returns whether
    the key existed; afterwards the key does not exist and every other key
    is as it was. If the key existed it is not scheduled in the heap
    afterwards; if it did not, [del] leaves the heap alone and the key is
    scheduled as it was. *)
Theorem engine_del_removes_key (hash : string -> nat) (calls : list Calls.call)
    (k k' : string) :
  (StorageEngine.del hash (Calls.run hash calls) k).1
  = StorageEngine.exists_ hash (Calls.run hash calls) k
  /\ StorageEngine.exists_ hash (StorageEngine.del hash (Calls.run hash calls) k).2 k = false
  /\ StorageEngine.get hash (StorageEngine.del hash (Calls.run hash calls) k).2 k = None
  /\ TTLHeap.key_to_index_
       (StorageEngine.ttl_heap_ (StorageEngine.del hash (Calls.run hash calls) k).2) !! k
     = (if StorageEngine.exists_ hash (Calls.run hash calls) k then None
        else TTLHeap.key_to_index_ (StorageEngine.ttl_heap_ (Calls.run hash calls)) !! k)
  /\ (k' <> k ->
      StorageEngine.get hash (StorageEngine.del hash (Calls.run hash calls) k).2 k'
      = StorageEngine.get hash (Calls.run hash calls) k'
      /\ StorageEngine.exists_ hash (StorageEngine.del hash (Calls.run hash calls) k).2 k'
         = StorageEngine.exists_ hash (Calls.run hash calls) k').
Proof.
  pose proof (CallsProofs.run_consistent hash calls) as (Hwf & Hpos & _).
  set (st := Calls.run hash calls) in *.
  destruct (EngineProofs.del_table hash st k) as [Ht Hr].
  pose proof (fun k' => HashMore.get_del hash (StorageEngine.hash_table_ st) k k' Hwf) as Hget.
  rewrite <- Ht in Hget.
  assert (HashTable.get hash
            (StorageEngine.hash_table_ (StorageEngine.del hash st k).2) k = None) as Hnone
    by (by rewrite Hget, decide_True).
  assert ((StorageEngine.del hash st k).1 = StorageEngine.exists_ hash st k) as Hres
    by (rewrite Hr; apply HashMore.del_result).
  split; [done|].
  split; [unfold StorageEngine.exists_; rewrite HashMore.exists_get, Hnone;
          by apply bool_decide_eq_false_2; intros [? ?]|].
  split; [unfold StorageEngine.get; by rewrite Hnone|]. split.
  - rewrite <- Hres. unfold StorageEngine.del.
    destruct (HashTable.del hash (StorageEngine.hash_table_ st) k) as [[] tb]; simpl; [|done].
    destruct (HeapMore.remove_spec (StorageEngine.ttl_heap_ st) k Hpos) as [Hpos' Hmem].
    apply eq_None_not_Some. intros Hsch.
    apply (HeapMore.pos_keys _ k Hpos') in Hsch.
    apply list_elem_of_fmap in Hsch as (e & Hk & [_ Hne]%Hmem). by subst k.
  - intros Hne. unfold StorageEngine.get, StorageEngine.exists_.
    rewrite !HashMore.exists_get, Hget, decide_False by done. done.
Qed.

(** X26. An expiry pass on a reachable state deletes exactly the keys that
    [get_expired_keys] returns and leaves the other keys as they are; every
    key it deletes was scheduled with a deadline that has passed; and when
    the heap is in heap order, every key scheduled with a deadline that has
    passed is deleted. *)
Theorem expiry_pass_deletes_due_keys (hash : string -> nat) (cmds : list Trace.command)
    (now : Z) (k : string) :
  let st := Trace.run hash cmds in
  let due := (TTLHeap.get_expired_keys now (StorageEngine.ttl_heap_ st)).1 in
  StorageEngine.get hash (StorageEngine.process_expired_keys hash st now) k
  = (if decide (k ∈ due) then None else StorageEngine.get hash st k)
  /\ StorageEngine.exists_ hash (StorageEngine.process_expired_keys hash st now) k
     = (if decide (k ∈ due) then false else StorageEngine.exists_ hash st k)
  /\ Forall (fun k => exists e, e ∈ TTLHeap.heap_ (StorageEngine.ttl_heap_ st)
                                /\ TTLHeap.key e = k /\ TTLHeap.expiry e <= now) due
  /\ (HeapInv.heap_order (TTLHeap.heap_ (StorageEngine.ttl_heap_ st)) ->
      Forall (fun e => TTLHeap.expiry e <= now -> TTLHeap.key e ∈ due)
        (TTLHeap.heap_ (StorageEngine.ttl_heap_ st))).
Proof.
  intros st due.
  destruct (EngineProofs.run_invariant hash cmds) as (Hwf & Hpos & _). fold st in Hwf, Hpos.
  destruct (HeapMore.get_expired_keys_index now (StorageEngine.ttl_heap_ st) Hpos)
    as (_ & _ & _ & Hdue). fold due in Hdue.
  assert (HashTable.get hash
            (StorageEngine.hash_table_ (StorageEngine.process_expired_keys hash st now)) k
          = if decide (k ∈ due) then None
            else HashTable.get hash (StorageEngine.hash_table_ st) k) as Hget.
  { unfold StorageEngine.process_expired_keys, due.
    destruct (TTLHeap.get_expired_keys now (StorageEngine.ttl_heap_ st)) as [ks h]. simpl.
    by apply EngineProofs.del_all_get. }
  unfold StorageEngine.get, StorageEngine.exists_. rewrite !HashMore.exists_get, Hget.
  split; [by case_decide|]. split.
  { case_decide; [|done]. by apply bool_decide_eq_false_2; intros [? ?]. }
  split; [by apply Forall_forall|].
  intros Ho%HeapProofs.heap_order_ordered. unfold due, TTLHeap.get_expired_keys.
  destruct (HeapProofs.get_expired_keys_loop_spec
              (length (TTLHeap.heap_ (StorageEngine.ttl_heap_ st))) now
              (StorageEngine.ttl_heap_ st) [] Ho) as (es & Hk & Hp & _ & _ & _ & Hrest);
    [done|].
  simpl in Hk. rewrite Hk. apply Forall_forall. intros e He Hle.
  rewrite Hp in He. apply elem_of_app in He as [He|He]; [by apply list_elem_of_fmap_2|].
  rewrite Forall_forall in Hrest. specialize (Hrest e He). lia.
Qed.

Lemma add_get_score (zs : SortedSet.t) (member : string) (score : float) :
  exists s, SortedSet.get_score (SortedSet.add zs member score).2 member = Some s
    /\ (s = score \/ double_eq s score = true).
Proof.
  unfold SortedSet.add, SortedSet.get_score, double_ne, double_eq.
  destruct (SortedSet.member_scores_ zs !! member) as [old|] eqn:Eold.
  - destruct (PrimFloat.eqb old score) eqn:Ene; simpl.
    + exists old. auto.
    + rewrite lookup_insert_eq. eauto.
  - simpl. rewrite lookup_insert_eq. eauto.
Qed.

(** X27. In every reachable state, [zadd] on a key that is absent or
    holds a sorted set leaves the member with the score given: [zscore]
    returns it (or, when the member already had an equal score, the score
    it had). *)
Theorem zscore_after_zadd (hash : string -> nat) (cmds : list Trace.command)
    (k member : string) (score : float) :
  match HashTable.get hash (StorageEngine.hash_table_ (Trace.run hash cmds)) k with
  | Some v => is_sorted_set v = true
  | None => True
  end ->
  exists s,
    StorageEngine.zscore hash
      (StorageEngine.zadd hash (Trace.run hash cmds) k member score).2 k member = Some s
    /\ (s = score \/ double_eq s score = true).
Proof.
  pose proof (EngineProofs.run_invariant hash cmds) as (Hwf & _ & Hp & _).
  set (st := Trace.run hash cmds) in *. intros Htype.
  unfold StorageEngine.zadd, StorageEngine.get_sorted_set.
  destruct (HashTable.get hash (StorageEngine.hash_table_ st) k) as [v|] eqn:Hg.
  - rewrite Htype.
    pose proof Hg as Hg'. apply HashMore.get_Some in Hg' as (e & He & _ & <-); [|done].
    destruct (Hp e He Htype) as (p & Hptr & [zs Hzs]).
    unfold get_sorted_set_ptr. rewrite Hptr, Hzs.
    destruct (add_get_score zs member score) as (s & Hs & Hcase).
    destruct (SortedSet.add zs member score) as [r zs']. simpl in *.
    exists s. split; [|done].
    unfold StorageEngine.zscore, StorageEngine.find_zset, StorageEngine.get_sorted_set.
    simpl. rewrite Hg, Htype. unfold get_sorted_set_ptr. rewrite Hptr.
    simpl. by rewrite lookup_insert_eq.
  - set (p := map_size (StorageEngine.sorted_sets_ st)).
    pose proof (HashMore.get_store hash (StorageEngine.hash_table_ st) k
                  (set_sorted_set_ptr Value_default p) None k Hwf) as Hget.
    rewrite decide_True in Hget by done.
    unfold HashTable.set.
    destruct (HashTable.store hash _ k _ None) as [r0 tb]. simpl in *.
    rewrite lookup_insert_eq.
    destruct (add_get_score SortedSet.new member score) as (s & Hs & Hcase).
    destruct (SortedSet.add SortedSet.new member score) as [r zs']. simpl in *.
    exists s. split; [|done].
    unfold StorageEngine.zscore, StorageEngine.find_zset, StorageEngine.get_sorted_set.
    simpl. rewrite Hget. simpl. by rewrite lookup_insert_eq.
Qed.

Lemma zscore_after_zadd_witness :
  exists s,
    StorageEngine.zscore hash_length
      (StorageEngine.zadd hash_length
         (Trace.run hash_length [Trace.Zadd "s" "a" 1%float; Trace.Set_ "k" "v"])
         "s" "b" 2%float).2 "s" "b" = Some s
    /\ (s = 2%float \/ double_eq s 2%float = true).
Proof.
  apply (zscore_after_zadd hash_length
           [Trace.Zadd "s" "a" 1%float; Trace.Set_ "k" "v"] "s" "b" 2%float).
  vm_compute. reflexivity.
Defined.

(** X28. In every reachable state, [DEL k1 ... kn] with less than [2^31]
    keys (the counter is an [int]) answers the number of distinct keys
    among its arguments that existed, and afterwards none of them exists
    while every other key is as it was. *)
Theorem cmd_del_counts_keys (hash : string -> nat) (cmds : list Trace.command)
    (args : list string) (k' : string) :
  (2 <= length args)%nat ->
  Z.of_nat (length (drop 1 args)) < 2 ^ 31 ->
  (CommandHandler.cmd_del hash args (Trace.run hash cmds)).1
  = CommandHandler.create_integer
      (Z.of_nat (length (filter (fun k => StorageEngine.exists_ hash (Trace.run hash cmds) k)
                           (remove_dups (drop 1 args)))))
  /\ StorageEngine.get hash (CommandHandler.cmd_del hash args (Trace.run hash cmds)).2 k'
     = (if decide (k' ∈ drop 1 args) then None
        else StorageEngine.get hash (Trace.run hash cmds) k')
  /\ StorageEngine.exists_ hash (CommandHandler.cmd_del hash args (Trace.run hash cmds)).2 k'
     = (if decide (k' ∈ drop 1 args) then false
        else StorageEngine.exists_ hash (Trace.run hash cmds) k').
Proof.
  intros Hlen _. pose proof (EngineProofs.run_invariant hash cmds) as Hinv.
  set (st := Trace.run hash cmds) in *.
  unfold CommandHandler.cmd_del. rewrite bool_decide_eq_false_2 by lia.
  destruct (EngineProofs.cmd_del_loop_spec hash (drop 1 args) 0 st Hinv) as (_ & Hn & Hget).
  destruct (CommandHandler.cmd_del_loop hash (drop 1 args) 0 st) as [n st']. simpl in *.
  split; [by rewrite Hn|].
  unfold StorageEngine.get, StorageEngine.exists_. rewrite !HashMore.exists_get, Hget.
  split; [by case_decide|].
  case_decide; [|done]. by apply bool_decide_eq_false_2; intros [? ?].
Qed.

Lemma cmd_del_counts_keys_witness :
  (CommandHandler.cmd_del hash_length ["del"; "k"; "x"; "k"]
     (Trace.run hash_length [Trace.Set_ "k" "v"; Trace.Set_ "j" "w"])).1
  = CommandHandler.create_integer 1.
Proof.
  apply (cmd_del_counts_keys hash_length [Trace.Set_ "k" "v"; Trace.Set_ "j" "w"]
           ["del"; "k"; "x"; "k"] "j").
  - simpl. lia.
  - simpl. lia.
Defined.

(** * The load factor *)
Module LoadProofs.
Import HashInv LoadInv.
Section LoadProofs.
Variable hash : string -> nat.

Abbreviation wf := (HashInv.wf hash).












End LoadProofs.
End LoadProofs.




(** * parse_command *)
Module ParseProofs.
Import CommandHandler Words.

Lemma string_length_app (a b : string) :
  String.length (a +:+ b) = (String.length a + String.length b)%nat.
Proof. induction a as [|c a IH]; simpl; [done | by rewrite IH]. Qed.

Lemma skip_space_length s : (String.length (skip_space s) <= String.length s)%nat.
Proof.
  induction s as [|c s IH]; simpl; [done|].
  destruct (isspace c); simpl; lia.
Qed.

Lemma skip_space_head s c rest : skip_space s = String c rest -> isspace c = false.
Proof.
  induction s as [|c0 s IH]; simpl; [done|].
  destruct (isspace c0) eqn:E; [done|]. by intros [= <- <-].
Qed.

Lemma read_word_spec s :
  no_space (read_word s).1 = true
  /\ (String.length (read_word s).1 + String.length (read_word s).2 = String.length s)%nat
  /\ (forall c rest, s = String c rest -> isspace c = false ->
        (read_word s).1 <> EmptyString).
Proof.
  induction s as [|c s (IH1 & IH2 & IH3)]; simpl; [done|].
  destruct (isspace c) eqn:E; simpl.
  - split; [done|]. split; [done|]. intros c0 rest [= <- <-]. congruence.
  - destruct (read_word s) as [w r]. simpl in *. rewrite E. simpl.
    split; [done|]. split; [lia | done].
Qed.

Lemma extract_spec s w rest :
  extract s = Some (w, rest) ->
  is_word w /\ (String.length rest < String.length s)%nat.
Proof.
  unfold extract. pose proof (skip_space_length s) as Hlen.
  destruct (skip_space s) as [|c s1] eqn:Hs; [done|].
  apply skip_space_head in Hs as Hc.
  pose proof (read_word_spec (String c s1)) as (H1 & H2 & H3).
  intros Hr. assert (read_word (String c s1) = (w, rest)) as Hr' by congruence.
  rewrite Hr' in H1, H2, H3. cbn [fst snd] in *.
  assert (w <> EmptyString) as Hw by (by eapply H3).
  split; [done|].
  destruct w; [done|]. cbn [String.length] in *. lia.
Qed.

Lemma parse_loop_words fuel s args :
  Forall is_word args -> Forall is_word (parse_loop fuel s args).
Proof.
  revert s args. induction fuel as [|fuel IH]; intros s args Hargs; [done|].
  simpl. destruct (extract s) as [[w rest]|] eqn:He; [|done].
  apply IH. apply Forall_app. split; [done|]. constructor; [|done].
  by apply extract_spec in He as [? _].
Qed.

(** A word in front of the end of the line or of a space is what
    [iss >> arg] reads. *)
Lemma read_word_app w rest :
  no_space w = true ->
  (rest = EmptyString \/ exists c r, rest = String c r /\ isspace c = true) ->
  read_word (w +:+ rest) = (w, rest).
Proof.
  intros Hw Hrest. induction w as [|c w IH]; simpl in *.
  - destruct Hrest as [->|(c & r & -> & Hc)]; [done|]. simpl. by rewrite Hc.
  - apply andb_true_iff in Hw as [Hc Hw]. apply negb_true_iff in Hc. rewrite Hc.
    by rewrite (IH Hw).
Qed.

Lemma extract_word w rest :
  is_word w ->
  (rest = EmptyString \/ exists c r, rest = String c r /\ isspace c = true) ->
  extract (w +:+ rest) = Some (w, rest).
Proof.
  intros [Hne Hw] Hrest. unfold extract.
  destruct w as [|c w]; [done|]. simpl in Hw.
  apply andb_true_iff in Hw as [Hc Hw']. apply negb_true_iff in Hc.
  assert (skip_space (String c w +:+ rest) = String c w +:+ rest) as ->
    by (simpl; by rewrite Hc).
  change (String c w +:+ rest) with (String c (w +:+ rest)) at 1.
  cbv iota. f_equal. apply (read_word_app (String c w) rest); [|done].
  simpl. by rewrite Hc, Hw'.
Qed.

Lemma extract_space s : extract (" " +:+ s) = extract s.
Proof. reflexivity. Qed.

Lemma concat_cons w ws :
  String.concat " " (w :: ws)
  = w +:+ match ws with [] => EmptyString | _ => " " +:+ String.concat " " ws end.
Proof.
  destruct ws as [|w2 ws]; simpl; [|done].
  induction w as [|c w IH]; [done|].
  change (String c w = String c (w +:+ EmptyString)). by f_equal.
Qed.

Lemma parse_loop_concat args :
  Forall is_word args ->
  forall fuel acc (lead : bool),
    (String.length (String.concat " " args) + (if lead then 1 else 0) <= fuel)%nat ->
    parse_loop fuel
      ((if lead then " " else EmptyString) +:+ String.concat " " args) acc
    = acc ++ args.
Proof.
  induction 1 as [|w ws Hw Hws IH]; intros fuel acc lead Hfuel.
  - rewrite app_nil_r. destruct fuel as [|fuel]; [done|]. by destruct lead.
  - rewrite concat_cons in *. rewrite string_length_app in Hfuel.
    set (rest := match ws with [] => EmptyString
                 | _ => " " +:+ String.concat " " ws end) in *.
    assert (rest = EmptyString \/ exists c r, rest = String c r /\ isspace c = true) as Hrest.
    { unfold rest. destruct ws; [by left|]. right. eauto. }
    assert (0 < String.length w)%nat as Hlen.
    { destruct Hw as [Hne _]. destruct w; [done | simpl; lia]. }
    destruct fuel as [|fuel]; [lia|].
    assert (extract ((if lead then " " else EmptyString) +:+ (w +:+ rest))
            = Some (w, rest)) as He.
    { destruct lead; [rewrite extract_space | change (EmptyString +:+ ?x) with x];
        by apply extract_word. }
    cbn [parse_loop]. rewrite He.
    unfold rest in *. destruct ws as [|w2 ws].
    + by destruct fuel.
    + rewrite (IH fuel (acc ++ [w]) true).
      * by rewrite <- app_assoc.
      * rewrite string_length_app in Hfuel.
        change (String.length " ") with 1%nat in Hfuel. destruct lead; lia.
Qed.

End ParseProofs.

(** X30. [parse_command] returns words only (not empty, without white
    space), and a line of words joined by single spaces is split into
    these words again. *)
Theorem parse_command_splits_words (command_str : string) (args : list string) :
  Forall Words.is_word args ->
  Forall Words.is_word (CommandHandler.parse_command command_str)
  /\ CommandHandler.parse_command (String.concat " " args) = args.
Proof.
  intros Hargs. split.
  - apply ParseProofs.parse_loop_words. constructor.
  - unfold CommandHandler.parse_command.
    apply (ParseProofs.parse_loop_concat args Hargs _ [] false). lia.
Qed.

Lemma parse_command_splits_words_witness :
  Forall Words.is_word ["ZADD"; "board"; "1.5"; "ann"]
  /\ Forall Words.is_word (CommandHandler.parse_command "  GET   k ")
  /\ CommandHandler.parse_command (String.concat " " ["ZADD"; "board"; "1.5"; "ann"])
     = ["ZADD"; "board"; "1.5"; "ann"].
Proof.
  assert (Forall Words.is_word ["ZADD"; "board"; "1.5"; "ann"]) as H
    by (repeat constructor; done).
  split; [exact H | by apply parse_command_splits_words].
Defined.

(** * ZADD on a member that is already in the set *)

(** Where [insert] after [remove] leaves the value: under the key given,
    or under a key the tree held before. *)
Lemma insert_after_remove_key (n : AVLTree.Node float string) (s_old s_new s' : float)
    (m : string) (sz : Z) :
  (s', m) ∈ AVLTree.inorder_traversal
              (AVLTree.insert_node double_lt
                 (AVLTree.remove_node double_lt n s_old sz).1 s_new m
                 (AVLTree.remove_node double_lt n s_old sz).2).1 ->
  s' = s_new \/ exists v, (s', v) ∈ AVLTree.inorder_traversal n.
Proof.
  intros Hin.
  apply AVLMap.insert_node_elem_inv in Hin as [Hin|[[= ->]|(_ & Hin & _)]].
  - right. exists m. by eapply AVLMap.remove_node_elem_inv.
  - by left.
  - right. simpl in Hin. apply list_elem_of_fmap in Hin as ([k v] & -> & Hin).
    exists v. by eapply AVLMap.remove_node_elem_inv.
Qed.

(** C9, amended: an [add] that changes the score of a present member
    returns true, as for a new member: the tree is updated by [remove] of
    the old score and [insert] of the new score with the member, after
    which it holds the member under a score that is neither below nor
    above the new one, and that is equal to the new one when neither the
    new score nor a score of the tree is NaN; the map is updated, and
    [ZADD] counts the member (the answer is the integer 1). An [add] with
    the score the member already has returns false and [ZADD] answers 0. *)
Theorem zadd_counts_score_update (hash : string -> nat) (stod : string -> option float)
    (st : StorageEngine.t) (k : string) (v : Value) (ptr : nat) (zs : SortedSet.t)
    (m : string) (s_old : float) (arg : string) (s_new : float) :
  HashTable.get hash (StorageEngine.hash_table_ st) k = Some v ->
  type_ v = SORTED_SET -> sorted_set_ptr_ v = Some ptr ->
  StorageEngine.sorted_sets_ st !! ptr = Some zs ->
  SortedSet.member_scores_ zs !! m = Some s_old ->
  stod arg = Some s_new ->
  (double_ne s_old s_new = true ->
   let zs' := {| SortedSet.score_tree_ :=
                   AVLTree.insert double_lt
                     (AVLTree.remove double_lt (SortedSet.score_tree_ zs) s_old).2 s_new m;
                 SortedSet.member_scores_ := <[m := s_new]> (SortedSet.member_scores_ zs) |} in
   SortedSet.add zs m s_new = (true, zs')
   /\ CommandHandler.cmd_zadd hash stod ["zadd"; k; arg; m] st
      = (CommandHandler.create_integer 1, StorageEngine.with_zset st ptr zs')
   /\ SortedSet.get_score zs' m = Some s_new
   /\ (exists s', double_lt s_new s' = false /\ double_lt s' s_new = false
         /\ (m, s') ∈ SortedSet.get_all zs')
   /\ (not_nan s_new ->
       Forall (fun p : string * float => not_nan p.2) (SortedSet.get_all zs) ->
       exists s', double_eq s' s_new = true /\ (m, s') ∈ SortedSet.get_all zs'))
  /\ (double_ne s_old s_new = false ->
      SortedSet.add zs m s_new = (false, zs)
      /\ CommandHandler.cmd_zadd hash stod ["zadd"; k; arg; m] st
         = (CommandHandler.create_integer 0, StorageEngine.with_zset st ptr zs)).
Proof.
  intros Hg Ht Hp Hz Hm Harg.
  assert (StorageEngine.get_sorted_set hash st k true = (Some ptr, st)) as Hgs.
  { unfold StorageEngine.get_sorted_set. rewrite Hg. unfold is_sorted_set.
    rewrite Ht. simpl. unfold get_sorted_set_ptr. by rewrite Hp. }
  split; intros Hne.
  - assert (SortedSet.add zs m s_new
            = (true, {| SortedSet.score_tree_ :=
                          AVLTree.insert double_lt
                            (AVLTree.remove double_lt (SortedSet.score_tree_ zs) s_old).2 s_new m;
                        SortedSet.member_scores_ := <[m := s_new]> (SortedSet.member_scores_ zs) |}))
      as Hadd.
    { unfold SortedSet.add. by rewrite Hm, Hne. }
    cbv zeta. split; [done|]. split; [|split].
    + unfold CommandHandler.cmd_zadd. simpl. unfold CommandHandler.arg. simpl.
      rewrite Harg. unfold StorageEngine.zadd. rewrite Hgs, Hz, Hadd. done.
    + unfold SortedSet.get_score. simpl. apply lookup_insert_eq.
    + unfold SortedSet.get_all, AVLTree.get_all, AVLTree.insert, AVLTree.remove. simpl.
      pose proof (AVLProofs.insert_node_holds_value double_lt double_lt_irrefl
        (AVLTree.remove_node double_lt (AVLTree.root_ (SortedSet.score_tree_ zs)) s_old
           (AVLTree.size_ (SortedSet.score_tree_ zs))).1
        s_new m
        (AVLTree.remove_node double_lt (AVLTree.root_ (SortedSet.score_tree_ zs)) s_old
           (AVLTree.size_ (SortedSet.score_tree_ zs))).2)
        as (s' & H1 & H2 & Hin).
      pose proof (insert_after_remove_key _ _ _ _ _ _ Hin) as Hkey.
      destruct (AVLTree.remove_node double_lt _ s_old _) as [n1 sz1]. simpl in *.
      destruct (AVLTree.insert_node _ _ _ _ _) as [n' sz']. simpl in *.
      assert ((m, s') ∈ (fun p : float * string => (p.2, p.1)) <$> AVLTree.inorder_traversal n')
        as Hmem by (apply list_elem_of_fmap; by exists (s', m)).
      split; [by exists s'|].
      intros Hnew Hall. exists s'. split; [|done].
      apply double_eqv_eq; [|done|by split].
      destruct Hkey as [->|[w Hw]]; [done|].
      rewrite Forall_forall in Hall. apply (Hall (w, s')).
      apply list_elem_of_fmap. by exists (s', w).
  - assert (SortedSet.add zs m s_new = (false, zs)) as Hadd.
    { unfold SortedSet.add. by rewrite Hm, Hne. }
    split; [done|].
    unfold CommandHandler.cmd_zadd. simpl. unfold CommandHandler.arg. simpl.
    rewrite Harg. unfold StorageEngine.zadd. rewrite Hgs, Hz, Hadd. done.
Qed.

Lemma zadd_counts_score_update_witness :
  (CommandHandler.cmd_zadd hash_length Stod.stod ["zadd"; "s"; "5"; "a"] Runs.with_zset).1
  = CommandHandler.create_integer 1
  /\ exists s', double_eq s' 5%float = true
       /\ ("a", s') ∈ SortedSet.get_all (SortedSet.add Runs.zset_s "a" 5%float).2.
Proof.
  destruct (zadd_counts_score_update hash_length Stod.stod Runs.with_zset "s"
              (set_sorted_set_ptr Value_default 0) 0 Runs.zset_s "a" 1%float "5" 5%float)
    as [H _].
  - vm_compute. reflexivity.
  - reflexivity.
  - reflexivity.
  - vm_compute. reflexivity.
  - vm_compute. reflexivity.
  - vm_compute. reflexivity.
  - destruct H as (Hadd & H & _ & _ & Heq); [vm_compute; reflexivity|].
    split; [rewrite H; reflexivity|].
    rewrite Hadd. apply Heq.
    + vm_compute. reflexivity.
    + repeat constructor.
Defined.
